(** * reaper-dev-mcp: the ReaScript documentation scraper

    A shallow embedding of [scripts/modules_generator/docs_scraper.py]:
    the signature parser, the namespace classifier, the name transformer
    and the refinement / deduplication stages, with the properties the
    design document states about them.

    Modelling conventions.
    - A Python [str] is a list of characters ([str := list ascii]), a
      character being its code point.  Letter case and the classes [\w],
      [\s] and [\d] are those of Python on ASCII text, the text of the
      vendor's signatures; characters from 128 on count as symbols without
      case.
    - [re] patterns are written in a small regular-expression syntax
      ([regex]) and run by a backtracking matcher with Python's greedy,
      leftmost-first discipline.
    - Exceptions are values of type [exn]; a function that may raise
      returns a [result].  A generator returns the list of the values it
      yielded together with the way it stopped.
    - [ReaFunc] objects are mutable and shared by reference: the pipeline
      stages work on references ([ref]) into an object store ([heap]).
      The arguments of a function are kept by value inside its record.
    - Logging is left out. *)

From Stdlib Require Import String Ascii Bool Arith Lia List Permutation.
Import ListNotations.
Open Scope string_scope.
Open Scope nat_scope.
Open Scope list_scope.

(** ** Text *)

Definition str := list ascii.

Definition s2l (s : string) : str := list_ascii_of_string s.
Coercion s2l : string >-> str.

Definition str_eqb (a b : str) : bool :=
  if list_eq_dec ascii_dec a b then true else false.

Definition strs (l : list string) : list str := map s2l l.

(** [x in (a, b, ...)] for a tuple, list or set of strings. *)
Definition mem (x : str) (l : list str) : bool := existsb (str_eqb x) l.

Module Chr.

Definition code (c : ascii) : nat := nat_of_ascii c.

Definition between (lo hi : nat) (c : ascii) : bool :=
  (lo <=? code c) && (code c <=? hi).

(** [[A-Z]], [[a-z]] and [\d] *)
Definition is_upper : ascii -> bool := between 65 90.
Definition is_lower : ascii -> bool := between 97 122.
Definition is_digit : ascii -> bool := between 48 57.

Definition exactly (d : ascii) (c : ascii) : bool := Ascii.eqb c d.
Definition other_than (d : ascii) (c : ascii) : bool := negb (Ascii.eqb c d).

(** [\w]: letters, digits and the underscore *)
Definition is_word (c : ascii) : bool :=
  is_upper c || is_lower c || is_digit c || exactly "_" c.

(** [\s] and [str.strip]: tab, newline, vertical tab, form feed, carriage
    return, the four separators 0x1c-0x1f, and the space *)
Definition is_space (c : ascii) : bool :=
  between 9 13 c || between 28 32 c.

Definition lower (c : ascii) : ascii :=
  if is_upper c then ascii_of_nat (code c + 32) else c.

End Chr.

(** [s.lower()] *)
Definition lower (s : str) : str := map Chr.lower s.

(** ** Regular expressions

    The fragment of [re] syntax the scraper uses: character classes, greedy
    [*] and [+] over a class, concatenation, capturing groups (none of
    them nested), a lookahead and the word boundary. *)

Inductive regex : Type :=
| Cls (p : ascii -> bool)
| Star (p : ascii -> bool)
| Plus (p : ascii -> bool)
| Cat (r1 r2 : regex)
| Group (r : regex)
| Ahead (r : regex)
| WordB.

Module Re.

(** What a successful match leaves: the unread text and the groups. *)
Definition outcome : Type := str * list str.

Definition cont : Type := option ascii -> str -> list str -> option outcome.

Definition accept : cont := fun _ rest groups => Some (rest, groups).

(** Greedy repetition of a class: read as much as possible, give back
    one character at a time while the continuation fails. *)
Fixpoint star (p : ascii -> bool) (k : option ascii -> str -> option outcome)
    (prev : option ascii) (s : str) : option outcome :=
  match s with
  | c :: s' =>
      if p c then
        match star p k (Some c) s' with
        | Some r => Some r
        | None => k prev s
        end
      else k prev s
  | [] => k prev s
  end.

Definition wordish (c : option ascii) : bool :=
  match c with Some c => Chr.is_word c | None => false end.

(** [run r prev s groups k]: match [r] at the head of [s], where [prev]
    is the character before it, then continue with [k]. *)
Fixpoint run (r : regex) (prev : option ascii) (s : str) (groups : list str)
    (k : cont) : option outcome :=
  match r with
  | Cls p =>
      match s with
      | c :: s' => if p c then k (Some c) s' groups else None
      | [] => None
      end
  | Star p => star p (fun pv s' => k pv s' groups) prev s
  | Plus p =>
      match s with
      | c :: s' =>
          if p c then star p (fun pv s' => k pv s' groups) (Some c) s'
          else None
      | [] => None
      end
  | Cat r1 r2 =>
      run r1 prev s groups (fun pv s' gs => run r2 pv s' gs k)
  | Group r1 =>
      run r1 prev s groups
        (fun pv s' gs => k pv s' (gs ++ [firstn (length s - length s') s]))
  | Ahead r1 =>
      match run r1 prev s groups accept with
      | Some (_, gs) => k prev s gs
      | None => None
      end
  | WordB =>
      if xorb (wordish prev) (wordish (hd_error s)) then k prev s groups
      else None
  end.

(** A match object: the text before the match, group 0, the numbered
    groups and the text after the match. *)
Record found : Type := Found {
  before : str;
  group0 : str;
  groups : list str;
  after : str
}.

Definition group (m : found) (n : nat) : str := nth (n - 1) (groups m) [].

Definition at_start (r : regex) (prev : option ascii) (s : str) : option found :=
  match run r prev s [] accept with
  | Some (rest, gs) => Some (Found [] (firstn (length s - length rest) s) gs rest)
  | None => None
  end.

(** [re.match(r, s)] *)
Definition match_ (r : regex) (s : str) : option found := at_start r None s.

Fixpoint search_from (r : regex) (prev : option ascii) (s : str) : option found :=
  match at_start r prev s with
  | Some m => Some m
  | None =>
      match s with
      | c :: s' =>
          match search_from r (Some c) s' with
          | Some m => Some (Found (c :: before m) (group0 m) (groups m) (after m))
          | None => None
          end
      | [] => None
      end
  end.

(** [re.search(r, s)] *)
Definition search (r : regex) (s : str) : option found := search_from r None s.

(** [re.sub]: [skip] counts the characters of the last match that are
    still to be passed over.  After an empty match the scan copies one
    character and moves on. *)
Fixpoint sub_from (r : regex) (repl : found -> str) (prev : option ascii)
    (skip : nat) (s : str) : str :=
  match skip, s with
  | S n, c :: s' => sub_from r repl (Some c) n s'
  | S _, [] => []
  | 0, [] =>
      match at_start r prev [] with
      | Some m => repl m
      | None => []
      end
  | 0, c :: s' =>
      match at_start r prev s with
      | Some m =>
          match length (group0 m) with
          | 0 => repl m ++ c :: sub_from r repl (Some c) 0 s'
          | S n => repl m ++ sub_from r repl (Some c) n s'
          end
      | None => c :: sub_from r repl (Some c) 0 s'
      end
  end.

(** [re.sub(r, repl, s)] *)
Definition sub (r : regex) (repl : found -> str) (s : str) : str :=
  sub_from r repl None 0 s.

End Re.

(** ** [to_snake] *)

Definition lower_or_digit (c : ascii) : bool := Chr.is_lower c || Chr.is_digit c.

(** [([A-Z]+)([A-Z][a-z])] *)
Definition acronym_then_word : regex :=
  Cat (Group (Plus Chr.is_upper))
      (Group (Cat (Cls Chr.is_upper) (Cls Chr.is_lower))).

(** [([a-z\d])([A-Z])] *)
Definition lower_then_upper : regex :=
  Cat (Group (Cls lower_or_digit)) (Group (Cls Chr.is_upper)).

(** The replacement [\1_\2] *)
Definition underscore_between (m : Re.found) : str :=
  Re.group m 1 ++ ("_" : str) ++ Re.group m 2.

Definition to_snake (s : str) : str :=
  let s := Re.sub acronym_then_word underscore_between s in
  let s := Re.sub lower_then_upper underscore_between s in
  lower s.

(** ** [str] methods *)

Fixpoint startswith (p s : str) : bool :=
  match p, s with
  | [], _ => true
  | a :: p', b :: s' => Ascii.eqb a b && startswith p' s'
  | _ :: _, [] => false
  end.

Definition endswith (p s : str) : bool := startswith (rev p) (rev s).

(** [p in s] for two strings *)
Fixpoint contains (p s : str) : bool :=
  startswith p s ||
  match s with
  | [] => false
  | _ :: s' => contains p s'
  end.

(** [s.replace(old, new)]: leftmost occurrences, never overlapping; with an
    empty [old], [new] goes before every character and at the end. *)
Fixpoint replace_from (old new : str) (skip : nat) (s : str) : str :=
  match skip, s with
  | S n, _ :: s' => replace_from old new n s'
  | S _, [] => []
  | 0, [] => if startswith old [] then new else []
  | 0, c :: s' =>
      if startswith old s then
        match length old with
        | 0 => new ++ c :: replace_from old new 0 s'
        | S n => new ++ replace_from old new n s'
        end
      else c :: replace_from old new 0 s'
  end.

Definition replace (old new : str) (s : str) : str := replace_from old new 0 s.

(** [s.split(sep)] and [s.split(sep, maxsplit=n)] for a separator that is
    not empty; [limit] is the number of cuts still allowed. *)
Definition may_cut (limit : option nat) : bool :=
  match limit with Some 0 => false | _ => true end.

Definition after_cut (limit : option nat) : option nat :=
  match limit with Some n => Some (pred n) | None => None end.

Fixpoint split_from (sep : str) (limit : option nat) (skip : nat) (piece : str)
    (s : str) : list str :=
  match s with
  | [] => [piece]
  | c :: s' =>
      match skip with
      | S n => split_from sep limit n piece s'
      | 0 =>
          if may_cut limit && startswith sep s then
            piece :: split_from sep (after_cut limit) (length sep - 1) [] s'
          else split_from sep limit 0 (piece ++ [c]) s'
      end
  end.

Definition split (sep : str) (s : str) : list str := split_from sep None 0 [] s.

Definition split_max (sep : str) (maxsplit : nat) (s : str) : list str :=
  split_from sep (Some maxsplit) 0 [] s.

Fixpoint lstrip (s : str) : str :=
  match s with
  | c :: s' => if Chr.is_space c then lstrip s' else s
  | [] => []
  end.

(** [s.strip()] *)
Definition strip (s : str) : str := rev (lstrip (rev (lstrip s))).

(** Truth value of a string, and of an optional string *)
Definition nonempty (s : str) : bool :=
  match s with [] => false | _ :: _ => true end.

Definition truthy (s : option str) : bool :=
  match s with Some s => nonempty s | None => false end.

(** ** Exceptions, results and generators *)

Inductive exn : Type :=
| ValueError (message : str) (about : list str)
| IndexError.

Inductive result (A : Type) : Type :=
| Ok (x : A)
| Raise (e : exn).

Arguments Ok {A} x.
Arguments Raise {A} e.

Definition bind {A B : Type} (m : result A) (f : A -> result B) : result B :=
  match m with
  | Ok x => f x
  | Raise e => Raise e
  end.

Notation "x <- m ;; k" := (bind m (fun x => k))
  (at level 61, m at next level, right associativity).

(** A generator that has run to its end: what it yielded, and the
    exception that stopped it, if one did. *)
Record gen (A : Type) : Type := Gen {
  yielded : list A;
  stopped : option exn
}.

Arguments Gen {A} yielded stopped.
Arguments yielded {A} g.
Arguments stopped {A} g.

Definition done {A : Type} : gen A := Gen [] None.
Definition fail {A : Type} (e : exn) : gen A := Gen [] (Some e).
Definition yield {A : Type} (x : A) (rest : gen A) : gen A :=
  Gen (x :: yielded rest) (stopped rest).

(** [list(g)] *)
Definition collect {A : Type} (g : gen A) : result (list A) :=
  match stopped g with
  | None => Ok (yielded g)
  | Some e => Raise e
  end.

(** ** The data model *)

Record ReaType : Type := mkReaType {
  reascript_type : str;
  name : option str;
  is_optional : bool;
  description : option str;
  is_pointer : bool;
  _default_value : option str
}.

(** [ReaType(reascript_type=t, name=n, is_optional=o)] *)
Definition new_ReaType (t : str) (n : option str) (o : bool) : ReaType :=
  mkReaType t n o None false None.

Record ReaFunc : Type := mkReaFunc {
  signature : str;
  reascript_name : str;
  fn_name_space : option str;
  arguments : list ReaType;
  return_values : list ReaType;
  docs : option str;
  reawrap_name : option str;
  constants : option (list ReaType)
}.

Definition FALSE_POSITIVE_NAMESPACES : list str :=
  strs [ "GetEnvelopeInfo"; "GetMediaItem"; "GetMediaItemInfo";
    "GetMediaItemTake"; "GetMediaItemTakeInfo";
    "GetMediaTrackInfo"; "GetSet"; "GetSetAutomationItemInfo";
    "GetSetEnvelopeInfo"; "GetSetMediaItemInfo";
    "GetSetMediaItemTakeInfo"; "GetSetMediaTrackInfo";
    "GetSetProjectInfo"; "GetSetTrackSendInfo";
    "GetTrackSendInfo"; "SetMediaItemInfo"; "SetMediaItemTake";
    "SetMediaItemTakeInfo"; "SetMediaTrackInfo";
    "SetTrackSendInfo"; "file"; "format"; "get";
    "image"; "kbd"; "my"; "parse"; "reduce";
    "relative"; "resolve"; "time" ].

Definition REAPER_NAMESPACES : list str :=
  strs [ "Audio"; "Dock"; "Help"; "Loop"; "Main";
    "Master"; "Menu"; "Resample"; "Splash";
    "ThemeLayout"; "TimeMap"; "Undo" ].

(** A pattern written as the sequence of its parts *)
Fixpoint seq (r : regex) (rs : list regex) : regex :=
  match rs with
  | [] => r
  | r' :: rs' => Cat r (seq r' rs')
  end.

(** ** Dictionaries

    A [dict] keeps its keys in insertion order; assigning to a key that is
    present keeps the key's place. *)

Module Dict.

Definition t (V : Type) : Type := list (str * V).

Fixpoint get {V : Type} (k : str) (d : t V) : option V :=
  match d with
  | [] => None
  | (k', v) :: d' => if str_eqb k k' then Some v else get k d'
  end.

Definition has {V : Type} (k : str) (d : t V) : bool :=
  match get k d with Some _ => true | None => false end.

(** [d[k] = v] *)
Fixpoint set {V : Type} (k : str) (v : V) (d : t V) : t V :=
  match d with
  | [] => [(k, v)]
  | (k', v') :: d' =>
      if str_eqb k k' then (k, v) :: d' else (k', v') :: set k v d'
  end.

(** [d.get(k, default)] *)
Definition get_or {V : Type} (default : V) (k : str) (d : t V) : V :=
  match get k d with Some v => v | None => default end.

Definition keys {V : Type} (d : t V) : list str := map fst d.

End Dict.

(** [a < b] on strings: lexicographic on character codes *)
Fixpoint str_ltb (a b : str) : bool :=
  match a, b with
  | _, [] => false
  | [], _ :: _ => true
  | x :: a', y :: b' =>
      (Chr.code x <? Chr.code y) || ((Chr.code x =? Chr.code y) && str_ltb a' b')
  end.

(** [sorted(items, key=key)]: a stable sort *)
Fixpoint insert_by {A : Type} (key : A -> str) (x : A) (l : list A) : list A :=
  match l with
  | [] => [x]
  | y :: l' => if str_ltb (key x) (key y) then x :: l else y :: insert_by key x l'
  end.

Definition sorted_by {A : Type} (key : A -> str) (l : list A) : list A :=
  fold_left (fun acc x => insert_by key x acc) l [].

(** ** The object store

    A [ReaFunc] is handled through a reference; the stages that rename a
    function write through the reference, so every list that holds the
    reference sees the new name. *)

Abbreviation ref := nat (only parsing).
Definition heap : Type := ref -> ReaFunc.

Definition store (h : heap) (r : ref) (f : ReaFunc) : heap :=
  fun r' => if r' =? r then f else h r'.

Definition with_reawrap_name (n : option str) (f : ReaFunc) : ReaFunc :=
  mkReaFunc (signature f) (reascript_name f) (fn_name_space f) (arguments f)
    (return_values f) (docs f) n (constants f).

Definition with_arguments (args : list ReaType) (f : ReaFunc) : ReaFunc :=
  mkReaFunc (signature f) (reascript_name f) (fn_name_space f) args
    (return_values f) (docs f) (reawrap_name f) (constants f).

Definition opt_eqb (a : option str) (b : str) : bool :=
  match a with Some a => str_eqb a b | None => false end.

Definition opt_str_eqb (a b : option str) : bool :=
  match a, b with
  | Some a, Some b => str_eqb a b
  | None, None => true
  | _, _ => false
  end.

Section Scraper.

(** [LUA_KEYWORDS] and [REAPER_TYPES] are imported from the package's
    [__init__] module; the scraper only tests membership in them. *)
Variable LUA_KEYWORDS : list str.
Variable REAPER_TYPES : list str.

(** ** Properties of [ReaType] *)

Definition is_reaper_type (self : ReaType) : bool :=
  mem (reascript_type self) REAPER_TYPES.

Definition reawrap_type (self : ReaType) : str :=
  if str_eqb (reascript_type self) "ReaProject" then "Project"
  else if str_eqb (reascript_type self) "MediaItem" then "Item"
  else if str_eqb (reascript_type self) "MediaItemTake" then "Take"
  else if str_eqb (reascript_type self) "MediaTrack" then "Track"
  else if str_eqb (reascript_type self) "TrackEnvelope" then "Envelope"
  else reascript_type self.

Definition is_reawrap_type (self : ReaType) : bool :=
  negb (str_eqb (reawrap_type self) (reascript_type self)).

Definition reawrap_class (self : ReaType) : str :=
  ("ReaWrap" : str) ++ reascript_type self.

Definition lua_type (self : ReaType) : str :=
  if is_reaper_type self then "userdata"
  else if mem (reascript_type self) (strs ["integer"; "double"; "float"]) then "number"
  else if str_eqb (reascript_type self) "boolean" then "boolean"
  else if mem (reascript_type self) (strs ["string"; "str"]) then "string"
  else reascript_type self.

Definition reawrap_lua_type (self : ReaType) : str :=
  if is_reawrap_type self then "table" else lua_type self.

Definition with_default_value (v : option str) (self : ReaType) : ReaType :=
  mkReaType (reascript_type self) (name self) (is_optional self)
    (description self) (is_pointer self) v.

(** The double-quote character, for the Lua literal of the empty string *)
Definition dquote : ascii := ascii_of_nat 34.

(** The [default_value] getter: the value read and the object after the
    read. *)
Definition default_value (self : ReaType) : str * ReaType :=
  match _default_value self with
  | None =>
      let v : str :=
        if str_eqb (reascript_type self) "boolean" then "false"
        else if str_eqb (reascript_type self) "number" then "0"
        else if str_eqb (reascript_type self) "string" then [dquote; dquote]
        else "nil" in
      (v, with_default_value (Some v) self)
  | Some v => (v, self)
  end.

(** The [default_value] setter *)
Definition set_default_value (value : str) (self : ReaType) : ReaType :=
  with_default_value (Some value) self.

(** ** The signature parser *)

(** [\w+\s*\(\s*[^)]*\s*\)] *)
Definition signature_pattern : regex :=
  seq (Plus Chr.is_word)
    [ Star Chr.is_space; Cls (Chr.exactly "(");
      Star Chr.is_space; Star (Chr.other_than ")"); Star Chr.is_space;
      Cls (Chr.exactly ")") ].

Fixpoint get_function_signature_loop (parts todo : list str) : result str :=
  match todo with
  | [] => Raise (ValueError "Could not find function signature in " parts)
  | part :: todo' =>
      match Re.match_ signature_pattern part with
      | Some _ => Ok part
      | None => get_function_signature_loop parts todo'
      end
  end.

Definition get_function_signature (parts : list str) : result str :=
  get_function_signature_loop parts parts.

(** The pattern of [get_arguments]: an opening parenthesis, group 1 made of
    the longest run of characters other than a closing parenthesis, and
    the closing parenthesis. *)
Definition arguments_pattern : regex :=
  seq (Cls (Chr.exactly "("))
    [ Group (Star (Chr.other_than ")")); Cls (Chr.exactly ")") ].

Definition get_arguments (signature : str) : result (list str) :=
  match Re.search arguments_pattern signature with
  | Some m => Ok (split "," (Re.group m 1))
  | None => Raise (ValueError "Could not find arguments in " [signature])
  end.

Definition ends_with_but_is_not (suffix name : str) : bool :=
  endswith suffix name && negb (str_eqb name suffix).

Definition starts_with_but_is_not (prefix name : str) : bool :=
  startswith prefix name && negb (str_eqb name prefix).

(** The edits of [sanitize_name] under [if name:] *)
Definition separate_words (name : str) : str :=
  let name := replace "." "" name in
  let name :=
    if ends_with_but_is_not "idx" name then replace "idx" "_idx" name
    else if ends_with_but_is_not "name" name then replace "name" "_name" name
    else if ends_with_but_is_not "type" name then replace "type" "_type" name
    else if ends_with_but_is_not "val" name then replace "val" "_val" name
    else if ends_with_but_is_not "pos" name then replace "pos" "_pos" name
    else if startswith "is" name then replace "is" "is_" name
    else if starts_with_but_is_not "swing" name then replace "swing" "swing_" name
    else if starts_with_but_is_not "nudge" name then replace "nudge" "nudge_" name
    else if starts_with_but_is_not "timesig" name then replace "timesig" "time_sig" name
    else if str_eqb name "guid_guid" then "guid"
    else name in
  let name := if startswith "__" name then replace "__" "" name else name in
  if contains "__" name then replace "__" "_" name else name.

(** [f"{name}_"] when the name is a keyword *)
Definition escape_keyword (name : str) : str :=
  if mem name LUA_KEYWORDS then name ++ ("_" : str) else name.

Definition sanitize_name (parts : list str) : option str :=
  let name :=
    if 1 <? length parts then option_map to_snake (nth_error parts 1)
    else None in
  match option_map escape_keyword name with
  | Some n => if nonempty n then Some (separate_words n) else Some n
  | None => None
  end.

Definition get_type (type_ : str) : str :=
  if str_eqb type_ "MediaItem_Take" then "MediaItemTake" else type_.

Fixpoint iter_types_and_names (types_and_names : list str) : gen ReaType :=
  match types_and_names with
  | [] => done
  | value :: more =>
      if negb (nonempty value) then done
      else
        let parts := filter nonempty (split " " value) in
        let name := sanitize_name parts in
        match parts with
        | [] => fail IndexError
        | part0 :: _ =>
            if str_eqb part0 "optional" then
              match nth_error parts 2 with
              | Some part2 =>
                  yield (new_ReaType part2 name true) (iter_types_and_names more)
              | None => fail IndexError
              end
            else if length parts =? 1 then
              yield (new_ReaType (get_type part0) None false)
                (iter_types_and_names more)
            else
              yield (new_ReaType (get_type part0) name false)
                (iter_types_and_names more)
        end
  end.

Definition parse_return_values (values : option str) : result (option (list ReaType)) :=
  match values with
  | Some v =>
      if nonempty v then
        let parts := split "," v in
        let types_and_names := map (fun part => strip (replace "=" "" part)) parts in
        l <- collect (iter_types_and_names types_and_names) ;; Ok (Some l)
      else Ok None
  | None => Ok None
  end.

(** [\b\w+(?=\s*\()] *)
Definition name_pattern : regex :=
  seq WordB
    [ Plus Chr.is_word;
      Ahead (seq (Star Chr.is_space) [ Cls (Chr.exactly "(") ]) ].

Definition get_function_name (signature : str) : result str :=
  match Re.search name_pattern signature with
  | Some m => Ok (Re.group0 m)
  | None => Raise (ValueError "Could not find function name in " [signature])
  end.

Definition get_fn_name_space (fn_name_space_parts : list str) : option str :=
  let fn_namespace :=
    if 1 <? length fn_name_space_parts then nth_error fn_name_space_parts 0
    else None in
  if truthy fn_namespace then
    match fn_namespace with
    | Some ns => if negb (mem ns FALSE_POSITIVE_NAMESPACES) then Some ns else None
    | None => None
    end
  else None.

(** [parse_lua_function] returns the five parsed fields; here they sit in
    a [ReaFunc] whose other fields are still absent. *)
Definition parse_lua_function (text : str) : result ReaFunc :=
  let parts := split_max "reaper." 1 text in
  let part0 := hd [] parts in
  parsed <- parse_return_values (if nonempty part0 then Some part0 else None) ;;
  let return_values := match parsed with Some l => l | None => [] end in
  signature <- get_function_signature parts ;;
  pieces <- get_arguments signature ;;
  arguments <- collect (iter_types_and_names pieces) ;;
  name <- get_function_name signature ;;
  let fn_name_space_parts := split_max "_" 1 name in
  let fn_name_space := get_fn_name_space fn_name_space_parts in
  let fn_name_space :=
    match fn_name_space with
    | Some ns =>
        if str_eqb ns "TimeMap2" then Some ("TimeMap" : str)
        else if str_eqb ns "midi" then Some ("MIDI" : str)
        else fn_name_space
    | None => None
    end in
  Ok (mkReaFunc signature name fn_name_space arguments return_values None None None).

(** ** The namespace classifier *)

Definition track_fx_exceptions : list str := strs ["TrackFX_Delete"; "TrackFX_GetCount"].
Definition take_fx_exceptions : list str := strs ["TakeFX_Delete"; "TakeFX_GetCount"].

(** [l_func.arguments and l_func.arguments[0].reascript_type in types] *)
Definition first_argument_in (types : list str) (l_func : ReaFunc) : bool :=
  match arguments l_func with
  | a :: _ => mem (reascript_type a) types
  | [] => false
  end.

(** The priority chain of the loop body: the namespace of one function *)
Definition name_space_of (l_func : ReaFunc) : str :=
  if (opt_eqb (fn_name_space l_func) "TrackFX"
      || contains "TrackFX" (reascript_name l_func))
     && negb (mem (reascript_name l_func) track_fx_exceptions)
  then "TrackFX"
  else if (opt_eqb (fn_name_space l_func) "TakeFX"
           || contains "TakeFX" (reascript_name l_func))
          && negb (mem (reascript_name l_func) take_fx_exceptions)
  then "TakeFX"
  else if opt_eqb (fn_name_space l_func) "PCM"
          || first_argument_in (strs ["PCM_source"; "PCM_sink"]) l_func
  then "PCM"
  else if first_argument_in REAPER_TYPES l_func
  then match arguments l_func with
       | a :: _ => reascript_type a
       | [] => "Reaper"
       end
  else match fn_name_space l_func with
       | Some ns => if mem ns REAPER_NAMESPACES then "Reaper" else ns
       | None => "Reaper"
       end.

(** [by_name_space[namespace].append(l_func)] *)
Definition append_under {A : Type} (k : str) (x : A) (d : Dict.t (list A)) : Dict.t (list A) :=
  Dict.set k (Dict.get_or [] k d ++ [x]) d.

Fixpoint group_loop (h : heap) (functions : list ref)
    (by_name_space : Dict.t (list ref)) : Dict.t (list ref) :=
  match functions with
  | [] => by_name_space
  | l_func :: more =>
      let namespace := name_space_of (h l_func) in
      let by_name_space :=
        if negb (Dict.has namespace by_name_space)
        then Dict.set namespace [] by_name_space
        else by_name_space in
      group_loop h more (append_under namespace l_func by_name_space)
  end.

Definition group_functions_by_name_space (h : heap) (functions : list ref)
  : Dict.t (list ref) :=
  group_loop h functions [].

(** ** The name transformer *)

Definition ns_special_cases : list str :=
  strs ["MIDI"; "Undo"; "Audio"; "Menu"; "Splash"; "ThemeLayout"].

Definition functions_special_cases : Dict.t (Dict.t str) :=
  [ ("TakeFX" : str,
      [ ("get_fxguid" : str, "get_guid" : str);
        ("get_fx_name" : str, "get_name" : str);
        ("get_count" : str, "get_fx_count" : str) ]);
    ("TrackFX" : str,
      [ ("get_fxguid" : str, "get_guid" : str);
        ("get_fx_name" : str, "get_name" : str);
        ("get_count" : str, "get_fx_count" : str) ]);
    ("MediaItemTake" : str,
      [ ("get_count" : str, "get_fx_count" : str);
        ("delete" : str, "delete_fx" : str) ]);
    ("MediaTrack" : str,
      [ ("get_count" : str, "get_fx_count" : str);
        ("delete" : str, "delete_fx" : str) ]);
    ("MediaItem" : str, [ ("add_take_to" : str, "add_take" : str) ]);
    ("ReaProject" : str, [ ("get_project_name" : str, "get_name" : str) ]) ].

Definition opt_mem (a : option str) (l : list str) : bool :=
  match a with Some a => mem a l | None => false end.

Definition generate_reawrap_name (namespace : str) (fn_name_space : option str)
    (reascript_name : str) : str :=
  let reascript_name :=
    if contains "TimeMap2" reascript_name
    then replace "TimeMap2" "TimeMap" reascript_name
    else reascript_name in
  let reawrap_name :=
    if ((truthy fn_name_space
         && match fn_name_space with
            | Some ns => contains ns reascript_name
            | None => false
            end)
        || contains namespace reascript_name)
       && negb (opt_mem fn_name_space ns_special_cases)
    then
      let reawrap_name :=
        match fn_name_space with
        | Some ns => if nonempty ns then replace ns "" reascript_name
                     else reascript_name
        | None => reascript_name
        end in
      replace namespace "" reawrap_name
    else reascript_name in
  let reawrap_name :=
    if startswith "__" reawrap_name then skipn 2 reawrap_name
    else if startswith "_" reawrap_name then skipn 1 reawrap_name
    else reawrap_name in
  let reawrap_name := to_snake reawrap_name in
  let reawrap_name := escape_keyword reawrap_name in
  Dict.get_or reawrap_name reawrap_name
    (Dict.get_or [(reawrap_name, reawrap_name)] namespace functions_special_cases).

(** ** Refinement *)

(** The inner loop of [refine_functions] over one namespace: [seen] is
    [seen_funcs[name_space]] and [kept] is [refined[name_space]]. *)
Fixpoint refine_loop (name_space : str) (functions : list ref) (h : heap)
    (seen : list str) (kept : list ref) : heap * list str * list ref :=
  match functions with
  | [] => (h, seen, kept)
  | func :: more =>
      let reawrap_name :=
        generate_reawrap_name name_space (fn_name_space (h func))
          (reascript_name (h func)) in
      let h := store h func (with_reawrap_name (Some reawrap_name) (h func)) in
      if negb (mem reawrap_name seen)
      then refine_loop name_space more h (seen ++ [reawrap_name]) (kept ++ [func])
      else refine_loop name_space more h seen kept
  end.

Fixpoint refine_namespaces (items : list (str * list ref)) (h : heap)
    (refined : Dict.t (list ref)) (seen_funcs : Dict.t (list str))
  : heap * Dict.t (list ref) :=
  match items with
  | [] => (h, refined)
  | (name_space, functions) :: more =>
      let refined :=
        if negb (Dict.has name_space refined)
        then Dict.set name_space [] refined else refined in
      let seen_funcs :=
        if negb (Dict.has name_space seen_funcs)
        then Dict.set name_space [] seen_funcs else seen_funcs in
      let '(h, seen, kept) :=
        refine_loop name_space functions h
          (Dict.get_or [] name_space seen_funcs)
          (Dict.get_or [] name_space refined) in
      refine_namespaces more h
        (Dict.set name_space kept refined) (Dict.set name_space seen seen_funcs)
  end.

Definition refine_functions (h : heap) (by_name_space : Dict.t (list ref))
  : heap * Dict.t (list ref) :=
  refine_namespaces
    (sorted_by (fun item : str * list ref => lower (fst item)) by_name_space)
    h [] [].

(** ** Deduplication *)

(** [func.docs and word in func.docs.lower()] *)
Definition docs_mention (word : str) (func : ReaFunc) : bool :=
  match docs func with
  | Some d => nonempty d && contains word (lower d)
  | None => false
  end.

(** The loop over [func.arguments] that follows two of the renames.

    The items of [arguments], [return_values] and [constants] are held by
    value.  [iter_types_and_names] and [parse_constants_from_docs] build a
    new [ReaType] for every item, so among the records the stages handle no
    object sits in two lists, and a write to an argument shows in that
    argument only.  An object placed in two lists by hand would show the
    new [name] and [is_optional] in both, which values cannot show: what
    is stated below of [dedupe_functions] on every table speaks of target
    names, of the records kept and of the fields the code never writes;
    what is stated of the names of arguments is stated of the stages, or
    of the arguments of the record that is renamed. *)
Definition want_master (arg : ReaType) : ReaType :=
  if opt_eqb (name arg) "wantmaster"
  then mkReaType (reascript_type arg) (Some ("want_master" : str)) true
         (description arg) (is_pointer arg) (_default_value arg)
  else arg.

Definition rename (n : str) (func : ReaFunc) : ReaFunc :=
  with_reawrap_name (Some n) func.

Definition rename_want_master (n : str) (func : ReaFunc) : ReaFunc :=
  with_arguments (map want_master (arguments func)) (rename n func).

(** [func.reawrap_name == n and name_space == "ReaProject"] *)
Definition named (n : str) (name_space : str) (func : ReaFunc) : bool :=
  opt_eqb (reawrap_name func) n && str_eqb name_space "ReaProject".

(** The curated chain of [dedupe_functions]: [None] is [continue], and
    [Some f] is the function record after the branch taken. *)
Definition curated (name_space : str) (func : ReaFunc) : option ReaFunc :=
  if named "count_selected_tracks" name_space func then None
  else if named "count_selected_tracks2" name_space func
  then Some (rename_want_master "count_selected_tracks" func)
  else if named "add_project_marker" name_space func then None
  else if named "add_project_marker2" name_space func
  then Some (rename "add_project_marker" func)
  else if named "enum_project_markers2" name_space func then None
  else if named "enum_project_markers3" name_space func
  then Some (rename "enum_project_markers" func)
  else if named "get_play_position_ex" name_space func
  then Some (rename "get_play_position_lat_comp" func)
  else if named "get_play_position2_ex" name_space func
  then Some (rename "get_play_position" func)
  else if named "get_project_time_signature2" name_space func
  then Some (rename "get_project_time_signature" func)
  else if named "get_selected_track" name_space func then None
  else if named "get_selected_track2" name_space func
  then Some (rename_want_master "get_selected_track" func)
  else Some func.

Definition seen_has (n : option str) (seen : list (option str)) : bool :=
  existsb (opt_str_eqb n) seen.

Fixpoint dedupe_loop (name_space : str) (functions : list ref) (h : heap)
    (seen : list (option str)) (kept : list ref) : heap * list ref :=
  match functions with
  | [] => (h, kept)
  | func :: more =>
      if docs_mention "deprecated" (h func)
      then dedupe_loop name_space more h seen kept
      else if docs_mention "discouraged" (h func)
      then dedupe_loop name_space more h seen kept
      else
        match curated name_space (h func) with
        | None => dedupe_loop name_space more h seen kept
        | Some f =>
            let h := store h func f in
            if negb (seen_has (reawrap_name f) seen)
            then dedupe_loop name_space more h
                   (seen ++ [reawrap_name f]) (kept ++ [func])
            else dedupe_loop name_space more h seen kept
        end
  end.

Fixpoint dedupe_namespaces (items : list (str * list ref)) (h : heap)
    (deduped : Dict.t (list ref)) : heap * Dict.t (list ref) :=
  match items with
  | [] => (h, deduped)
  | (name_space, functions) :: more =>
      let '(h, kept) := dedupe_loop name_space functions h [] [] in
      dedupe_namespaces more h (Dict.set name_space kept deduped)
  end.

Definition dedupe_functions (h : heap) (refined : Dict.t (list ref))
  : heap * Dict.t (list ref) :=
  dedupe_namespaces refined h [].

(** ** The document

    The HTML tree is read through [bs4]; what the scraper takes from it is,
    for every [function_definition] element, the text of its [l_func]
    block and its documentation paragraph, if it has one.  Paragraphs are
    kept abstract: [text_of] is their [text] and
    [parse_constants_from_docs] the scan for a table of constants. *)

Variable Tag : Type.
Variable text_of : Tag -> str.
Variable parse_constants_from_docs : Tag -> str * list ReaType.

Record definition : Type := mkDefinition {
  l_func : str;
  paragraph : option Tag
}.

(** The no-break space, code point 160 *)
Definition nbsp : ascii := ascii_of_nat 160.

Definition with_fn_name_space (ns : option str) (f : ReaFunc) : ReaFunc :=
  mkReaFunc (signature f) (reascript_name f) ns (arguments f)
    (return_values f) (docs f) (reawrap_name f) (constants f).

Definition with_docs (d : option str) (cs : option (list ReaType)) (f : ReaFunc)
  : ReaFunc :=
  mkReaFunc (signature f) (reascript_name f) (fn_name_space f) (arguments f)
    (return_values f) d (reawrap_name f) cs.

(** The second loop of [iter_lua_functions]: a [ValueError] is logged and
    the entry skipped. *)
Fixpoint iter_built_in (entries : list definition) : gen ReaFunc :=
  match entries with
  | [] => done
  | func :: more =>
      match parse_lua_function (l_func func) with
      | Ok lua_func =>
          yield
            (with_docs (option_map text_of (paragraph func)) None
               (with_fn_name_space (Some ("built_in" : str)) lua_func))
            (iter_built_in more)
      | Raise (ValueError _ _) => iter_built_in more
      | Raise e => fail e
      end
  end.

(** The first loop, followed by [rest] *)
Fixpoint iter_functions_all (entries : list definition) (rest : gen ReaFunc)
  : gen ReaFunc :=
  match entries with
  | [] => rest
  | func :: more =>
      match parse_lua_function (l_func func) with
      | Ok lua_func =>
          let docstr :=
            option_map (fun d => replace [nbsp] [] (text_of d)) (paragraph func) in
          let described :=
            match paragraph func with
            | Some d =>
                if contains "Info" (reascript_name lua_func)
                then let '(text, constants) := parse_constants_from_docs d in
                     with_docs (Some text) (Some constants) lua_func
                else with_docs docstr None lua_func
            | None => with_docs docstr None lua_func
            end in
          yield described (iter_functions_all more rest)
      | Raise e => fail e
      end
  end.

(** [soup] is given by the entries of its [functions_all] section and of
    its [lua] section. *)
Definition iter_lua_functions (functions_all lua : list definition)
    (built_in : bool) : gen ReaFunc :=
  iter_functions_all functions_all
    (if built_in then iter_built_in lua else done).

End Scraper.

Arguments mkDefinition {Tag} l_func paragraph.
Arguments l_func {Tag} d.
Arguments paragraph {Tag} d.
Arguments iter_built_in LUA_KEYWORDS {Tag} text_of entries.
Arguments iter_functions_all LUA_KEYWORDS {Tag} text_of parse_constants_from_docs entries rest.
Arguments iter_lua_functions LUA_KEYWORDS {Tag} text_of parse_constants_from_docs functions_all lua built_in.

(** ** Predicates and sample data used to state the properties *)

(** A string without capital letters *)
Definition no_upper (s : str) : Prop := Forall (fun c => Chr.is_upper c = false) s.

(** The two imported tables, for the worked examples: *)

(** Modelled from the spec: [REAPER_TYPES], the recognised opaque handle
    types.  The list is defined in the package's [__init__] module, which
    is not embedded here; these are the handle types the scraper itself
    names (the five relabelled by [reawrap_type] and the two sample-source
    types of the classifier). *)
Definition handle_types : list str :=
  strs [ "ReaProject"; "MediaItem"; "MediaItemTake"; "MediaTrack";
         "TrackEnvelope"; "PCM_source"; "PCM_sink" ].

(** Modelled from the spec: [LUA_KEYWORDS], the keyword set of the
    destination language, also defined in the package's [__init__]
    module; these are the reserved words of Lua. *)
Definition lua_reserved_words : list str :=
  strs [ "and"; "break"; "do"; "else"; "elseif"; "end"; "false"; "for";
         "function"; "goto"; "if"; "in"; "local"; "nil"; "not"; "or";
         "repeat"; "return"; "then"; "true"; "until"; "while" ].

(** The test that puts a function under the key [ns] *)
Definition in_name_space (REAPER_TYPES : list str) (h : heap) (ns : str) (r : ref) : bool :=
  str_eqb (name_space_of REAPER_TYPES (h r)) ns.

(** A heap for the worked examples: record [0] is [first], all others are
    [other]. *)
Definition two_records (first other : ReaFunc) : heap :=
  fun r => match r with 0 => first | _ => other end.

(** A parsed record with the given name, namespace token and first
    argument type *)
Definition parsed (reascript_name : str) (fn_name_space : option str)
    (first_argument : str) : ReaFunc :=
  mkReaFunc [] reascript_name fn_name_space
    [new_ReaType first_argument None false] [] None None None.

(** The target names of the records of a list, as the heap has them *)
Definition target_names (h : heap) (l : list ref) : list (option str) :=
  map (fun r => reawrap_name (h r)) l.

(** [docs] holds [word] in some letter case *)
Definition mentions (word : str) (docs : str) : Prop :=
  exists pre w post, docs = pre ++ w ++ post /\ lower w = word.

Definition disjoint (l l' : list ref) : bool :=
  forallb (fun r => negb (existsb (Nat.eqb r) l')) l.

(** No record is listed under two entries of the table. *)
Fixpoint unshared (items : list (str * list ref)) : bool :=
  match items with
  | [] => true
  | (_, l) :: more =>
      forallb (fun item => disjoint l (snd item)) more && unshared more
  end.

(** A record that the curated chain keeps under its present name, if it
    keeps it *)
Definition settled (name_space : str) (f : ReaFunc) : Prop :=
  forall f', curated name_space f = Some f' -> reawrap_name f' = reawrap_name f.

(** A record as [refine_functions] leaves it, for the worked examples *)
Definition refined_as (reascript_name reawrap_name : str) (docs : option str)
  : ReaFunc :=
  mkReaFunc [] reascript_name None [] [] docs (Some reawrap_name) None.

(** Pairwise distinct strings *)
Fixpoint distinct (l : list str) : bool :=
  match l with
  | [] => true
  | x :: l' => negb (mem x l') && distinct l'
  end.

(** The [ReaProject] loop on a list [l] that holds the records [r2], named
    [enum_project_markers2], and [r3], named [enum_project_markers3].
    What holds of the heap all through the loop: *)
Definition markers_kept_apart (l : list ref) (r2 r3 : ref) (h : heap) : Prop :=
  reawrap_name (h r2) = Some ("enum_project_markers2" : str)
  /\ docs_mention "deprecated" (h r3) = false
  /\ docs_mention "discouraged" (h r3) = false
  /\ forall r, In r l -> r <> r3 ->
       reawrap_name (h r) <> Some ("enum_project_markers" : str)
       /\ reawrap_name (h r) <> Some ("enum_project_markers3" : str).

(** before [r3] is reached: *)
Definition markers_pending (r3 : ref) (h : heap) (seen : list (option str))
    (kept : list ref) : Prop :=
  reawrap_name (h r3) = Some ("enum_project_markers3" : str)
  /\ ~ In (Some ("enum_project_markers" : str)) seen
  /\ ~ In r3 kept.

(** once [r3] has been renamed and kept: *)
Definition markers_settled (r3 : ref) (h : heap) (seen : list (option str))
    (kept : list ref) : Prop :=
  reawrap_name (h r3) = Some ("enum_project_markers" : str)
  /\ In (Some ("enum_project_markers" : str)) seen
  /\ count_occ Nat.eq_dec kept r3 = 1.

(** The character before the text that follows [a], when [prev] is the
    character before [a] *)
Definition last_of (prev : option ascii) (a : str) : option ascii :=
  fold_left (fun _ c => Some c) a prev.

Definition all_of (p : ascii -> bool) (s : str) : Prop :=
  Forall (fun c => p c = true) s.

(** A fragment that begins with [name(arguments)]: a name, optional white
    space, and a parenthesis closed by the first closing parenthesis *)
Definition is_signature (s : str) : Prop :=
  exists w ws body rest,
    s = w ++ ws ++ "("%char :: body ++ ")"%char :: rest
    /\ w <> [] /\ all_of Chr.is_word w /\ all_of Chr.is_space ws
    /\ all_of (Chr.other_than ")") body.

(** A text that holds a name starting at a word boundary and followed,
    after optional white space, by an opening parenthesis *)
Definition has_name (s : str) : Prop :=
  exists pre w ws post,
    s = pre ++ w ++ ws ++ "("%char :: post
    /\ Re.wordish (last_of None pre) = false
    /\ w <> [] /\ all_of Chr.is_word w /\ all_of Chr.is_space ws.

(** Every list of the table holds only records whose key, as [f] computes
    it, is the key of the list. *)
Definition keyed (f : ref -> str) (d : Dict.t (list ref)) : Prop :=
  forall k l, In (k, l) d -> forall r, In r l -> f r = k.

(** [group_functions_by_name_space], [refine_functions] and
    [dedupe_functions] in a row, as [get_functions_from_docs] runs them on
    the parsed functions *)
Definition classify_refine_dedupe (LUA_KEYWORDS REAPER_TYPES : list str)
    (h : heap) (functions : list ref) : heap * Dict.t (list ref) :=
  let by_name_space := group_functions_by_name_space REAPER_TYPES h functions in
  let refined := refine_functions LUA_KEYWORDS h by_name_space in
  dedupe_functions (fst refined) (snd refined).

(** A text none of whose characters is [c] *)
Definition free_of (c : ascii) (s : str) : Prop := ~ In c s.

(** The tokens of a piece: [[p for p in value.split(" ") if p]] *)
Definition tokens (value : str) : list str := filter nonempty (split " " value).

(** A piece with at least one token, the first of which is not the word
    [optional] *)
Definition plain (value : str) : Prop :=
  exists t rest, tokens value = t :: rest /\ t <> ("optional" : str).

(** All the records of a table, namespace after namespace *)
Definition entries (d : Dict.t (list ref)) : list ref := concat (map snd d).

(** The strings of a list in the order of their first occurrence *)
Definition first_seen (l : list str) : list str :=
  fold_left (fun acc k => if mem k acc then acc else acc ++ [k]) l [].

(** The names that the curated table of [generate_reawrap_name] can put in
    place of a computed name *)
Definition curated_targets : list str :=
  concat (map (fun entry => map snd (snd entry)) functions_special_cases).

(** [l] can be obtained from [fs] by leaving records out. *)
Fixpoint subsequence (l fs : list ref) : bool :=
  match l, fs with
  | [], _ => true
  | _ :: _, [] => false
  | x :: l', y :: fs' =>
      if x =? y then subsequence l' fs' else subsequence l fs'
  end.

(** No string of the list is smaller than the one before it. *)
Fixpoint ascending (l : list str) : bool :=
  match l with
  | [] => true
  | a :: l' =>
      match l' with
      | [] => true
      | b :: _ => negb (str_ltb b a) && ascending l'
      end
  end.

(** The record [f] once [refine_functions] has named it under [name_space] *)
Definition named_under (LUA_KEYWORDS : list str) (name_space : str) (f : ReaFunc)
  : ReaFunc :=
  with_reawrap_name
    (Some (generate_reawrap_name LUA_KEYWORDS name_space (fn_name_space f)
             (reascript_name f))) f.

(** Two arguments that differ at most in their name and in their optional
    flag *)
Definition same_argument (a a' : ReaType) : Prop :=
  reascript_type a' = reascript_type a
  /\ description a' = description a
  /\ is_pointer a' = is_pointer a
  /\ _default_value a' = _default_value a.

(** Two records that differ at most in their target name and in the names
    and optional flags of their arguments *)
Definition renamed_only (f f' : ReaFunc) : Prop :=
  signature f' = signature f
  /\ reascript_name f' = reascript_name f
  /\ fn_name_space f' = fn_name_space f
  /\ return_values f' = return_values f
  /\ docs f' = docs f
  /\ constants f' = constants f
  /\ Forall2 same_argument (arguments f) (arguments f').

(** The target names that the curated chain of [dedupe_functions] replaces
    by another name, or drops, under [ReaProject] *)
Definition superseded_names : list str :=
  strs [ "count_selected_tracks2"; "add_project_marker2";
         "enum_project_markers2"; "enum_project_markers3";
         "get_play_position_ex"; "get_play_position2_ex";
         "get_project_time_signature2"; "get_selected_track2" ].

(** A record whose target name is none of [superseded_names] *)
Definition current (f : ReaFunc) : Prop :=
  forall n, reawrap_name f = Some n -> ~ In n superseded_names.

(** A record none of whose arguments is still named [wantmaster], if it is
    one of the two whose arguments the chain renames *)
Definition want_master_renamed (f : ReaFunc) : Prop :=
  reawrap_name f = Some ("count_selected_tracks" : str)
  \/ reawrap_name f = Some ("get_selected_track" : str) ->
  forall a, In a (arguments f) -> name a <> Some ("wantmaster" : str).

(** A record that has the five fields [parse_lua_function] returned *)
Definition same_parse (parsed_fields f : ReaFunc) : Prop :=
  signature f = signature parsed_fields
  /\ reascript_name f = reascript_name parsed_fields
  /\ fn_name_space f = fn_name_space parsed_fields
  /\ arguments f = arguments parsed_fields
  /\ return_values f = return_values parsed_fields.

(** A pattern without groups reads a prefix of the text and hands the rest
    to its continuation with the groups as they were. *)
Definition consumes (r : regex) : Prop :=
  forall prev s gs k out,
    Re.run r prev s gs k = Some out ->
    exists pre s' pv, s = pre ++ s' /\ k pv s' gs = Some out.

(** The text [s] with every occurrence of the character [c] left out *)
Definition without (c : ascii) (s : str) : str := filter (Chr.other_than c) s.

(** Text within ASCII: on such text the classes of [Chr] are those of
    [re] and of the [str] methods. *)
Definition ascii_text (s : str) : Prop := all_of (fun c => Chr.code c <? 128) s.

(** Following the words of the specification: a text that holds a name
    starting at a word boundary and immediately followed by an opening
    parenthesis.  The pattern of [get_function_name] is [has_name], which
    lets white space stand between the two. *)
Definition has_adjacent_name (s : str) : Prop :=
  exists pre w post,
    s = pre ++ w ++ "("%char :: post
    /\ Re.wordish (last_of None pre) = false
    /\ w <> [] /\ all_of Chr.is_word w.

(** Two optional lists of constants of the same length whose items differ
    at most in their name and in their optional flag *)
Definition same_constants (c c' : option (list ReaType)) : Prop :=
  match c, c' with
  | Some l, Some l' => Forall2 same_argument l l'
  | None, None => True
  | _, _ => False
  end.

(** Two records that differ at most in their target name and in the names
    and optional flags of the items of their three lists *)
Definition same_but_names (f f' : ReaFunc) : Prop :=
  signature f' = signature f
  /\ reascript_name f' = reascript_name f
  /\ fn_name_space f' = fn_name_space f
  /\ docs f' = docs f
  /\ Forall2 same_argument (arguments f) (arguments f')
  /\ Forall2 same_argument (return_values f) (return_values f')
  /\ same_constants (constants f) (constants f').

(** * Properties *)

(** ** Text and data structures *)

Lemma str_eqb_eq (a b : str) : str_eqb a b = true <-> a = b.
Proof.
  unfold str_eqb. destruct (list_eq_dec ascii_dec a b); split; congruence.
Qed.

Lemma str_eqb_neq (a b : str) : str_eqb a b = false <-> a <> b.
Proof.
  unfold str_eqb. destruct (list_eq_dec ascii_dec a b); split; congruence.
Qed.

Lemma str_eqb_refl (a : str) : str_eqb a a = true.
Proof. now apply str_eqb_eq. Qed.

Lemma mem_In (x : str) (l : list str) : mem x l = true <-> In x l.
Proof.
  unfold mem. rewrite existsb_exists. split.
  - intros (y & Hy & E). apply str_eqb_eq in E. now subst.
  - intros H. exists x. split; [assumption | apply str_eqb_refl].
Qed.

(** ** Worked examples *)

Example to_snake_GetCount : to_snake "GetCount" = "get_count".
Proof. reflexivity. Qed.

Example to_snake_GetFXName : to_snake "GetFXName" = "get_fx_name".
Proof. reflexivity. Qed.

Example to_snake_AFoo : to_snake "AFoo" = "a_foo".
Proof. reflexivity. Qed.

Example to_snake_digits : to_snake "Get2DPoint3X" = "get2_d_point3_x".
Proof. reflexivity. Qed.

Example replace_idx : replace "idx" "_idx" "trackidx" = "track_idx".
Proof. reflexivity. Qed.

Example replace_overlap : replace "aa" "b" "aaa" = "ba".
Proof. reflexivity. Qed.

Example split_commas : split "," "a, b,,c" = strs ["a"; " b"; ""; "c"].
Proof. reflexivity. Qed.

Example split_empty : split "," "" = strs [""].
Proof. reflexivity. Qed.

Example split_once :
  split_max "reaper." 1 "x = reaper.f(reaper.g)" = strs ["x = "; "f(reaper.g)"].
Proof. reflexivity. Qed.

Example strip_both : strip "  a b  " = "a b".
Proof. reflexivity. Qed.

Example sorted_is_stable :
  map fst (sorted_by (fun item : str * nat => lower (fst item))
             [("b" : str, 0); ("A" : str, 1); ("a" : str, 2); ("B" : str, 3)])
  = strs ["A"; "a"; "b"; "B"].
Proof. reflexivity. Qed.

Example parse_CountSelectedTracks2 :
  parse_lua_function []
    "integer reaper.CountSelectedTracks2(ReaProject proj, boolean wantmaster)"
  = Ok (mkReaFunc "CountSelectedTracks2(ReaProject proj, boolean wantmaster)"
          "CountSelectedTracks2" None
          [new_ReaType "ReaProject" (Some ("proj" : str)) false;
           new_ReaType "boolean" (Some ("wantmaster" : str)) false]
          [new_ReaType "integer" None false] None None None).
Proof. vm_compute. reflexivity. Qed.

Example parse_TrackFX_GetCount :
  parse_lua_function [] "integer reaper.TrackFX_GetCount(MediaTrack track)"
  = Ok (mkReaFunc "TrackFX_GetCount(MediaTrack track)" "TrackFX_GetCount"
          (Some ("TrackFX" : str))
          [new_ReaType "MediaTrack" (Some ("track" : str)) false]
          [new_ReaType "integer" None false] None None None).
Proof. vm_compute. reflexivity. Qed.

Example parse_no_signature :
  parse_lua_function [] "nothing here"
  = Raise (ValueError "Could not find function signature in " (strs ["nothing here"])).
Proof. vm_compute. reflexivity. Qed.

(** ** Snake-casing *)

Lemma lower_char_not_upper (c : ascii) : Chr.is_upper (Chr.lower c) = false.
Proof. destruct c as [[] [] [] [] [] [] [] []]; reflexivity. Qed.

Lemma lower_no_upper (s : str) : no_upper (lower s).
Proof.
  unfold no_upper, lower. induction s as [|c s IH]; simpl; constructor.
  - apply lower_char_not_upper.
  - exact IH.
Qed.

Lemma lower_fixes_no_upper (s : str) : no_upper s -> lower s = s.
Proof.
  unfold lower. induction 1 as [|c s Hc _ IH]; simpl.
  - reflexivity.
  - rewrite IH. unfold Chr.lower. now rewrite Hc.
Qed.

(** Both patterns of [to_snake] have to read a capital letter. *)
Lemma acronym_needs_upper (prev : option ascii) (s : str) :
  no_upper s -> Re.at_start acronym_then_word prev s = None.
Proof.
  intros H. unfold Re.at_start, acronym_then_word. simpl.
  destruct H as [|c s Hc _]; [reflexivity|]. now rewrite Hc.
Qed.

Lemma lower_then_upper_needs_upper (prev : option ascii) (s : str) :
  no_upper s -> Re.at_start lower_then_upper prev s = None.
Proof.
  intros H. unfold Re.at_start, lower_then_upper. simpl.
  destruct H as [|c s Hc Hs]; [reflexivity|].
  destruct (lower_or_digit c); [|reflexivity].
  destruct Hs as [|c' s' Hc' _]; [reflexivity|]. now rewrite Hc'.
Qed.

Lemma sub_without_match (r : regex) (repl : Re.found -> str) :
  (forall prev s, no_upper s -> Re.at_start r prev s = None) ->
  forall s prev, no_upper s -> Re.sub_from r repl prev 0 s = s.
Proof.
  intros Hr s. induction s as [|c s IH]; intros prev Hs; simpl.
  - now rewrite (Hr prev [] Hs).
  - rewrite (Hr prev (c :: s) Hs). f_equal. apply IH. now inversion Hs.
Qed.

Lemma to_snake_fixes_no_upper (s : str) : no_upper s -> to_snake s = s.
Proof.
  intros Hs. unfold to_snake, Re.sub.
  rewrite (sub_without_match _ _ acronym_needs_upper s None Hs).
  rewrite (sub_without_match _ _ lower_then_upper_needs_upper s None Hs).
  now apply lower_fixes_no_upper.
Qed.

Lemma to_snake_no_upper (s : str) : no_upper (to_snake s).
Proof. unfold to_snake. apply lower_no_upper. Qed.

(** C7. Snake-casing is idempotent: casing a string that [to_snake] has
    already cased returns it unchanged. *)
Theorem to_snake_idempotent (s : str) : to_snake (to_snake s) = to_snake s.
Proof. apply to_snake_fixes_no_upper, to_snake_no_upper. Qed.

(** ** The type and name tokenizer *)

(** C1. On the piece [optional boolean wantmaster] the tokenizer yields one
    descriptor, marked optional, but with the two fields exchanged: the
    type is the third token and the name comes from the second. *)
Theorem optional_piece_takes_type_from_third_token (LUA_KEYWORDS : list str) :
  iter_types_and_names LUA_KEYWORDS (strs ["optional boolean wantmaster"])
  = Gen [ new_ReaType "wantmaster"
            (Some (escape_keyword LUA_KEYWORDS "boolean")) true ] None.
Proof.
  unfold strs, map, iter_types_and_names.
  change (nonempty ("optional boolean wantmaster" : str)) with true.
  change (filter nonempty (split " " "optional boolean wantmaster"))
    with (strs ["optional"; "boolean"; "wantmaster"]).
  unfold sanitize_name.
  change (to_snake _) with ("boolean" : str).
  unfold strs; simpl. unfold escape_keyword.
  destruct (mem _ LUA_KEYWORDS); reflexivity.
Qed.

Lemma iter_stops_at_empty_piece (LUA_KEYWORDS : list str) (pre post : list str) :
  iter_types_and_names LUA_KEYWORDS (pre ++ [] :: post)
  = iter_types_and_names LUA_KEYWORDS pre.
Proof.
  induction pre as [|value pre IH]; [reflexivity|].
  simpl. now rewrite IH.
Qed.

Lemma search_arguments_of_empty_call (name : str) (prev : option ascii) :
  ~ In "("%char name ->
  Re.search_from arguments_pattern prev (name ++ ("()" : str))
  = Some (Re.Found name "()" [[]] []).
Proof.
  revert prev. induction name as [|c name IH]; intros prev Hname.
  - reflexivity.
  - simpl app. simpl Re.search_from.
    assert (Hc : Chr.exactly "(" c = false).
    { unfold Chr.exactly. apply Ascii.eqb_neq. intros ->. apply Hname. now left. }
    unfold Re.at_start at 1. simpl. rewrite Hc.
    fold (Re.search_from arguments_pattern (Some c) (name ++ ("()" : str))).
    rewrite IH; [reflexivity|]. intros H. apply Hname. now right.
Qed.

(** C10. An empty piece ends the iteration: what the tokenizer yields for a
    list with an empty piece in it is what it yields for the pieces before
    it.  A signature with empty parentheses has the empty string as its
    only piece and so parses to no arguments, without an error. *)
Theorem empty_piece_ends_iteration (LUA_KEYWORDS : list str)
    (pre post : list str) (name : str) (Hname : ~ In "("%char name) :
  iter_types_and_names LUA_KEYWORDS (pre ++ [] :: post)
  = iter_types_and_names LUA_KEYWORDS pre
  /\ iter_types_and_names LUA_KEYWORDS ([] :: post) = done
  /\ get_arguments (name ++ ("()" : str)) = Ok [[]]
  /\ (pieces <- get_arguments (name ++ ("()" : str)) ;;
      collect (iter_types_and_names LUA_KEYWORDS pieces)) = Ok [].
Proof.
  assert (Hargs : get_arguments (name ++ ("()" : str)) = Ok [[]]).
  { unfold get_arguments, Re.search.
    now rewrite search_arguments_of_empty_call. }
  repeat split.
  - apply iter_stops_at_empty_piece.
  - exact Hargs.
  - now rewrite Hargs.
Qed.

Lemma empty_piece_ends_iteration_witness :
  ~ In "("%char ("GetAppVersion" : str)
  /\ (iter_types_and_names lua_reserved_words
        (strs ["MediaTrack track"] ++ [] :: strs ["integer fx"])
      = iter_types_and_names lua_reserved_words (strs ["MediaTrack track"])
      /\ iter_types_and_names lua_reserved_words ([] :: strs ["integer fx"]) = done
      /\ get_arguments (("GetAppVersion" : str) ++ ("()" : str)) = Ok [[]]
      /\ (pieces <- get_arguments (("GetAppVersion" : str) ++ ("()" : str)) ;;
          collect (iter_types_and_names lua_reserved_words pieces)) = Ok []).
Proof.
  assert (H : ~ In "("%char ("GetAppVersion" : str)).
  { simpl. intros H. repeat (destruct H as [H|H]; [discriminate H|]). exact H. }
  split; [exact H|].
  exact (empty_piece_ends_iteration lua_reserved_words
           (strs ["MediaTrack track"]) (strs ["integer fx"])
           ("GetAppVersion" : str) H).
Defined.

(** ** The default value of a type descriptor *)

Lemma default_value_cached (t : ReaType) (v : str) :
  _default_value t = Some v -> default_value t = (v, t).
Proof. unfold default_value. now intros ->. Qed.

Lemma default_value_caches (t : ReaType) :
  _default_value (snd (default_value t)) = Some (fst (default_value t)).
Proof. unfold default_value. destruct (_default_value t) eqn:E; simpl; auto. Qed.

(** C5, as the code has it.  A descriptor whose default has not been set
    reads as the literal chosen by its source type name: [false] for
    [boolean], [0] for [number], the empty-string literal for [string] and
    [nil] for every other name.  The read stores the value: every later
    read returns it and leaves the object as it is, whatever the object's
    other fields have become, until the setter stores another value. *)
Theorem default_value_follows_source_type (t : ReaType)
    (Hunset : _default_value t = None) :
  (reascript_type t = "boolean" -> fst (default_value t) = "false")
  /\ (reascript_type t = "number" -> fst (default_value t) = "0")
  /\ (reascript_type t = "string" -> fst (default_value t) = [dquote; dquote])
  /\ (reascript_type t <> "boolean" -> reascript_type t <> "number" ->
      reascript_type t <> "string" -> fst (default_value t) = "nil")
  /\ default_value (snd (default_value t)) = default_value t
  /\ (forall t', _default_value t' = _default_value (snd (default_value t)) ->
        default_value t' = (fst (default_value t), t'))
  /\ (forall v t', fst (default_value (set_default_value v t')) = v).
Proof.
  unfold default_value at 1 2 3 4. rewrite Hunset. simpl.
  repeat split.
  - intros ->. reflexivity.
  - intros ->. reflexivity.
  - intros ->. reflexivity.
  - intros Hb Hn Hs.
    apply str_eqb_neq in Hb, Hn, Hs. now rewrite Hb, Hn, Hs.
  - apply injective_projections.
    + simpl. rewrite (default_value_cached _ _ (default_value_caches t)). reflexivity.
    + rewrite (default_value_cached _ _ (default_value_caches t)). reflexivity.
  - intros t' Ht'. apply default_value_cached.
    rewrite Ht'. apply default_value_caches.
Qed.

Lemma default_value_follows_source_type_witness :
  _default_value (new_ReaType "number" (Some ("pos" : str)) false) = None
  /\ fst (default_value (new_ReaType "number" (Some ("pos" : str)) false)) = "0"
  /\ fst (default_value (new_ReaType "integer" (Some ("idx" : str)) false)) = "nil".
Proof.
  split; [reflexivity|]. split.
  - exact (proj1 (proj2 (default_value_follows_source_type
             (new_ReaType "number" (Some ("pos" : str)) false) eq_refl)) eq_refl).
  - reflexivity.
Defined.

(** C5, as stated, fails: [integer] maps to the runtime type [number], yet
    its default literal is [nil], not [0]. *)
Lemma default_value_ignores_runtime_type :
  _default_value (new_ReaType "integer" None false) = None
  /\ lua_type handle_types (new_ReaType "integer" None false) = "number"
  /\ fst (default_value (new_ReaType "integer" None false)) = "nil"
  /\ fst (default_value (new_ReaType "integer" None false)) <> "0".
Proof. repeat split. discriminate. Qed.

(** ** Dictionaries *)

Lemma mem_not_In (x : str) (l : list str) : ~ In x l -> mem x l = false.
Proof.
  intros H. destruct (mem x l) eqn:E; [|reflexivity].
  apply mem_In in E. contradiction.
Qed.

Lemma get_set_eq {V : Type} (k : str) (v : V) (d : Dict.t V) :
  Dict.get k (Dict.set k v d) = Some v.
Proof.
  induction d as [|[k' v'] d IH]; simpl.
  - now rewrite str_eqb_refl.
  - destruct (str_eqb k k') eqn:E; simpl.
    + now rewrite str_eqb_refl.
    + now rewrite E.
Qed.

Lemma get_set_neq {V : Type} (k k' : str) (v : V) (d : Dict.t V) :
  k <> k' -> Dict.get k' (Dict.set k v d) = Dict.get k' d.
Proof.
  intros Hk. induction d as [|[k0 v0] d IH]; simpl.
  - apply not_eq_sym, str_eqb_neq in Hk. now rewrite Hk.
  - destruct (str_eqb k k0) eqn:E; simpl.
    + apply str_eqb_eq in E. subst k0.
      apply not_eq_sym, str_eqb_neq in Hk. now rewrite Hk.
    + now rewrite IH.
Qed.

Lemma In_set {V : Type} (k k0 : str) (v v0 : V) (d : Dict.t V) :
  In (k, v) (Dict.set k0 v0 d) -> (k, v) = (k0, v0) \/ In (k, v) d.
Proof.
  induction d as [|[k' v'] d IH]; simpl.
  - intros [H|[]]. now left.
  - destruct (str_eqb k0 k'); simpl.
    + intros [H|H]; [now left | now right; right].
    + intros [H|H]; [now right; left|]. destruct (IH H); [now left | now right; right].
Qed.

Lemma get_In {V : Type} (k : str) (v : V) (d : Dict.t V) :
  Dict.get k d = Some v -> In (k, v) d.
Proof.
  induction d as [|[k' v'] d IH]; simpl; [discriminate|].
  destruct (str_eqb k k') eqn:E.
  - apply str_eqb_eq in E. intros [= ->]. left. now subst.
  - intros H. right. now apply IH.
Qed.

(** ** The namespace classifier *)

Section Classifier.

Variable REAPER_TYPES : list str.
Variable h : heap.

Let group := group_functions_by_name_space REAPER_TYPES h.
Let under (ns : str) := in_name_space REAPER_TYPES h ns.

Lemma group_loop_get (fs : list ref) (d : Dict.t (list ref)) (ns : str) :
  Dict.get ns (group_loop REAPER_TYPES h fs d)
  = match filter (under ns) fs with
    | [] => Dict.get ns d
    | l => Some (Dict.get_or [] ns d ++ l)
    end.
Proof.
  revert d. induction fs as [|r fs IH]; intros d; [reflexivity|].
  simpl group_loop. rewrite IH. clear IH.
  set (key := name_space_of REAPER_TYPES (h r)).
  set (d1 := if negb (Dict.has key d) then Dict.set key [] d else d).
  assert (H1 : forall k, Dict.get_or [] k d1 = Dict.get_or [] k d).
  { intros k. unfold d1, Dict.has, Dict.get_or.
    destruct (Dict.get key d) eqn:E; simpl; [reflexivity|].
    destruct (list_eq_dec ascii_dec key k) as [->|Hk].
    - now rewrite get_set_eq, E.
    - now rewrite get_set_neq. }
  assert (H2 : forall k, k <> key -> Dict.get k d1 = Dict.get k d).
  { intros k Hk. unfold d1. destruct (negb (Dict.has key d)); [|reflexivity].
    apply get_set_neq. congruence. }
  unfold append_under. fold key. fold d1.
  set (d2 := Dict.set key (Dict.get_or [] key d1 ++ [r]) d1).
  assert (G1 : Dict.get key d2 = Some (Dict.get_or [] key d ++ [r])).
  { unfold d2. now rewrite get_set_eq, H1. }
  assert (G2 : forall k, k <> key -> Dict.get k d2 = Dict.get k d).
  { intros k Hk. unfold d2. rewrite get_set_neq by congruence. now apply H2. }
  assert (Hu : under ns r = str_eqb key ns) by reflexivity.
  change (filter (under ns) (r :: fs))
    with (if under ns r then r :: filter (under ns) fs else filter (under ns) fs).
  rewrite Hu. clear Hu.
  destruct (str_eqb key ns) eqn:E.
  - apply str_eqb_eq in E. subst ns.
    unfold Dict.get_or at 1. rewrite G1.
    destruct (filter (under key) fs); [reflexivity|].
    now rewrite <- app_assoc.
  - apply str_eqb_neq in E.
    unfold Dict.get_or. rewrite G2 by congruence. reflexivity.
Qed.

Lemma group_get (fs : list ref) (ns : str) :
  Dict.get ns (group fs)
  = match filter (under ns) fs with [] => None | l => Some l end.
Proof.
  unfold group, group_functions_by_name_space. rewrite group_loop_get.
  destruct (filter (under ns) fs); reflexivity.
Qed.

Lemma group_get_or (fs : list ref) (ns : str) :
  Dict.get_or [] ns (group fs) = filter (under ns) fs.
Proof.
  unfold Dict.get_or. rewrite group_get. now destruct (filter (under ns) fs).
Qed.

Lemma Permutation_filter_bool {A : Type} (f : A -> bool) (l l' : list A) :
  Permutation l l' -> Permutation (filter f l) (filter f l').
Proof.
  induction 1 as [|x l l' _ IH|x y l|l l' l'' _ IH1 _ IH2]; simpl.
  - constructor.
  - destruct (f x); auto.
  - destruct (f x), (f y); auto. constructor.
  - eauto using Permutation_trans.
Qed.

(** C6. The namespace of a record is a function of the record alone.  For a
    list and any rearrangement of it: each record is filed under the key
    [name_space_of] gives it and under no other; the two tables have the
    same keys and, under each key, the same records; and the list under a
    key is the input list restricted to that key, so it is in first-seen
    input order. *)
Theorem classification_is_order_independent (fs fs' : list ref)
    (Hperm : Permutation fs fs') :
  (forall r, In r fs ->
     In r (Dict.get_or [] (name_space_of REAPER_TYPES (h r)) (group fs))
     /\ In r (Dict.get_or [] (name_space_of REAPER_TYPES (h r)) (group fs')))
  /\ (forall r ns, In r (Dict.get_or [] ns (group fs)) ->
        ns = name_space_of REAPER_TYPES (h r))
  /\ (forall ns,
        Dict.has ns (group fs) = Dict.has ns (group fs')
        /\ Permutation (Dict.get_or [] ns (group fs)) (Dict.get_or [] ns (group fs'))
        /\ Dict.get_or [] ns (group fs) = filter (under ns) fs
        /\ Dict.get_or [] ns (group fs') = filter (under ns) fs').
Proof.
  assert (Hin : forall l r, In r l ->
            In r (Dict.get_or [] (name_space_of REAPER_TYPES (h r)) (group l))).
  { intros l r Hr. rewrite group_get_or. apply filter_In. split; [exact Hr|].
    apply str_eqb_refl. }
  split; [|split].
  - intros r Hr. split; [now apply Hin|].
    apply Hin. now apply (Permutation_in _ Hperm).
  - intros r ns. rewrite group_get_or. intros Hr.
    apply filter_In in Hr. destruct Hr as [_ Hr].
    apply str_eqb_eq in Hr. now symmetry.
  - intros ns. rewrite !group_get_or.
    pose proof (Permutation_filter_bool (under ns) _ _ Hperm) as Hf.
    repeat split; [|exact Hf].
    unfold Dict.has. rewrite !group_get.
    destruct (filter (under ns) fs) eqn:E1, (filter (under ns) fs') eqn:E2;
      try reflexivity.
    + apply Permutation_nil in Hf. discriminate.
    + apply Permutation_sym, Permutation_nil in Hf. discriminate.
Qed.

End Classifier.

Lemma classification_is_order_independent_witness :
  Permutation [0; 1; 2] [2; 0; 1]
  /\ Dict.get_or [] "MediaTrack"
       (group_functions_by_name_space handle_types
          (two_records (parsed "TrackFX_GetCount" (Some ("TrackFX" : str)) "MediaTrack")
                       (parsed "GetTrackName" None "MediaTrack"))
          [0; 1; 2]) = [0; 1; 2]
  /\ Dict.get_or [] "MediaTrack"
       (group_functions_by_name_space handle_types
          (two_records (parsed "TrackFX_GetCount" (Some ("TrackFX" : str)) "MediaTrack")
                       (parsed "GetTrackName" None "MediaTrack"))
          [2; 0; 1]) = [2; 0; 1].
Proof.
  assert (H : Permutation [0; 1; 2] [2; 0; 1]).
  { exact (perm_trans (perm_skip 0 (perm_swap 2 1 [])) (perm_swap 2 0 [1])). }
  split; [exact H|].
  destruct (classification_is_order_independent handle_types
              (two_records (parsed "TrackFX_GetCount" (Some ("TrackFX" : str)) "MediaTrack")
                           (parsed "GetTrackName" None "MediaTrack"))
              [0; 1; 2] [2; 0; 1] H) as (_ & _ & Hns).
  destruct (Hns ("MediaTrack" : str)) as (_ & _ & H1 & H2).
  split; [exact H1 | exact H2].
Defined.

(** ** [TrackFX_GetCount] *)

Lemma name_space_of_TrackFX_GetCount (REAPER_TYPES : list str) (f : ReaFunc)
    (a : ReaType) (rest : list ReaType) :
  In ("MediaTrack" : str) REAPER_TYPES ->
  reascript_name f = "TrackFX_GetCount" ->
  fn_name_space f = Some ("TrackFX" : str) ->
  arguments f = a :: rest ->
  reascript_type a = "MediaTrack" ->
  name_space_of REAPER_TYPES f = "MediaTrack".
Proof.
  intros HRT Hname Hns Hargs Ha.
  unfold name_space_of, first_argument_in.
  rewrite Hname, Hns, Hargs, Ha.
  apply mem_In in HRT. rewrite HRT. reflexivity.
Qed.

Lemma get_count_in_MediaTrack (LUA_KEYWORDS : list str) :
  ~ In ("get_count" : str) LUA_KEYWORDS ->
  generate_reawrap_name LUA_KEYWORDS "MediaTrack" (Some ("TrackFX" : str))
    "TrackFX_GetCount" = "get_fx_count".
Proof.
  intros HLK. unfold generate_reawrap_name. cbv zeta.
  set (snake := to_snake _). vm_compute in snake. subst snake.
  unfold escape_keyword.
  destruct (mem _ LUA_KEYWORDS) eqn:E; [|reflexivity].
  apply mem_In in E. exfalso. exact (HLK E).
Qed.

(** C3. With [MediaTrack] among the handle types, the function
    [TrackFX_GetCount] (namespace token [TrackFX], first argument of type
    [MediaTrack]) is named in the exception list of the first rule, is
    filed by the classifier under [MediaTrack], and gets the target name
    [get_fx_count] there.  [get_count] is taken not to be a keyword of the
    destination language. *)
Theorem TrackFX_GetCount_is_filed_under_MediaTrack
    (LUA_KEYWORDS REAPER_TYPES : list str) (h : heap) (functions : list ref)
    (r : ref) (a : ReaType) (rest : list ReaType)
    (Htypes : In ("MediaTrack" : str) REAPER_TYPES)
    (Hkeywords : ~ In ("get_count" : str) LUA_KEYWORDS)
    (Hr : In r functions)
    (Hname : reascript_name (h r) = "TrackFX_GetCount")
    (Htoken : fn_name_space (h r) = Some ("TrackFX" : str))
    (Hargs : arguments (h r) = a :: rest)
    (Ha : reascript_type a = "MediaTrack") :
  mem (reascript_name (h r)) track_fx_exceptions = true
  /\ name_space_of REAPER_TYPES (h r) = "MediaTrack"
  /\ In r (Dict.get_or [] "MediaTrack"
             (group_functions_by_name_space REAPER_TYPES h functions))
  /\ (forall ns, In r (Dict.get_or [] ns
                         (group_functions_by_name_space REAPER_TYPES h functions)) ->
        ns = "MediaTrack")
  /\ generate_reawrap_name LUA_KEYWORDS "MediaTrack" (fn_name_space (h r))
       (reascript_name (h r)) = "get_fx_count".
Proof.
  pose proof (name_space_of_TrackFX_GetCount REAPER_TYPES (h r) a rest
                Htypes Hname Htoken Hargs Ha) as Hns.
  repeat split.
  - now rewrite Hname.
  - exact Hns.
  - rewrite group_get_or. apply filter_In. split; [exact Hr|].
    unfold in_name_space. rewrite Hns. apply str_eqb_refl.
  - intros ns. rewrite group_get_or. intros Hin.
    apply filter_In in Hin. destruct Hin as [_ Hin].
    unfold in_name_space in Hin. apply str_eqb_eq in Hin. congruence.
  - rewrite Htoken, Hname. now apply get_count_in_MediaTrack.
Qed.

Lemma not_a_lua_keyword (x : str) :
  mem x lua_reserved_words = false -> ~ In x lua_reserved_words.
Proof. intros H Hin. apply mem_In in Hin. congruence. Qed.

Lemma TrackFX_GetCount_is_filed_under_MediaTrack_witness :
  In ("MediaTrack" : str) handle_types
  /\ ~ In ("get_count" : str) lua_reserved_words
  /\ name_space_of handle_types
       (parsed "TrackFX_GetCount" (Some ("TrackFX" : str)) "MediaTrack") = "MediaTrack"
  /\ generate_reawrap_name lua_reserved_words "MediaTrack" (Some ("TrackFX" : str))
       "TrackFX_GetCount" = "get_fx_count".
Proof.
  assert (H1 : In ("MediaTrack" : str) handle_types).
  { apply mem_In. reflexivity. }
  assert (H2 : ~ In ("get_count" : str) lua_reserved_words).
  { apply not_a_lua_keyword. reflexivity. }
  split; [exact H1|]. split; [exact H2|].
  destruct (TrackFX_GetCount_is_filed_under_MediaTrack
              lua_reserved_words handle_types
              (two_records (parsed "TrackFX_GetCount" (Some ("TrackFX" : str)) "MediaTrack")
                           (parsed "GetTrackName" None "MediaTrack"))
              [1; 0] 0 (new_ReaType "MediaTrack" None false) []
              H1 H2 (or_intror (or_introl eq_refl)) eq_refl eq_refl eq_refl eq_refl)
    as (_ & Hns & _ & _ & Hname).
  split; [exact Hns | exact Hname].
Defined.

(** ** Substrings *)

Lemma startswith_spec (p s : str) :
  startswith p s = true <-> exists post, s = p ++ post.
Proof.
  revert s. induction p as [|a p IH]; intros s; simpl.
  - split; [intros _; now exists s | reflexivity].
  - destruct s as [|b s].
    + split; [discriminate | intros (post & H); discriminate].
    + rewrite andb_true_iff, IH. split.
      * intros (E & post & ->). apply Ascii.eqb_eq in E. subst. now exists post.
      * intros (post & [= -> ->]). split; [apply Ascii.eqb_refl | now exists post].
Qed.

Lemma contains_spec (p s : str) :
  contains p s = true <-> exists pre post, s = pre ++ p ++ post.
Proof.
  induction s as [|c s IH]; simpl.
  - rewrite orb_false_r, startswith_spec. split.
    + intros (post & H). now exists [], post.
    + intros (pre & post & H). destruct pre; [now exists post|discriminate].
  - rewrite orb_true_iff, startswith_spec, IH. split.
    + intros [(post & H)|(pre & post & ->)].
      * now exists [], post.
      * now exists (c :: pre), post.
    + intros (pre & post & H). destruct pre as [|c' pre].
      * left. now exists post.
      * right. injection H as -> ->. now exists pre, post.
Qed.

Lemma lower_app (a b : str) : lower (a ++ b) = lower a ++ lower b.
Proof. apply map_app. Qed.

Lemma docs_mention_of_mentions (word d : str) (f : ReaFunc) :
  word <> [] -> docs f = Some d -> mentions word d ->
  docs_mention word f = true.
Proof.
  intros Hword Hdocs (pre & w & post & -> & Hw).
  unfold docs_mention. rewrite Hdocs. apply andb_true_iff. split.
  - destruct w as [|c w]; [simpl in Hw; congruence|].
    now destruct pre.
  - apply contains_spec. exists (lower pre), (lower post).
    now rewrite !lower_app, Hw.
Qed.

(** ** The object store *)

Lemma store_same (h : heap) (r : ref) (f : ReaFunc) : store h r f r = f.
Proof. unfold store. now rewrite Nat.eqb_refl. Qed.

Lemma store_other (h : heap) (r r' : ref) (f : ReaFunc) :
  r' <> r -> store h r f r' = h r'.
Proof. intros H. unfold store. apply Nat.eqb_neq in H. now rewrite H. Qed.

(** ** The curated chain *)

Lemma named_elsewhere (n ns : str) (f : ReaFunc) :
  str_eqb ns "ReaProject" = false -> named n ns f = false.
Proof. intros H. unfold named. rewrite H. apply andb_false_r. Qed.

Lemma curated_elsewhere (ns : str) (f : ReaFunc) :
  str_eqb ns "ReaProject" = false -> curated ns f = Some f.
Proof. intros H. unfold curated. now rewrite !named_elsewhere. Qed.

Lemma curated_docs (ns : str) (f f' : ReaFunc) :
  curated ns f = Some f' -> docs f' = docs f.
Proof.
  unfold curated.
  repeat match goal with
         | |- context [named ?n ns f] => destruct (named n ns f)
         end;
    intros [= <-] || discriminate; reflexivity.
Qed.

Lemma curated_settles (ns : str) (f f' : ReaFunc) :
  curated ns f = Some f' -> settled ns f'.
Proof.
  destruct (str_eqb ns "ReaProject") eqn:Ens.
  - apply str_eqb_eq in Ens. subst ns.
    unfold curated at 1.
    repeat match goal with
           | |- context [named ?n ?k f] => destruct (named n k f) eqn:?
           end;
      intros [= <-] || discriminate;
      intros g Hg;
      try (vm_compute in Hg; (discriminate Hg || (injection Hg as <-; reflexivity))).
    unfold curated in Hg.
    repeat match goal with
           | H : named ?n ?k f = false |- _ => rewrite H in Hg; clear H
           end.
    now injection Hg as <-.
  - intros H. rewrite curated_elsewhere in H by exact Ens. injection H as <-.
    intros g Hg. rewrite curated_elsewhere in Hg by exact Ens. now injection Hg as <-.
Qed.

(** ** The inner loop of [dedupe_functions] *)

Lemma opt_str_eqb_eq (a b : option str) : opt_str_eqb a b = true <-> a = b.
Proof.
  destruct a as [a|], b as [b|]; simpl; try (split; congruence).
  rewrite str_eqb_eq. split; congruence.
Qed.

Lemma seen_has_In (n : option str) (seen : list (option str)) :
  seen_has n seen = true <-> In n seen.
Proof.
  unfold seen_has. rewrite existsb_exists. split.
  - intros (x & Hx & E). apply opt_str_eqb_eq in E. now subst.
  - intros H. exists n. split; [exact H | now apply opt_str_eqb_eq].
Qed.

Lemma docs_mention_docs (word : str) (f g : ReaFunc) :
  docs f = docs g -> docs_mention word f = docs_mention word g.
Proof. unfold docs_mention. now intros ->. Qed.

Lemma store_docs (h : heap) (func : ref) (f : ReaFunc) (r : ref) :
  docs f = docs (h func) -> docs (store h func f r) = docs (h r).
Proof.
  intros H. destruct (Nat.eq_dec r func) as [->|Hr].
  - now rewrite store_same.
  - now rewrite store_other.
Qed.

Section DedupeLoop.

Variable name_space : str.

Let loop := dedupe_loop name_space.

Lemma dedupe_loop_cons (func : ref) (more : list ref) (h : heap)
    (seen : list (option str)) (kept : list ref) :
  loop (func :: more) h seen kept
  = if docs_mention "deprecated" (h func) then loop more h seen kept
    else if docs_mention "discouraged" (h func) then loop more h seen kept
    else match curated name_space (h func) with
         | None => loop more h seen kept
         | Some f =>
             if negb (seen_has (reawrap_name f) seen)
             then loop more (store h func f) (seen ++ [reawrap_name f])
                    (kept ++ [func])
             else loop more (store h func f) seen kept
         end.
Proof. reflexivity. Qed.

(** The loop only writes to the records it visits. *)
Lemma dedupe_loop_frame (fs : list ref) (h : heap) (seen : list (option str))
    (kept : list ref) (r : ref) :
  ~ In r fs -> fst (loop fs h seen kept) r = h r.
Proof.
  revert h seen kept. induction fs as [|func fs IH]; intros h seen kept Hr.
  - reflexivity.
  - assert (Hfs : ~ In r fs) by (intros H; apply Hr; now right).
    assert (Hfunc : r <> func) by (intros ->; apply Hr; now left).
    rewrite dedupe_loop_cons.
    destruct (docs_mention "deprecated" (h func)); [now apply IH|].
    destruct (docs_mention "discouraged" (h func)); [now apply IH|].
    destruct (curated name_space (h func)) as [f|]; [|now apply IH].
    destruct (negb (seen_has (reawrap_name f) seen));
      rewrite IH by exact Hfs; now apply store_other.
Qed.

(** The loop never changes the documentation of a record. *)
Lemma dedupe_loop_docs (fs : list ref) (h : heap) (seen : list (option str))
    (kept : list ref) (r : ref) :
  docs (fst (loop fs h seen kept) r) = docs (h r).
Proof.
  revert h seen kept. induction fs as [|func fs IH]; intros h seen kept.
  - reflexivity.
  - rewrite dedupe_loop_cons.
    destruct (docs_mention "deprecated" (h func)); [now apply IH|].
    destruct (docs_mention "discouraged" (h func)); [now apply IH|].
    destruct (curated name_space (h func)) as [f|] eqn:Ef; [|now apply IH].
    apply curated_docs in Ef.
    destruct (negb (seen_has (reawrap_name f) seen));
      rewrite IH; now apply store_docs.
Qed.

(** What the loop keeps was kept before or is a visited record whose
    documentation mentions neither word. *)
Lemma dedupe_loop_kept (fs : list ref) (h : heap) (seen : list (option str))
    (kept : list ref) (r : ref) :
  In r (snd (loop fs h seen kept)) ->
  In r kept
  \/ (In r fs /\ docs_mention "deprecated" (h r) = false
      /\ docs_mention "discouraged" (h r) = false).
Proof.
  revert h seen kept. induction fs as [|func fs IH]; intros h seen kept.
  - now left.
  - rewrite dedupe_loop_cons.
    assert (Hmore : forall h',
              (forall x, docs (h' x) = docs (h x)) ->
              In r fs /\ docs_mention "deprecated" (h' r) = false
              /\ docs_mention "discouraged" (h' r) = false ->
              In r (func :: fs) /\ docs_mention "deprecated" (h r) = false
              /\ docs_mention "discouraged" (h r) = false).
    { intros h' Hdocs (H1 & H2 & H3).
      rewrite (docs_mention_docs _ _ _ (Hdocs r)) in H2.
      rewrite (docs_mention_docs _ _ _ (Hdocs r)) in H3.
      repeat split; [now right | exact H2 | exact H3]. }
    destruct (docs_mention "deprecated" (h func)) eqn:E1.
    { intros H. destruct (IH _ _ _ H) as [H'|H']; [now left|]. right. now apply (Hmore h). }
    destruct (docs_mention "discouraged" (h func)) eqn:E2.
    { intros H. destruct (IH _ _ _ H) as [H'|H']; [now left|]. right. now apply (Hmore h). }
    destruct (curated name_space (h func)) as [f|] eqn:Ef.
    2: { intros H. destruct (IH _ _ _ H) as [H'|H']; [now left|]. right. now apply (Hmore h). }
    assert (Hdocs : forall x, docs (store h func f x) = docs (h x)).
    { intros x. apply store_docs. now apply curated_docs in Ef. }
    destruct (negb (seen_has (reawrap_name f) seen)); intros H;
      destruct (IH _ _ _ H) as [H'|H'];
      try (right; now apply (Hmore _ Hdocs)); try now left.
    apply in_app_or in H'. destruct H' as [H'|[<-|[]]]; [now left|].
    right. repeat split; [now left | exact E1 | exact E2].
Qed.

Lemma dedupe_loop_subset (fs : list ref) (h : heap) (seen : list (option str))
    (kept : list ref) (r : ref) :
  In r (snd (loop fs h seen kept)) -> In r kept \/ In r fs.
Proof.
  intros H. destruct (dedupe_loop_kept _ _ _ _ _ H) as [H'|(H' & _)]; auto.
Qed.

(** The names of the kept records stay pairwise distinct. *)
Lemma dedupe_loop_unique (fs : list ref) (h : heap) (seen : list (option str))
    (kept : list ref) :
  target_names h kept = seen -> NoDup seen ->
  (forall r, In r kept -> settled name_space (h r)) ->
  NoDup (target_names (fst (loop fs h seen kept)) (snd (loop fs h seen kept))).
Proof.
  revert h seen kept. induction fs as [|func fs IH]; intros h seen kept Hnames Hnodup Hkept.
  - simpl. now rewrite Hnames.
  - rewrite dedupe_loop_cons.
    destruct (docs_mention "deprecated" (h func)); [now apply IH|].
    destruct (docs_mention "discouraged" (h func)); [now apply IH|].
    destruct (curated name_space (h func)) as [f|] eqn:Ef; [|now apply IH].
    pose proof (curated_settles _ _ _ Ef) as Hf.
    assert (Hnames' : target_names (store h func f) kept = seen).
    { rewrite <- Hnames. unfold target_names. apply map_ext_in.
      intros r Hr. destruct (Nat.eq_dec r func) as [->|Hne].
      - rewrite store_same. now apply (Hkept func Hr).
      - now rewrite store_other. }
    assert (Hkept' : forall r, In r kept -> settled name_space (store h func f r)).
    { intros r Hr. destruct (Nat.eq_dec r func) as [->|Hne].
      - now rewrite store_same.
      - rewrite store_other by exact Hne. now apply Hkept. }
    destruct (seen_has (reawrap_name f) seen) eqn:Eseen; simpl.
    + now apply IH.
    + apply IH.
      * unfold target_names in *. rewrite map_app, Hnames'. simpl.
        now rewrite store_same.
      * apply NoDup_app.
        -- exact Hnodup.
        -- repeat constructor. intros [].
        -- intros x Hx [<-|[]]. apply seen_has_In in Hx. congruence.
      * intros r Hr. apply in_app_or in Hr. destruct Hr as [Hr|[<-|[]]].
        -- now apply Hkept'.
        -- now rewrite store_same.
Qed.

End DedupeLoop.

(** ** Tables without shared records *)

Lemma disjoint_spec (l l' : list ref) :
  disjoint l l' = true <-> forall r, In r l -> ~ In r l'.
Proof.
  unfold disjoint. rewrite forallb_forall. split.
  - intros H r Hr Hr'. specialize (H r Hr). apply negb_true_iff in H.
    assert (existsb (Nat.eqb r) l' = true); [|congruence].
    apply existsb_exists. exists r. split; [exact Hr' | apply Nat.eqb_refl].
  - intros H r Hr. apply negb_true_iff.
    destruct (existsb (Nat.eqb r) l') eqn:E; [|reflexivity].
    apply existsb_exists in E. destruct E as (x & Hx & E).
    apply Nat.eqb_eq in E. subst x. now destruct (H r Hr).
Qed.

Lemma unshared_cons (ns : str) (l : list ref) (more : list (str * list ref)) :
  unshared ((ns, l) :: more) = true
  <-> (forall r, In r l -> forall k l', In (k, l') more -> ~ In r l')
      /\ unshared more = true.
Proof.
  simpl. rewrite andb_true_iff, forallb_forall. split.
  - intros (H & Hmore). split; [|exact Hmore].
    intros r Hr k l' Hl'. apply (proj1 (disjoint_spec l l') (H (k, l') Hl')). exact Hr.
  - intros (H & Hmore). split; [|exact Hmore].
    intros [k l'] Hl'. apply disjoint_spec. intros r Hr. now apply (H r Hr k l').
Qed.

(** ** The outer loop of [dedupe_functions] *)

Lemma dedupe_namespaces_cons (ns : str) (fs : list ref)
    (more : list (str * list ref)) (h : heap) (deduped : Dict.t (list ref)) :
  dedupe_namespaces ((ns, fs) :: more) h deduped
  = dedupe_namespaces more (fst (dedupe_loop ns fs h [] []))
      (Dict.set ns (snd (dedupe_loop ns fs h [] [])) deduped).
Proof. simpl. now destruct (dedupe_loop ns fs h [] []). Qed.

Lemma dedupe_namespaces_drops (items : list (str * list ref)) (h : heap)
    (deduped : Dict.t (list ref)) (r : ref) :
  docs_mention "deprecated" (h r) = true \/ docs_mention "discouraged" (h r) = true ->
  (forall k l, In (k, l) deduped -> ~ In r l) ->
  forall k l, In (k, l) (snd (dedupe_namespaces items h deduped)) -> ~ In r l.
Proof.
  revert h deduped. induction items as [|[ns fs] more IH]; intros h deduped Hr Hd.
  - exact Hd.
  - rewrite dedupe_namespaces_cons. apply IH.
    + rewrite !(docs_mention_docs _ _ _ (dedupe_loop_docs ns fs h [] [] r)).
      exact Hr.
    + intros k l Hin. apply In_set in Hin. destruct Hin as [[= -> ->]|Hin].
      * intros Hkept. apply dedupe_loop_kept in Hkept.
        destruct Hkept as [[]|(_ & H1 & H2)].
        destruct Hr; congruence.
      * now apply (Hd k l).
Qed.

Lemma dedupe_namespaces_unique (items : list (str * list ref)) (h : heap)
    (deduped : Dict.t (list ref)) :
  unshared items = true ->
  (forall k l, In (k, l) deduped ->
     NoDup (target_names h l)
     /\ forall r, In r l -> forall k' l', In (k', l') items -> ~ In r l') ->
  forall k l, In (k, l) (snd (dedupe_namespaces items h deduped)) ->
    NoDup (target_names (fst (dedupe_namespaces items h deduped)) l).
Proof.
  revert h deduped. induction items as [|[ns fs] more IH]; intros h deduped Hu Hd.
  - intros k l Hin. now apply (Hd k l).
  - rewrite dedupe_namespaces_cons.
    apply unshared_cons in Hu. destruct Hu as (Hfs & Hmore).
    apply IH; [exact Hmore|].
    intros k l Hin. apply In_set in Hin. destruct Hin as [[= -> ->]|Hin].
    + split.
      * apply dedupe_loop_unique; [reflexivity | constructor | intros r []].
      * intros r Hr k' l' Hl'.
        apply dedupe_loop_subset in Hr. destruct Hr as [[]|Hr].
        now apply (Hfs r Hr k' l').
    + destruct (Hd k l Hin) as (Hnodup & Hfree). split.
      * replace (target_names (fst (dedupe_loop ns fs h [] [])) l)
          with (target_names h l); [exact Hnodup|].
        apply map_ext_in. intros r Hr. rewrite dedupe_loop_frame; [reflexivity|].
        apply (Hfree r Hr ns fs). now left.
      * intros r Hr k' l' Hl'. apply (Hfree r Hr k' l'). now right.
Qed.

(** C4. A function whose documentation holds the word [deprecated] or the
    word [discouraged], in any letter case, is in no list of the table that
    [dedupe_functions] returns. *)
Theorem flagged_functions_are_dropped (h : heap) (refined : Dict.t (list ref))
    (r : ref) (d : str)
    (Hdocs : docs (h r) = Some d)
    (Hflag : mentions "deprecated" d \/ mentions "discouraged" d) :
  forall ns l, In (ns, l) (snd (dedupe_functions h refined)) -> ~ In r l.
Proof.
  unfold dedupe_functions. apply dedupe_namespaces_drops.
  - destruct Hflag as [H|H]; [left|right];
      (apply (docs_mention_of_mentions _ d); [discriminate | exact Hdocs | exact H]).
  - intros k l [].
Qed.

(** ** Sorting keeps the entries *)

Lemma insert_by_perm {A : Type} (key : A -> str) (x : A) (l : list A) :
  Permutation (insert_by key x l) (x :: l).
Proof.
  induction l as [|y l IH]; simpl.
  - apply Permutation_refl.
  - destruct (str_ltb (key x) (key y)).
    + apply Permutation_refl.
    + apply perm_trans with (y :: x :: l); [now apply perm_skip | apply perm_swap].
Qed.

Lemma sorted_by_perm {A : Type} (key : A -> str) (l : list A) :
  Permutation (sorted_by key l) l.
Proof.
  unfold sorted_by.
  assert (H : forall acc, Permutation
            (fold_left (fun acc x => insert_by key x acc) l acc) (acc ++ l)).
  { induction l as [|x l IH]; intros acc; simpl.
    - rewrite app_nil_r. apply Permutation_refl.
    - apply perm_trans with (insert_by key x acc ++ l); [apply IH|].
      apply perm_trans with ((x :: acc) ++ l).
      + apply Permutation_app_tail, insert_by_perm.
      + simpl. apply Permutation_middle. }
  apply (H []).
Qed.

Lemma unshared_perm (items items' : list (str * list ref)) :
  Permutation items items' -> unshared items = true -> unshared items' = true.
Proof.
  induction 1 as [|[ns l] l1 l2 Hp IH|[nx lx] [ny ly] l0|l1 l2 l3 _ IH1 _ IH2].
  - auto.
  - rewrite !unshared_cons. intros (H1 & H2). split; [|now apply IH].
    intros r Hr k l' Hl'. apply (H1 r Hr k l').
    apply (Permutation_in _ (Permutation_sym Hp) Hl').
  - rewrite !unshared_cons. intros (Hy & Hx & H0). repeat split.
    + intros r Hr k l' [[= <- <-]|Hl'].
      * intros Hr'. apply (Hy r Hr' nx lx); [now left | exact Hr].
      * now apply (Hx r Hr k l').
    + intros r Hr k l' Hl'. apply (Hy r Hr k l'). now right.
    + exact H0.
  - auto.
Qed.

(** ** The loops of [refine_functions] *)

Lemma NoDup_map_Some {A : Type} (l : list A) : NoDup l -> NoDup (map Some l).
Proof.
  induction 1 as [|x l Hx _ IH]; simpl; constructor; [|exact IH].
  intros H. apply in_map_iff in H. destruct H as (y & [= ->] & Hy). contradiction.
Qed.

Lemma get_not_key {V : Type} (k : str) (d : Dict.t V) :
  ~ In k (Dict.keys d) -> Dict.get k d = None.
Proof.
  induction d as [|[k' v] d IH]; simpl; [reflexivity|].
  intros H. destruct (str_eqb k k') eqn:E.
  - apply str_eqb_eq in E. subst. destruct H. now left.
  - apply IH. intros H'. apply H. now right.
Qed.

Section RefineLoop.

Variable LUA_KEYWORDS : list str.
Variable name_space : str.

Let loop := refine_loop LUA_KEYWORDS name_space.
Let new_name (f : ReaFunc) : str :=
  generate_reawrap_name LUA_KEYWORDS name_space (fn_name_space f) (reascript_name f).

Lemma refine_loop_cons (func : ref) (more : list ref) (h : heap)
    (seen : list str) (kept : list ref) :
  loop (func :: more) h seen kept
  = let h' := store h func (with_reawrap_name (Some (new_name (h func))) (h func)) in
    if negb (mem (new_name (h func)) seen)
    then loop more h' (seen ++ [new_name (h func)]) (kept ++ [func])
    else loop more h' seen kept.
Proof. reflexivity. Qed.

Lemma refine_loop_frame (fs : list ref) (h : heap) (seen : list str)
    (kept : list ref) (r : ref) :
  ~ In r fs -> fst (fst (loop fs h seen kept)) r = h r.
Proof.
  revert h seen kept. induction fs as [|func fs IH]; intros h seen kept Hr.
  - reflexivity.
  - assert (Hfs : ~ In r fs) by (intros H; apply Hr; now right).
    assert (Hfunc : r <> func) by (intros ->; apply Hr; now left).
    rewrite refine_loop_cons. cbv zeta.
    destruct (negb (mem (new_name (h func)) seen));
      rewrite IH by exact Hfs; now apply store_other.
Qed.

Lemma refine_loop_subset (fs : list ref) (h : heap) (seen : list str)
    (kept : list ref) (r : ref) :
  In r (snd (loop fs h seen kept)) -> In r kept \/ In r fs.
Proof.
  revert h seen kept. induction fs as [|func fs IH]; intros h seen kept.
  - now left.
  - rewrite refine_loop_cons. cbv zeta.
    destruct (negb (mem (new_name (h func)) seen)); intros H;
      destruct (IH _ _ _ H) as [H'|H']; try (right; now right); try now left.
    apply in_app_or in H'. destruct H' as [H'|[<-|[]]]; [now left|]. right. now left.
Qed.

Lemma refine_loop_unique (fs : list ref) (h : heap) (seen : list str)
    (kept : list ref) :
  target_names h kept = map Some seen -> NoDup seen ->
  (forall r, In r kept -> reawrap_name (h r) = Some (new_name (h r))) ->
  NoDup (target_names (fst (fst (loop fs h seen kept))) (snd (loop fs h seen kept))).
Proof.
  revert h seen kept. induction fs as [|func fs IH]; intros h seen kept Hnames Hnodup Hkept.
  - simpl. rewrite Hnames. now apply NoDup_map_Some.
  - rewrite refine_loop_cons. cbv zeta.
    set (n := new_name (h func)).
    set (h' := store h func (with_reawrap_name (Some n) (h func))).
    assert (Hnames' : target_names h' kept = map Some seen).
    { rewrite <- Hnames. unfold target_names. apply map_ext_in.
      intros r Hr. unfold h'. destruct (Nat.eq_dec r func) as [->|Hne].
      - rewrite store_same. simpl. symmetry. now apply Hkept.
      - now rewrite store_other. }
    assert (Hfunc : reawrap_name (h' func) = Some (new_name (h' func))).
    { unfold h'. rewrite store_same. reflexivity. }
    assert (Hkept' : forall r, In r kept -> reawrap_name (h' r) = Some (new_name (h' r))).
    { intros r Hr. destruct (Nat.eq_dec r func) as [->|Hne]; [exact Hfunc|].
      unfold h'. rewrite store_other by exact Hne. now apply Hkept. }
    destruct (mem n seen) eqn:Eseen; simpl.
    + now apply IH.
    + apply IH.
      * unfold target_names in *. rewrite !map_app, Hnames'. simpl.
        unfold h'. now rewrite store_same.
      * apply NoDup_app.
        -- exact Hnodup.
        -- repeat constructor. intros [].
        -- intros x Hx [<-|[]]. apply mem_In in Hx. congruence.
      * intros r Hr. apply in_app_or in Hr. destruct Hr as [Hr|[<-|[]]].
        -- now apply Hkept'.
        -- exact Hfunc.
Qed.

End RefineLoop.

Lemma refine_namespaces_cons (LUA_KEYWORDS : list str) (ns : str) (fs : list ref)
    (more : list (str * list ref)) (h : heap)
    (refined : Dict.t (list ref)) (seen_funcs : Dict.t (list str)) :
  Dict.get ns refined = None -> Dict.get ns seen_funcs = None ->
  refine_namespaces LUA_KEYWORDS ((ns, fs) :: more) h refined seen_funcs
  = refine_namespaces LUA_KEYWORDS more
      (fst (fst (refine_loop LUA_KEYWORDS ns fs h [] [])))
      (Dict.set ns (snd (refine_loop LUA_KEYWORDS ns fs h [] []))
         (Dict.set ns [] refined))
      (Dict.set ns (snd (fst (refine_loop LUA_KEYWORDS ns fs h [] [])))
         (Dict.set ns [] seen_funcs)).
Proof.
  intros H1 H2. simpl. unfold Dict.has. rewrite H1, H2. simpl.
  unfold Dict.get_or. rewrite !get_set_eq.
  now destruct (refine_loop LUA_KEYWORDS ns fs h [] []) as [[h' seen] kept].
Qed.

Lemma refine_namespaces_unique (LUA_KEYWORDS : list str)
    (items : list (str * list ref)) (h : heap)
    (refined : Dict.t (list ref)) (seen_funcs : Dict.t (list str)) :
  NoDup (map fst items) -> unshared items = true ->
  (forall k, In k (map fst items) ->
     Dict.get k refined = None /\ Dict.get k seen_funcs = None) ->
  (forall k l, In (k, l) refined ->
     NoDup (target_names h l)
     /\ forall r, In r l -> forall k' l', In (k', l') items -> ~ In r l') ->
  forall k l,
    In (k, l) (snd (refine_namespaces LUA_KEYWORDS items h refined seen_funcs)) ->
    NoDup (target_names
             (fst (refine_namespaces LUA_KEYWORDS items h refined seen_funcs)) l).
Proof.
  revert h refined seen_funcs.
  induction items as [|[ns fs] more IH]; intros h refined seen_funcs Hkeys Hu Hfresh Hd.
  - intros k l Hin. now apply (Hd k l).
  - destruct (Hfresh ns (or_introl eq_refl)) as (F1 & F2).
    rewrite refine_namespaces_cons by assumption.
    apply unshared_cons in Hu. destruct Hu as (Hfs & Hmore).
    inversion Hkeys as [|? ? Hns Hkeys']; subst.
    apply IH; [exact Hkeys' | exact Hmore | |].
    + intros k Hk. assert (Hne : ns <> k) by (intros ->; contradiction).
      rewrite !get_set_neq by exact Hne. apply Hfresh. now right.
    + intros k l Hin. apply In_set in Hin. destruct Hin as [[= -> ->]|Hin].
      * split.
        -- apply refine_loop_unique; [reflexivity | constructor | intros r []].
        -- intros r Hr k' l' Hl'.
           apply refine_loop_subset in Hr. destruct Hr as [[]|Hr].
           now apply (Hfs r Hr k' l').
      * apply In_set in Hin. destruct Hin as [[= -> ->]|Hin].
        { split; [constructor | intros r []]. }
        destruct (Hd k l Hin) as (Hnodup & Hfree). split.
        -- replace (target_names (fst (fst (refine_loop LUA_KEYWORDS ns fs h [] []))) l)
             with (target_names h l); [exact Hnodup|].
           apply map_ext_in. intros r Hr. rewrite refine_loop_frame; [reflexivity|].
           apply (Hfree r Hr ns fs). now left.
        -- intros r Hr k' l' Hl'. apply (Hfree r Hr k' l'). now right.
Qed.

Lemma dedupe_functions_unique (h : heap) (table : Dict.t (list ref)) :
  unshared table = true ->
  forall ns l, In (ns, l) (snd (dedupe_functions h table)) ->
    NoDup (target_names (fst (dedupe_functions h table)) l).
Proof.
  intros Hunshared. unfold dedupe_functions.
  apply dedupe_namespaces_unique; [exact Hunshared|]. intros k l [].
Qed.

Lemma refine_functions_unique (LUA_KEYWORDS : list str) (h : heap)
    (table : Dict.t (list ref)) :
  NoDup (Dict.keys table) -> unshared table = true ->
  forall ns l, In (ns, l) (snd (refine_functions LUA_KEYWORDS h table)) ->
    NoDup (target_names (fst (refine_functions LUA_KEYWORDS h table)) l).
Proof.
  intros Hkeys Hunshared. unfold refine_functions.
  set (key := fun item : str * list ref => lower (fst item)).
  pose proof (sorted_by_perm key table) as Hperm.
  apply refine_namespaces_unique.
  - apply (Permutation_NoDup (l := map fst table)); [|exact Hkeys].
    apply Permutation_map, Permutation_sym, Hperm.
  - apply (unshared_perm table); [now apply Permutation_sym | exact Hunshared].
  - intros k _. now split.
  - intros k l [].
Qed.

(** Of the two functions on any table: when the keys are distinct and no
    record is listed under two namespaces of the input table, the names of
    the records kept under a namespace are pairwise distinct, both in the
    table [dedupe_functions] returns and in the table [refine_functions]
    returns. *)
Theorem names_are_unique_without_sharing (LUA_KEYWORDS : list str) (h : heap)
    (table : Dict.t (list ref))
    (Hkeys : NoDup (Dict.keys table))
    (Hunshared : unshared table = true) :
  (forall ns l, In (ns, l) (snd (dedupe_functions h table)) ->
     NoDup (target_names (fst (dedupe_functions h table)) l))
  /\ (forall ns l, In (ns, l) (snd (refine_functions LUA_KEYWORDS h table)) ->
        NoDup (target_names (fst (refine_functions LUA_KEYWORDS h table)) l)).
Proof.
  split.
  - now apply dedupe_functions_unique.
  - now apply refine_functions_unique.
Qed.

Lemma distinct_NoDup (l : list str) : distinct l = true -> NoDup l.
Proof.
  induction l as [|x l IH]; simpl; [constructor|].
  rewrite andb_true_iff, negb_true_iff. intros (Hx & Hl).
  constructor; [|now apply IH].
  intros H. apply mem_In in H. congruence.
Qed.

Lemma names_are_unique_without_sharing_witness :
  NoDup (Dict.keys [("ReaProject" : str, [0; 1]); ("Reaper" : str, [2])])
  /\ unshared [("ReaProject" : str, [0; 1]); ("Reaper" : str, [2])] = true
  /\ NoDup (target_names
              (fst (dedupe_functions
                      (two_records
                         (refined_as "EnumProjectMarkers3" "enum_project_markers3" None)
                         (refined_as "GetAppVersion" "get_app_version" None))
                      [("ReaProject" : str, [0; 1]); ("Reaper" : str, [2])]))
              [0; 1]).
Proof.
  assert (H1 : NoDup (Dict.keys [("ReaProject" : str, [0; 1]); ("Reaper" : str, [2])])).
  { apply distinct_NoDup. reflexivity. }
  assert (H2 : unshared [("ReaProject" : str, [0; 1]); ("Reaper" : str, [2])] = true).
  { reflexivity. }
  split; [exact H1|]. split; [exact H2|].
  apply (proj1 (names_are_unique_without_sharing lua_reserved_words
                  (two_records
                     (refined_as "EnumProjectMarkers3" "enum_project_markers3" None)
                     (refined_as "GetAppVersion" "get_app_version" None))
                  [("ReaProject" : str, [0; 1]); ("Reaper" : str, [2])] H1 H2)
          ("ReaProject" : str)).
  left. reflexivity.
Defined.

(** The proviso is needed of [dedupe_functions] taken alone.  Here record
    [0] is listed under two namespaces; it is accepted under the first as
    [add_project_marker2], next to a record named [add_project_marker], and
    renamed to [add_project_marker] while the second namespace is
    processed.  The classifier files every record under one namespace, so
    the stages never hand such a table over. *)
Lemma shared_record_breaks_uniqueness :
  Dict.get "Project"
    (snd (dedupe_functions
            (two_records (refined_as "AddProjectMarker2" "add_project_marker2" None)
                         (refined_as "AddProjectMarker" "add_project_marker" None))
            [("Project" : str, [0; 1]); ("ReaProject" : str, [0])]))
  = Some [0; 1]
  /\ target_names
       (fst (dedupe_functions
               (two_records (refined_as "AddProjectMarker2" "add_project_marker2" None)
                            (refined_as "AddProjectMarker" "add_project_marker" None))
               [("Project" : str, [0; 1]); ("ReaProject" : str, [0])]))
       [0; 1]
     = [Some ("add_project_marker" : str); Some ("add_project_marker" : str)]
  /\ ~ NoDup
       (target_names
          (fst (dedupe_functions
                  (two_records (refined_as "AddProjectMarker2" "add_project_marker2" None)
                               (refined_as "AddProjectMarker" "add_project_marker" None))
                  [("Project" : str, [0; 1]); ("ReaProject" : str, [0])]))
          [0; 1]).
Proof.
  split; [reflexivity|]. split; [reflexivity|].
  intros H. inversion H as [|x l Hx _]; subst. apply Hx. now left.
Qed.

Lemma flagged_functions_are_dropped_witness :
  docs (two_records
          (refined_as "GetTrackMIDINoteName" "get_track_midi_note_name"
             (Some ("Deprecated, see GetTrackMIDINoteNameEx" : str)))
          (refined_as "GetAppVersion" "get_app_version" None) 0)
  = Some ("Deprecated, see GetTrackMIDINoteNameEx" : str)
  /\ mentions "deprecated" "Deprecated, see GetTrackMIDINoteNameEx"
  /\ ~ In 0 (Dict.get_or []  "Reaper"
               (snd (dedupe_functions
                       (two_records
                          (refined_as "GetTrackMIDINoteName" "get_track_midi_note_name"
                             (Some ("Deprecated, see GetTrackMIDINoteNameEx" : str)))
                          (refined_as "GetAppVersion" "get_app_version" None))
                       [("Reaper" : str, [0; 1])]))).
Proof.
  assert (H : mentions "deprecated" "Deprecated, see GetTrackMIDINoteNameEx").
  { exists [], ("Deprecated" : str), (", see GetTrackMIDINoteNameEx" : str).
    split; reflexivity. }
  split; [reflexivity|]. split; [exact H|].
  apply (flagged_functions_are_dropped
           (two_records
              (refined_as "GetTrackMIDINoteName" "get_track_midi_note_name"
                 (Some ("Deprecated, see GetTrackMIDINoteNameEx" : str)))
              (refined_as "GetAppVersion" "get_app_version" None))
           [("Reaper" : str, [0; 1])] 0
           ("Deprecated, see GetTrackMIDINoteNameEx" : str) eq_refl (or_introl H)
           ("Reaper" : str)).
  left. reflexivity.
Defined.

(** ** The curated renames of [ReaProject] *)

Lemma curated_enum_project_markers2 (f : ReaFunc) :
  reawrap_name f = Some ("enum_project_markers2" : str) ->
  curated "ReaProject" f = None.
Proof. intros H. unfold curated, named. rewrite H. reflexivity. Qed.

Lemma curated_enum_project_markers3 (f : ReaFunc) :
  reawrap_name f = Some ("enum_project_markers3" : str) ->
  curated "ReaProject" f = Some (rename "enum_project_markers" f).
Proof. intros H. unfold curated, named. rewrite H. reflexivity. Qed.

Lemma curated_enum_project_markers (f : ReaFunc) :
  reawrap_name f = Some ("enum_project_markers" : str) ->
  curated "ReaProject" f = Some f.
Proof. intros H. unfold curated, named. rewrite H. reflexivity. Qed.

Lemma named_name (n ns : str) (f : ReaFunc) :
  named n ns f = true -> reawrap_name f = Some n.
Proof.
  unfold named. rewrite andb_true_iff. intros (H & _).
  destruct (reawrap_name f) as [m|]; [|discriminate].
  simpl in H. apply str_eqb_eq in H. now subst.
Qed.

(** No branch other than the one for [enum_project_markers3] produces the
    name [enum_project_markers], and none produces
    [enum_project_markers3]. *)
Lemma curated_avoids (ns : str) (x f : ReaFunc) :
  reawrap_name x <> Some ("enum_project_markers" : str) ->
  reawrap_name x <> Some ("enum_project_markers3" : str) ->
  curated ns x = Some f ->
  reawrap_name f <> Some ("enum_project_markers" : str)
  /\ reawrap_name f <> Some ("enum_project_markers3" : str).
Proof.
  intros H1 H3. unfold curated.
  repeat match goal with
         | |- context [named ?n ns x] => destruct (named n ns x) eqn:?
         end;
    intros [= <-] || discriminate;
    try (split; discriminate).
  - match goal with H : named _ ns x = true |- _ => apply named_name in H end.
    contradiction.
  - now split.
Qed.

(** ** Namespaces other than [ReaProject] leave the records as they are *)

Lemma dedupe_loop_elsewhere (ns : str) (fs : list ref) (h : heap)
    (seen : list (option str)) (kept : list ref) (r : ref) :
  str_eqb ns "ReaProject" = false ->
  fst (dedupe_loop ns fs h seen kept) r = h r.
Proof.
  intros Hns. revert h seen kept. induction fs as [|func fs IH]; intros h seen kept.
  - reflexivity.
  - rewrite dedupe_loop_cons.
    destruct (docs_mention "deprecated" (h func)); [now apply IH|].
    destruct (docs_mention "discouraged" (h func)); [now apply IH|].
    rewrite curated_elsewhere by exact Hns.
    destruct (negb (seen_has (reawrap_name (h func)) seen)); rewrite IH;
      (destruct (Nat.eq_dec r func) as [->|Hne];
       [now rewrite store_same | now rewrite store_other]).
Qed.

Lemma dedupe_namespaces_elsewhere (items : list (str * list ref)) (h : heap)
    (deduped : Dict.t (list ref)) :
  ~ In ("ReaProject" : str) (map fst items) ->
  (forall r, fst (dedupe_namespaces items h deduped) r = h r)
  /\ Dict.get "ReaProject" (snd (dedupe_namespaces items h deduped))
     = Dict.get "ReaProject" deduped.
Proof.
  revert h deduped. induction items as [|[ns fs] more IH]; intros h deduped Hkeys.
  - now split.
  - rewrite dedupe_namespaces_cons.
    assert (Hns : ns <> ("ReaProject" : str)) by (intros ->; apply Hkeys; now left).
    destruct (IH (fst (dedupe_loop ns fs h [] []))
                 (Dict.set ns (snd (dedupe_loop ns fs h [] [])) deduped)) as (H1 & H2).
    { intros H. apply Hkeys. now right. }
    split.
    + intros r. rewrite H1. apply dedupe_loop_elsewhere. now apply str_eqb_neq.
    + rewrite H2. now apply get_set_neq.
Qed.

(** The table has one [ReaProject] entry; its list is processed once, from
    a heap that still holds the input records. *)
Lemma dedupe_namespaces_ReaProject (items : list (str * list ref)) (h : heap)
    (deduped : Dict.t (list ref)) (l : list ref) :
  NoDup (map fst items) -> In ("ReaProject" : str, l) items ->
  exists h0,
    (forall r, h0 r = h r)
    /\ Dict.get "ReaProject" (snd (dedupe_namespaces items h deduped))
       = Some (snd (dedupe_loop "ReaProject" l h0 [] []))
    /\ forall r, fst (dedupe_namespaces items h deduped) r
                 = fst (dedupe_loop "ReaProject" l h0 [] []) r.
Proof.
  revert h deduped. induction items as [|[ns fs] more IH]; intros h deduped Hkeys Hl.
  - destruct Hl.
  - rewrite dedupe_namespaces_cons.
    inversion Hkeys as [|? ? Hns Hmore]; subst.
    destruct Hl as [[= -> ->]|Hl].
    + exists h. split; [reflexivity|].
      destruct (dedupe_namespaces_elsewhere more
                  (fst (dedupe_loop "ReaProject" l h [] []))
                  (Dict.set "ReaProject" (snd (dedupe_loop "ReaProject" l h [] [])) deduped)
                  Hns) as (H1 & H2).
      split; [|exact H1]. exact (eq_trans H2 (get_set_eq _ _ _)).
    + assert (Hne : str_eqb ns "ReaProject" = false).
      { apply str_eqb_neq. intros ->. apply Hns.
        apply (in_map fst) in Hl. exact Hl. }
      destruct (IH (fst (dedupe_loop ns fs h [] []))
                   (Dict.set ns (snd (dedupe_loop ns fs h [] [])) deduped) Hmore Hl)
        as (h0 & H0 & H1 & H2).
      exists h0. split; [|split; assumption].
      intros r. rewrite H0. now apply dedupe_loop_elsewhere.
Qed.

(** ** [enum_project_markers2] and [enum_project_markers3] *)

Section EnumProjectMarkers.

Variable l : list ref.
Variables r2 r3 : ref.
Hypothesis Hdistinct : r2 <> r3.

Lemma markers_loop (fs : list ref) (h : heap) (seen : list (option str))
    (kept : list ref) :
  (forall r, In r fs -> In r l) ->
  markers_kept_apart l r2 r3 h -> ~ In r2 kept ->
  (markers_pending r3 h seen kept /\ In r3 fs) \/ markers_settled r3 h seen kept ->
  markers_kept_apart l r2 r3 (fst (dedupe_loop "ReaProject" fs h seen kept))
  /\ ~ In r2 (snd (dedupe_loop "ReaProject" fs h seen kept))
  /\ reawrap_name (fst (dedupe_loop "ReaProject" fs h seen kept) r3)
     = Some ("enum_project_markers" : str)
  /\ count_occ Nat.eq_dec (snd (dedupe_loop "ReaProject" fs h seen kept)) r3 = 1.
Proof.
  revert h seen kept. induction fs as [|func fs IH]; intros h seen kept Hfs Hinv Hr2 Hstate.
  - simpl. destruct Hstate as [(_ & [])|(H1 & _ & H2)]. auto.
  - assert (Hfs' : forall r, In r fs -> In r l) by (intros r Hr; apply Hfs; now right).
    assert (Hfunc : In func l) by (apply Hfs; now left).
    destruct Hinv as (I2 & D1 & D2 & J).
    rewrite dedupe_loop_cons.
    destruct (Nat.eq_dec func r3) as [->|Hne3].
    + (* the [...3] record *)
      rewrite D1, D2.
      destruct Hstate as [((P1 & P2 & P3) & _)|(S1 & S2 & S3)].
      * rewrite (curated_enum_project_markers3 _ P1).
        assert (Eseen : seen_has (reawrap_name (rename "enum_project_markers" (h r3))) seen
                        = false).
        { destruct (seen_has _ seen) eqn:E; [|reflexivity].
          apply seen_has_In in E. contradiction. }
        rewrite Eseen. simpl negb. cbv iota.
        apply IH; [exact Hfs' | | |].
        -- repeat split.
           ++ now rewrite store_other.
           ++ now rewrite store_same.
           ++ now rewrite store_same.
           ++ rewrite store_other by tauto. now apply J.
           ++ rewrite store_other by tauto. now apply J.
        -- intros H. apply in_app_or in H. destruct H as [H|[H|[]]]; auto.
        -- right. repeat split.
           ++ now rewrite store_same.
           ++ apply in_or_app. right. now left.
           ++ apply (count_occ_not_In Nat.eq_dec) in P3.
              rewrite count_occ_app, P3. simpl.
              now destruct (Nat.eq_dec r3 r3).
      * rewrite (curated_enum_project_markers _ S1).
        assert (Eseen : seen_has (reawrap_name (h r3)) seen = true).
        { apply seen_has_In. now rewrite S1. }
        rewrite Eseen. simpl negb. cbv iota.
        apply IH; [exact Hfs' | | exact Hr2 |].
        -- repeat split.
           ++ now rewrite store_other.
           ++ now rewrite store_same.
           ++ now rewrite store_same.
           ++ rewrite store_other by tauto. now apply J.
           ++ rewrite store_other by tauto. now apply J.
        -- right. repeat split; [now rewrite store_same | exact S2 | exact S3].
    + (* another record *)
      assert (Hstate' : (markers_pending r3 h seen kept /\ In r3 fs)
                        \/ markers_settled r3 h seen kept).
      { destruct Hstate as [(P & [H|H])|S]; [congruence | now left | now right]. }
      assert (Hinv : markers_kept_apart l r2 r3 h) by (repeat split; auto; now apply J).
      destruct (docs_mention "deprecated" (h func)); [now apply IH|].
      destruct (docs_mention "discouraged" (h func)); [now apply IH|].
      destruct (curated "ReaProject" (h func)) as [f|] eqn:Ef; [|now apply IH].
      assert (Hf2 : func <> r2).
      { intros ->. rewrite (curated_enum_project_markers2 _ I2) in Ef. discriminate. }
      destruct (J func Hfunc Hne3) as (N1 & N3).
      destruct (curated_avoids _ _ _ N1 N3 Ef) as (F1 & F3).
      assert (Hinv' : markers_kept_apart l r2 r3 (store h func f)).
      { repeat split.
        - rewrite store_other by congruence. exact I2.
        - rewrite store_other by congruence. exact D1.
        - rewrite store_other by congruence. exact D2.
        - destruct (Nat.eq_dec r func) as [->|Hne]; [now rewrite store_same|].
          rewrite store_other by exact Hne. now apply J.
        - destruct (Nat.eq_dec r func) as [->|Hne]; [now rewrite store_same|].
          rewrite store_other by exact Hne. now apply J. }
      destruct (negb (seen_has (reawrap_name f) seen)).
      * apply IH; [exact Hfs' | exact Hinv' | |].
        -- intros H. apply in_app_or in H. destruct H as [H|[H|[]]]; auto.
        -- destruct Hstate' as [((P1 & P2 & P3) & H)|(S1 & S2 & S3)]; [left|right].
           ++ repeat split; [| | |exact H].
              ** rewrite store_other by congruence. exact P1.
              ** intros Hin. apply in_app_or in Hin.
                 destruct Hin as [Hin|[Hin|[]]]; [contradiction | congruence].
              ** intros Hin. apply in_app_or in Hin.
                 destruct Hin as [Hin|[Hin|[]]]; [contradiction | congruence].
           ++ repeat split.
              ** rewrite store_other by congruence. exact S1.
              ** apply in_or_app. now left.
              ** rewrite count_occ_app, S3. simpl.
                 now destruct (Nat.eq_dec func r3).
      * apply IH; [exact Hfs' | exact Hinv' | exact Hr2 |].
        destruct Hstate' as [((P1 & P2 & P3) & H)|(S1 & S2 & S3)]; [left|right].
        -- repeat split; [|exact P2|exact P3|exact H].
           rewrite store_other by congruence. exact P1.
        -- repeat split; [|exact S2|exact S3].
           rewrite store_other by congruence. exact S1.
Qed.

End EnumProjectMarkers.

(** C9. When the [ReaProject] list holds a record named
    [enum_project_markers2] and a record named [enum_project_markers3]
    whose documentation is not flagged, and no other record of the list is
    named [enum_project_markers] or [enum_project_markers3], then
    [dedupe_functions] drops the first, renames the second to
    [enum_project_markers] and keeps it once; it is the only record of the
    resulting list with that name. *)
Theorem enum_project_markers3_supersedes (h : heap) (refined : Dict.t (list ref))
    (l : list ref) (r2 r3 : ref)
    (Hkeys : NoDup (Dict.keys refined))
    (Hl : In ("ReaProject" : str, l) refined)
    (Hr2 : In r2 l) (Hr3 : In r3 l)
    (Hname2 : reawrap_name (h r2) = Some ("enum_project_markers2" : str))
    (Hname3 : reawrap_name (h r3) = Some ("enum_project_markers3" : str))
    (Hdeprecated : docs_mention "deprecated" (h r3) = false)
    (Hdiscouraged : docs_mention "discouraged" (h r3) = false)
    (Hothers : forall r, In r l -> r <> r3 ->
       reawrap_name (h r) <> Some ("enum_project_markers" : str)
       /\ reawrap_name (h r) <> Some ("enum_project_markers3" : str)) :
  exists kept,
    Dict.get "ReaProject" (snd (dedupe_functions h refined)) = Some kept
    /\ ~ In r2 kept
    /\ count_occ Nat.eq_dec kept r3 = 1
    /\ reawrap_name (fst (dedupe_functions h refined) r3)
       = Some ("enum_project_markers" : str)
    /\ forall r, In r kept ->
         reawrap_name (fst (dedupe_functions h refined) r)
         = Some ("enum_project_markers" : str) ->
         r = r3.
Proof.
  unfold dedupe_functions.
  destruct (dedupe_namespaces_ReaProject refined h [] l Hkeys Hl)
    as (h0 & H0 & Hget & Hheap).
  assert (Hne : r2 <> r3).
  { intros ->. rewrite Hname2 in Hname3. vm_compute in Hname3. discriminate Hname3. }
  destruct (markers_loop l r2 r3 Hne l h0 [] []) as ((_ & _ & _ & J) & K2 & K3 & K4).
  - auto.
  - repeat split; rewrite ?H0; auto; now apply Hothers.
  - intros [].
  - left. split; [|exact Hr3]. repeat split; [now rewrite H0 | intros [] | intros []].
  - exists (snd (dedupe_loop "ReaProject" l h0 [] [])).
    split; [exact Hget|]. split; [exact K2|]. split; [exact K4|].
    split; [now rewrite Hheap|].
    intros r Hr Hname. rewrite Hheap in Hname.
    destruct (Nat.eq_dec r r3) as [->|Hr']; [reflexivity|].
    apply dedupe_loop_subset in Hr. destruct Hr as [[]|Hr].
    destruct (J r Hr Hr') as (J1 & _). contradiction.
Qed.

Lemma enum_project_markers3_supersedes_witness :
  NoDup (Dict.keys [("ReaProject" : str, [1; 0; 2])])
  /\ exists kept,
       Dict.get "ReaProject"
         (snd (dedupe_functions
                 (fun r =>
                    match r with
                    | 0 => refined_as "EnumProjectMarkers3" "enum_project_markers3" None
                    | 1 => refined_as "EnumProjectMarkers2" "enum_project_markers2" None
                    | _ => refined_as "GetProjectName" "get_name" None
                    end)
                 [("ReaProject" : str, [1; 0; 2])])) = Some kept
       /\ ~ In 1 kept
       /\ count_occ Nat.eq_dec kept 0 = 1.
Proof.
  assert (H : NoDup (Dict.keys [("ReaProject" : str, [1; 0; 2])])).
  { apply distinct_NoDup. reflexivity. }
  split; [exact H|].
  destruct (enum_project_markers3_supersedes
              (fun r =>
                 match r with
                 | 0 => refined_as "EnumProjectMarkers3" "enum_project_markers3" None
                 | 1 => refined_as "EnumProjectMarkers2" "enum_project_markers2" None
                 | _ => refined_as "GetProjectName" "get_name" None
                 end)
              [("ReaProject" : str, [1; 0; 2])] [1; 0; 2] 1 0 H
              (or_introl eq_refl) (or_introl eq_refl) (or_intror (or_introl eq_refl))
              eq_refl eq_refl eq_refl eq_refl) as (kept & K1 & K2 & K3 & _).
  - intros r Hr Hne.
    destruct Hr as [<-|[<-|[<-|[]]]]; [| congruence |]; split; discriminate.
  - exists kept. split; [exact K1|]. split; [exact K2 | exact K3].
Defined.

(** ** The matcher *)

Lemma last_of_snoc (prev : option ascii) (c : ascii) (a : str) :
  last_of (Some c) a = last_of prev (c :: a).
Proof. reflexivity. Qed.

(** A successful greedy repetition read some run of the class and then
    satisfied its continuation. *)
Lemma star_sound (p : ascii -> bool) (k : option ascii -> str -> option Re.outcome)
    (prev : option ascii) (s : str) (r : Re.outcome) :
  Re.star p k prev s = Some r ->
  exists a b, s = a ++ b /\ all_of p a /\ k (last_of prev a) b = Some r.
Proof.
  revert prev. induction s as [|c s IH]; intros prev; simpl.
  - intros H. exists [], []. repeat split; [constructor | exact H].
  - destruct (p c) eqn:Ec.
    + destruct (Re.star p k (Some c) s) as [r'|] eqn:E.
      * intros [= <-]. destruct (IH _ E) as (a & b & -> & Ha & Hk).
        exists (c :: a), b. repeat split; [now constructor | exact Hk].
      * intros H. exists [], (c :: s). repeat split; [constructor | exact H].
    + intros H. exists [], (c :: s). repeat split; [constructor | exact H].
Qed.

(** If the continuation accepts after some run of the class, the greedy
    repetition finds a way to succeed. *)
Lemma star_complete (p : ascii -> bool) (k : option ascii -> str -> option Re.outcome)
    (prev : option ascii) (a b : str) :
  all_of p a -> k (last_of prev a) b <> None -> Re.star p k prev (a ++ b) <> None.
Proof.
  intros Ha. revert prev. induction Ha as [|c a Hc _ IH]; intros prev Hk.
  - simpl in *. destruct b as [|c b]; simpl; [exact Hk|].
    destruct (p c); [|exact Hk].
    destruct (Re.star p k (Some c) b); [discriminate | exact Hk].
  - simpl. rewrite Hc.
    specialize (IH (Some c) Hk).
    destruct (Re.star p k (Some c) (a ++ b)); [discriminate | contradiction].
Qed.

Lemma space_is_not_paren (c : ascii) :
  Chr.is_space c = true -> Chr.other_than ")" c = true.
Proof. destruct c as [[] [] [] [] [] [] [] []]; simpl; intros H; (reflexivity || discriminate H). Qed.

Lemma exactly_eq (d c : ascii) : Chr.exactly d c = true <-> c = d.
Proof. unfold Chr.exactly. apply Ascii.eqb_eq. Qed.

Lemma all_of_app (p : ascii -> bool) (a b : str) :
  all_of p a -> all_of p b -> all_of p (a ++ b).
Proof. intros Ha Hb. apply Forall_app. now split. Qed.

(** ** The signature pattern *)

Lemma match_signature (s : str) :
  Re.match_ signature_pattern s <> None <-> is_signature s.
Proof.
  unfold Re.match_, Re.at_start, signature_pattern. simpl. split.
  - destruct s as [|c s]; [now intros []|].
    destruct (Chr.is_word c) eqn:Ec; [|now intros []].
    match goal with |- context [Re.star ?p ?k ?pv ?t] =>
      destruct (Re.star p k pv t) as [r|] eqn:E end; [intros _|now intros []].
    apply star_sound in E. destruct E as (w & s1 & -> & Hw & E).
    apply star_sound in E. destruct E as (ws & s2 & -> & Hws & E).
    destruct s2 as [|c2 s2]; [discriminate|].
    destruct (Chr.exactly "(" c2) eqn:E2; [|discriminate].
    apply exactly_eq in E2. subst c2.
    apply star_sound in E. destruct E as (a3 & s3 & -> & H3 & E).
    apply star_sound in E. destruct E as (a4 & s4 & -> & H4 & E).
    apply star_sound in E. destruct E as (a5 & s5 & -> & H5 & E).
    destruct s5 as [|c5 s5]; [discriminate|].
    destruct (Chr.exactly ")" c5) eqn:E5; [|discriminate].
    apply exactly_eq in E5. subst c5.
    exists (c :: w), ws, (a3 ++ a4 ++ a5), s5. repeat split.
    + simpl. now rewrite <- !app_assoc.
    + discriminate.
    + now constructor.
    + exact Hws.
    + apply all_of_app; [|apply all_of_app]; try exact H4;
        (eapply Forall_impl; [apply space_is_not_paren|]; assumption).
  - intros (w & ws & body & rest & -> & Hne & Hw & Hws & Hbody).
    destruct Hw as [|c w Hc Hw]; [contradiction|].
    simpl. rewrite Hc.
    match goal with |- match ?x with _ => _ end <> None =>
      assert (H : x <> None); [|now destruct x as [[? ?]|]] end.
    apply star_complete; [exact Hw|].
    apply star_complete; [exact Hws|].
    simpl.
    apply (star_complete _ _ _ [] (body ++ ")"%char :: rest)); [constructor|].
    apply star_complete; [exact Hbody|].
    apply (star_complete _ _ _ [] (")"%char :: rest)); [constructor|].
    simpl. discriminate.
Qed.

Lemma get_function_signature_loop_spec (parts todo : list str) :
  (forall part, In part todo -> ~ is_signature part)
  <-> get_function_signature_loop parts todo
      = Raise (ValueError "Could not find function signature in " parts).
Proof.
  induction todo as [|part todo IH]; simpl.
  - split; [reflexivity | intros _ part []].
  - destruct (Re.match_ signature_pattern part) eqn:E.
    + split; [|discriminate].
      intros H. exfalso. apply (H part); [now left|].
      apply match_signature. now rewrite E.
    + rewrite <- IH. split.
      * intros H x Hx. apply H. now right.
      * intros H x [<-|Hx]; [|now apply H].
        intros Hs. apply match_signature in Hs. contradiction.
Qed.

(** ** The name pattern *)

Lemma at_start_name (prev : option ascii) (s : str) :
  Re.at_start name_pattern prev s <> None
  <-> Re.wordish prev = false
      /\ exists w ws post,
           s = w ++ ws ++ "("%char :: post
           /\ w <> [] /\ all_of Chr.is_word w /\ all_of Chr.is_space ws.
Proof.
  unfold Re.at_start, name_pattern. simpl. split.
  - destruct s as [|c s]; simpl.
    { rewrite xorb_false_r. now destruct (Re.wordish prev); intros []. }
    destruct (Chr.is_word c) eqn:Ec.
    2: { rewrite xorb_false_r. now destruct (Re.wordish prev); intros []. }
    destruct (Re.wordish prev); simpl; [now intros []|].
    match goal with |- context [Re.star ?p ?k ?pv ?t] =>
      destruct (Re.star p k pv t) as [r|] eqn:E end; [intros _|now intros []].
    split; [reflexivity|].
    apply star_sound in E. destruct E as (w & s1 & -> & Hw & E).
    match type of E with match ?x with _ => _ end = _ =>
      destruct x as [[? ?]|] eqn:E' end; [|discriminate].
    apply star_sound in E'. destruct E' as (ws & s2 & -> & Hws & E').
    destruct s2 as [|c2 s2]; [discriminate|].
    destruct (Chr.exactly "(" c2) eqn:E2; [|discriminate].
    apply exactly_eq in E2. subst c2.
    exists (c :: w), ws, s2. repeat split; [discriminate | now constructor | exact Hws].
  - intros (Hprev & w & ws & post & -> & Hne & Hw & Hws).
    destruct Hw as [|c w Hc Hw]; [contradiction|].
    simpl. rewrite Hc, Hprev. simpl.
    match goal with |- match ?x with _ => _ end <> None =>
      assert (H : x <> None); [|now destruct x as [[? ?]|]] end.
    apply star_complete; [exact Hw|].
    match goal with |- match ?x with _ => _ end <> None =>
      assert (H : x <> None); [|now destruct x as [[? ?]|]] end.
    apply star_complete; [exact Hws|].
    simpl. discriminate.
Qed.

Lemma search_from_nil (r : regex) (prev : option ascii) :
  Re.search_from r prev [] = Re.at_start r prev [].
Proof. simpl. now destruct (Re.at_start r prev []). Qed.

Lemma search_from_cons (r : regex) (prev : option ascii) (c : ascii) (s : str) :
  Re.search_from r prev (c :: s)
  = match Re.at_start r prev (c :: s) with
    | Some m => Some m
    | None =>
        match Re.search_from r (Some c) s with
        | Some m =>
            Some (Re.Found (c :: Re.before m) (Re.group0 m) (Re.groups m) (Re.after m))
        | None => None
        end
    end.
Proof. reflexivity. Qed.

Lemma search_from_spec (r : regex) (prev : option ascii) (s : str) :
  Re.search_from r prev s <> None
  <-> exists pre rest, s = pre ++ rest /\ Re.at_start r (last_of prev pre) rest <> None.
Proof.
  revert prev. induction s as [|c s IH]; intros prev.
  - rewrite search_from_nil. split.
    + intros H. now exists [], [].
    + intros (pre & rest & H & H').
      symmetry in H. apply app_eq_nil in H. destruct H as (-> & ->). exact H'.
  - rewrite search_from_cons.
    destruct (Re.at_start r prev (c :: s)) eqn:E.
    + split; [|discriminate]. intros _. exists [], (c :: s).
      split; [reflexivity|]. simpl. now rewrite E.
    + destruct (Re.search_from r (Some c) s) eqn:E'.
      * split; [|discriminate]. intros _.
        destruct (proj1 (IH (Some c))) as (pre & rest & -> & H); [congruence|].
        now exists (c :: pre), rest.
      * split; [now intros []|]. intros (pre & rest & H & H').
        destruct pre as [|c' pre].
        -- simpl in H, H'. subst rest. congruence.
        -- injection H as <- ->. exfalso.
           apply (proj2 (IH (Some c))); [|exact E'].
           now exists pre, rest.
Qed.

Lemma search_name (s : str) : Re.search name_pattern s <> None <-> has_name s.
Proof.
  unfold Re.search. rewrite search_from_spec. split.
  - intros (pre & rest & -> & H). apply at_start_name in H.
    destruct H as (Hprev & w & ws & post & -> & H).
    exists pre, w, ws, post. tauto.
  - intros (pre & w & ws & post & -> & Hprev & H).
    exists pre, (w ++ ws ++ "("%char :: post). split; [reflexivity|].
    apply at_start_name. split; [exact Hprev|]. now exists w, ws, post.
Qed.

(** ** Parse errors *)

Lemma get_function_signature_spec (parts : list str) :
  (forall part, In part parts -> ~ is_signature part)
  <-> get_function_signature parts
      = Raise (ValueError "Could not find function signature in " parts).
Proof. apply get_function_signature_loop_spec. Qed.

Lemma get_function_name_spec (signature : str) :
  ~ has_name signature
  <-> get_function_name signature
      = Raise (ValueError "Could not find function name in " [signature]).
Proof.
  unfold get_function_name. rewrite <- search_name.
  destruct (Re.search name_pattern signature); split.
  - intros H. exfalso. apply H. discriminate.
  - discriminate.
  - reflexivity.
  - intros _ H. now apply H.
Qed.

Lemma parse_lua_function_raises (LUA_KEYWORDS : list str) (text : str) :
  (forall part, In part (split_max "reaper." 1 text) -> ~ is_signature part) ->
  exists err, parse_lua_function LUA_KEYWORDS text = Raise err.
Proof.
  intros H. apply get_function_signature_spec in H.
  unfold parse_lua_function.
  destruct (parse_return_values LUA_KEYWORDS _) as [parsed|err]; cbn [bind].
  - rewrite H. cbn [bind]. eauto.
  - eauto.
Qed.

Lemma collect_raises {A : Type} (g : gen A) (err : exn) :
  stopped g = Some err -> collect g = Raise err.
Proof. unfold collect. now intros ->. Qed.

Section Document.

Variable LUA_KEYWORDS : list str.
Variable Tag : Type.
Variable text_of : Tag -> str.
Variable parse_constants_from_docs : Tag -> str * list ReaType.

(** In the first loop an exception of [parse_lua_function] ends the
    iteration. *)
Lemma iter_functions_all_raises (entries : list (definition Tag))
    (rest : gen ReaFunc) (entry : definition Tag) (err : exn) :
  In entry entries ->
  parse_lua_function LUA_KEYWORDS (l_func entry) = Raise err ->
  exists err',
    stopped (iter_functions_all LUA_KEYWORDS text_of parse_constants_from_docs
               entries rest) = Some err'.
Proof.
  intros Hin Herr. induction entries as [|func more IH]; [destruct Hin|].
  simpl. destruct (parse_lua_function LUA_KEYWORDS (l_func func)) as [lua_func|e] eqn:E.
  - destruct Hin as [->|Hin]; [congruence|]. simpl. now apply IH.
  - simpl. eauto.
Qed.

(** In the second loop a [ValueError] is passed over. *)
Lemma iter_built_in_skips (func : definition Tag) (more : list (definition Tag))
    (message : str) (about : list str) :
  parse_lua_function LUA_KEYWORDS (l_func func) = Raise (ValueError message about) ->
  iter_built_in LUA_KEYWORDS text_of (func :: more)
  = iter_built_in LUA_KEYWORDS text_of more.
Proof. intros H. simpl. now rewrite H. Qed.

(** C8, as the code has it.  On ASCII text, [get_function_signature] raises
    its [ValueError], which carries the fragments, exactly when no fragment
    begins with a name and a parenthesised argument list;
    [get_function_name] raises its [ValueError] exactly when the text holds
    no name that starts at a word boundary and is followed, after optional
    white space, by an opening parenthesis: the name need not touch the
    parenthesis; and an entry of the main section without a signature makes
    the whole iteration raise. *)
Theorem parse_failures_are_raised (parts : list str) (signature : str)
    (functions_all lua : list (definition Tag)) (built_in : bool)
    (entry : definition Tag) (Hentry : In entry functions_all)
    (Hparts : Forall ascii_text parts) (Hsignature : ascii_text signature)
    (Htext : ascii_text (l_func entry)) :
  ((forall part, In part parts -> ~ is_signature part)
   <-> get_function_signature parts
       = Raise (ValueError "Could not find function signature in " parts))
  /\ (~ has_name signature
      <-> get_function_name signature
          = Raise (ValueError "Could not find function name in " [signature]))
  /\ ((forall part, In part (split_max "reaper." 1 (l_func entry)) ->
         ~ is_signature part) ->
      exists err,
        collect (iter_lua_functions LUA_KEYWORDS text_of parse_constants_from_docs
                   functions_all lua built_in) = Raise err).
Proof.
  split; [apply get_function_signature_spec|].
  split; [apply get_function_name_spec|].
  intros H. destruct (parse_lua_function_raises LUA_KEYWORDS _ H) as (err & Herr).
  destruct (iter_functions_all_raises functions_all
              (if built_in then iter_built_in LUA_KEYWORDS text_of lua else done)
              entry err Hentry Herr) as (err' & H').
  exists err'. now apply collect_raises.
Qed.

End Document.

Lemma ascii_text_check (s : str) :
  forallb (fun c => Chr.code c <? 128) s = true -> ascii_text s.
Proof. intros H. apply Forall_forall. now apply forallb_forall. Qed.

Lemma parse_failures_are_raised_witness :
  In (mkDefinition "nothing here" (None : option unit))
     [mkDefinition "integer reaper.CountTracks(ReaProject proj)" None;
      mkDefinition "nothing here" None]
  /\ Forall ascii_text (strs ["nothing here"])
  /\ ascii_text "GetTrack (proj, 0)"
  /\ get_function_signature (strs ["nothing here"])
     = Raise (ValueError "Could not find function signature in " (strs ["nothing here"]))
  /\ collect (iter_lua_functions lua_reserved_words (fun _ : unit => [])
                (fun _ : unit => ([], []))
                [mkDefinition "integer reaper.CountTracks(ReaProject proj)" None;
                 mkDefinition "nothing here" None] [] false)
     = Raise (ValueError "Could not find function signature in " (strs ["nothing here"])).
Proof.
  assert (Hparts : Forall ascii_text (strs ["nothing here"])).
  { constructor; [now apply ascii_text_check | constructor]. }
  assert (Hsignature : ascii_text "GetTrack (proj, 0)") by now apply ascii_text_check.
  split; [right; left; reflexivity|].
  split; [exact Hparts|]. split; [exact Hsignature|].
  split; [|reflexivity].
  apply (proj1 (parse_failures_are_raised lua_reserved_words unit (fun _ => [])
                  (fun _ => ([], [])) (strs ["nothing here"]) "GetTrack (proj, 0)"
                  [mkDefinition "integer reaper.CountTracks(ReaProject proj)" None;
                   mkDefinition "nothing here" None] [] false
                  (mkDefinition "nothing here" None)
                  (or_intror (or_introl eq_refl)) Hparts Hsignature
                  (ascii_text_check "nothing here" eq_refl))).
  intros part [<-|[]] Hs. apply match_signature in Hs. now apply Hs.
Defined.

(** C8, as stated, fails where white space stands between the name and the
    parenthesis: no name of the text touches an opening parenthesis, and
    [get_function_name] raises nothing and returns the name. *)
Lemma name_before_white_space_is_found :
  ascii_text "GetTrack (proj, 0)"
  /\ ~ has_adjacent_name "GetTrack (proj, 0)"
  /\ get_function_name "GetTrack (proj, 0)" = Ok ("GetTrack" : str).
Proof.
  split; [now apply ascii_text_check|]. split; [|reflexivity].
  intros (pre & w & post & E & _ & Hw & Hword).
  destruct (exists_last Hw) as (w' & c & ->).
  apply Forall_app in Hword. destruct Hword as (_ & Hc).
  inversion Hc as [|? ? Hc' _]; subst.
  rewrite <- app_assoc, app_assoc in E. cbn [app] in E.
  assert (G : forall (a b : str) (x : ascii),
            ("GetTrack (proj, 0)" : str) = a ++ x :: "("%char :: b -> x = " "%char).
  { clear. intros a b x E.
    do 9 (destruct a as [|? a]; [cbn in E; congruence|];
          cbn in E; injection E as _ E).
    repeat (destruct a as [|? a]; [cbn in E; congruence|];
            cbn in E; try discriminate E; injection E as _ E). }
  apply G in E. subst c. discriminate Hc'.
Qed.

(** ** The three stages in a row *)

Lemma keys_set_In {V : Type} (k : str) (v : V) (d : Dict.t V) (x : str) :
  In x (Dict.keys (Dict.set k v d)) -> x = k \/ In x (Dict.keys d).
Proof.
  unfold Dict.keys. induction d as [|[k' v'] d IH]; simpl.
  - intros [H|[]]. now left.
  - destruct (str_eqb k k') eqn:E; simpl.
    + intros [H|H]; [now left | now right; right].
    + intros [H|H]; [now right; left|].
      destruct (IH H) as [H'|H']; [now left | now right; right].
Qed.

Lemma keys_set_NoDup {V : Type} (k : str) (v : V) (d : Dict.t V) :
  NoDup (Dict.keys d) -> NoDup (Dict.keys (Dict.set k v d)).
Proof.
  induction d as [|[k' v'] d IH]; simpl; intros Hd.
  - repeat constructor. intros [].
  - destruct (str_eqb k k') eqn:E; simpl.
    + apply str_eqb_eq in E. now subst k'.
    + inversion Hd as [|? ? Hk' Hd']; subst. constructor; [|now apply IH].
      intros H. apply str_eqb_neq in E.
      destruct (keys_set_In k v d k' H); [congruence | contradiction].
Qed.

Lemma In_get {V : Type} (k : str) (v : V) (d : Dict.t V) :
  NoDup (Dict.keys d) -> In (k, v) d -> Dict.get k d = Some v.
Proof.
  induction d as [|[k' v'] d IH]; simpl; [now intros _ []|].
  intros Hd [[= -> ->]|Hin].
  - now rewrite str_eqb_refl.
  - inversion Hd as [|? ? Hk' Hd']; subst.
    destruct (str_eqb k k') eqn:E.
    + apply str_eqb_eq in E. subst k'. destruct Hk'.
      apply in_map_iff. now exists (k, v).
    + now apply IH.
Qed.

Lemma unshared_of_keyed (f : ref -> str) (d : Dict.t (list ref)) :
  NoDup (Dict.keys d) -> keyed f d -> unshared d = true.
Proof.
  induction d as [|[k l] d IH]; [reflexivity|].
  intros Hd Hf. inversion Hd as [|? ? Hk Hd']; subst.
  apply unshared_cons. split.
  - intros r Hr k' l' Hl' Hr'.
    assert (E : k' = k).
    { rewrite <- (Hf k l (or_introl eq_refl) r Hr).
      symmetry. apply (Hf k' l'); [now right | exact Hr']. }
    subst k'. apply Hk. apply in_map_iff. now exists (k, l').
  - apply IH; [exact Hd'|]. intros k' l' Hl'. apply (Hf k' l'). now right.
Qed.

Lemma keyed_set (f : ref -> str) (k : str) (l : list ref) (d : Dict.t (list ref)) :
  keyed f d -> (forall r, In r l -> f r = k) -> keyed f (Dict.set k l d).
Proof.
  intros Hd Hl k' l' Hin. apply In_set in Hin.
  destruct Hin as [[= -> ->]|Hin]; [exact Hl | now apply (Hd k' l')].
Qed.

Lemma keyed_get_or (f : ref -> str) (k : str) (d : Dict.t (list ref)) (r : ref) :
  keyed f d -> In r (Dict.get_or [] k d) -> f r = k.
Proof.
  intros Hd. unfold Dict.get_or.
  destruct (Dict.get k d) as [l|] eqn:E; [|now intros []].
  apply get_In in E. now apply (Hd k l).
Qed.

Section Stages.

Variable LUA_KEYWORDS : list str.
Variable REAPER_TYPES : list str.

Lemma group_loop_keys (h : heap) (fs : list ref) (d : Dict.t (list ref)) :
  NoDup (Dict.keys d) -> NoDup (Dict.keys (group_loop REAPER_TYPES h fs d)).
Proof.
  revert d. induction fs as [|r fs IH]; intros d Hd; [exact Hd|].
  simpl. apply IH. unfold append_under. apply keys_set_NoDup.
  destruct (negb (Dict.has _ d)); [now apply keys_set_NoDup | exact Hd].
Qed.

Lemma group_keyed (h : heap) (fs : list ref) :
  keyed (fun r => name_space_of REAPER_TYPES (h r))
    (group_functions_by_name_space REAPER_TYPES h fs).
Proof.
  intros k l Hin r Hr.
  assert (Hkeys : NoDup (Dict.keys (group_functions_by_name_space REAPER_TYPES h fs))).
  { apply group_loop_keys. constructor. }
  apply (In_get _ _ _ Hkeys) in Hin. rewrite group_get in Hin.
  destruct (filter (in_name_space REAPER_TYPES h k) fs) as [|x l0] eqn:E; [discriminate|].
  injection Hin as <-. rewrite <- E in Hr. apply filter_In in Hr.
  destruct Hr as [_ Hr]. now apply str_eqb_eq in Hr.
Qed.

Lemma refine_namespaces_keyed (f : ref -> str) (items : list (str * list ref))
    (h : heap) (refined : Dict.t (list ref)) (seen_funcs : Dict.t (list str)) :
  keyed f items -> keyed f refined -> NoDup (Dict.keys refined) ->
  keyed f (snd (refine_namespaces LUA_KEYWORDS items h refined seen_funcs))
  /\ NoDup (Dict.keys (snd (refine_namespaces LUA_KEYWORDS items h refined seen_funcs))).
Proof.
  revert h refined seen_funcs.
  induction items as [|[ns fs] more IH]; intros h refined seen_funcs Hitems Hrefined Hkeys.
  - now split.
  - simpl.
    set (refined1 := if negb (Dict.has ns refined) then Dict.set ns [] refined else refined).
    set (seen1 := if negb (Dict.has ns seen_funcs) then Dict.set ns [] seen_funcs
                  else seen_funcs).
    destruct (refine_loop LUA_KEYWORDS ns fs h (Dict.get_or [] ns seen1)
                (Dict.get_or [] ns refined1)) as [[h' seen] kept] eqn:E.
    assert (H1 : keyed f refined1).
    { unfold refined1. destruct (negb (Dict.has ns refined)); [|exact Hrefined].
      apply keyed_set; [exact Hrefined | intros r []]. }
    assert (K1 : NoDup (Dict.keys refined1)).
    { unfold refined1. destruct (negb (Dict.has ns refined)); [|exact Hkeys].
      now apply keys_set_NoDup. }
    apply IH.
    + intros k l Hl. apply (Hitems k l). now right.
    + apply keyed_set; [exact H1|]. intros r Hr.
      replace kept with (snd (refine_loop LUA_KEYWORDS ns fs h (Dict.get_or [] ns seen1)
                                (Dict.get_or [] ns refined1))) in Hr by now rewrite E.
      apply refine_loop_subset in Hr. destruct Hr as [Hr|Hr].
      * now apply (keyed_get_or f ns refined1).
      * apply (Hitems ns fs); [now left | exact Hr].
    + now apply keys_set_NoDup.
Qed.

(** C2. Whatever the list of parsed functions is, in the table the stages
    end with, the one [dedupe_functions] returns, no two records kept under
    a namespace have the same target name, and the same holds of every list
    of the table [refine_functions] returns.  The classifier lists no
    record under two namespaces and gives the table distinct keys, and
    refinement keeps both. *)
Lemma stages_keep_names_unique (h : heap) (functions : list ref) :
  let by_name_space := group_functions_by_name_space REAPER_TYPES h functions in
  let refined := refine_functions LUA_KEYWORDS h by_name_space in
  let final := classify_refine_dedupe LUA_KEYWORDS REAPER_TYPES h functions in
  (forall ns l, In (ns, l) (snd refined) -> NoDup (target_names (fst refined) l))
  /\ (forall ns l, In (ns, l) (snd final) -> NoDup (target_names (fst final) l)).
Proof.
  intros by_name_space refined final.
  set (f := fun r => name_space_of REAPER_TYPES (h r)).
  assert (K0 : NoDup (Dict.keys by_name_space)).
  { apply group_loop_keys. constructor. }
  assert (F0 : keyed f by_name_space) by apply group_keyed.
  split.
  - apply refine_functions_unique; [exact K0|]. now apply (unshared_of_keyed f).
  - apply dedupe_functions_unique.
    destruct (refine_namespaces_keyed f
                (sorted_by (fun item : str * list ref => lower (fst item)) by_name_space)
                h [] []) as (F1 & K1).
    + intros k l Hl. apply (F0 k l).
      apply (Permutation_in _ (sorted_by_perm _ by_name_space) Hl).
    + intros k l [].
    + constructor.
    + now apply (unshared_of_keyed f).
Qed.

End Stages.

(** ** Two general facts behind the worked cases *)

(** Whatever follows [optional], the type is read from the third token and
    the name from the second. *)
Lemma optional_piece_in_general (LUA_KEYWORDS : list str) (value : str)
    (more : list str) (second third : str) (rest : list str) :
  nonempty value = true ->
  filter nonempty (split " " value) = ("optional" : str) :: second :: third :: rest ->
  iter_types_and_names LUA_KEYWORDS (value :: more)
  = yield (new_ReaType third
             (sanitize_name LUA_KEYWORDS (("optional" : str) :: second :: third :: rest))
             true)
      (iter_types_and_names LUA_KEYWORDS more)
  /\ sanitize_name LUA_KEYWORDS (("optional" : str) :: second :: third :: rest)
     = sanitize_name LUA_KEYWORDS [third; second].
Proof.
  intros Hvalue Hparts. split; [|reflexivity].
  cbn [iter_types_and_names]. rewrite Hvalue, Hparts. reflexivity.
Qed.

(** Whatever the handle types are, as long as [integer] is not one of them:
    the runtime type of [integer] is [number] and its default is [nil]. *)
Lemma integer_defaults_to_nil (REAPER_TYPES : list str) (n : option str) (o : bool) :
  ~ In ("integer" : str) REAPER_TYPES ->
  lua_type REAPER_TYPES (new_ReaType "integer" n o) = "number"
  /\ fst (default_value (new_ReaType "integer" n o)) = "nil".
Proof.
  intros H. split; [|reflexivity].
  unfold lua_type, is_reaper_type. simpl reascript_type.
  destruct (mem _ REAPER_TYPES) eqn:E; [|reflexivity].
  apply mem_In in E. contradiction.
Qed.

(** * Further properties of the signature parser *)

Lemma star_maximal (p : ascii -> bool) (k : option ascii -> str -> option Re.outcome)
    (prev : option ascii) (a b : str) (r : Re.outcome) :
  all_of p a ->
  match b with [] => True | c :: _ => p c = false end ->
  k (last_of prev a) b = Some r ->
  Re.star p k prev (a ++ b) = Some r.
Proof.
  intros Ha Hb. revert prev. induction Ha as [|c a Hc _ IH]; intros prev Hk.
  - simpl in *. destruct b as [|c b]; simpl; [exact Hk|]. now rewrite Hb.
  - simpl. rewrite Hc. now rewrite (IH (Some c) Hk).
Qed.

Lemma firstn_prefix {A : Type} (a b : list A) :
  firstn (length (a ++ b) - length b) (a ++ b) = a.
Proof.
  rewrite length_app, Nat.add_sub.
  rewrite firstn_app, Nat.sub_diag, firstn_all. simpl. apply app_nil_r.
Qed.

Lemma space_is_not_word (c : ascii) : Chr.is_space c = true -> Chr.is_word c = false.
Proof. destruct c as [[] [] [] [] [] [] [] []]; simpl; intros H; (reflexivity || discriminate H). Qed.

Lemma get_function_signature_loop_first (parts todo : list str) (sig : str) :
  get_function_signature_loop parts todo = Ok sig ->
  exists pre post,
    todo = pre ++ sig :: post /\ is_signature sig
    /\ forall part, In part pre -> ~ is_signature part.
Proof.
  induction todo as [|part todo IH]; simpl; [discriminate|].
  destruct (Re.match_ signature_pattern part) eqn:E.
  - intros [= <-]. exists [], todo. repeat split.
    + apply match_signature. now rewrite E.
    + intros x [].
  - intros H. destruct (IH H) as (pre & post & -> & Hsig & Hpre).
    exists (part :: pre), post. repeat split; [exact Hsig|].
    intros x [<-|Hx]; [|now apply Hpre].
    intros Hs. apply match_signature in Hs. contradiction.
Qed.

Lemma search_skips_until_paren (pre s : str) (prev : option ascii) :
  free_of "(" pre ->
  Re.at_start arguments_pattern (last_of prev pre) s <> None ->
  exists m, Re.search_from arguments_pattern prev (pre ++ s) = Some m
    /\ Re.at_start arguments_pattern (last_of prev pre) s
       = Some (Re.Found [] (Re.group0 m) (Re.groups m) (Re.after m))
    /\ Re.before m = pre.
Proof.
  revert prev. induction pre as [|c pre IH]; intros prev Hpre Hs.
  - simpl in *. destruct (Re.at_start arguments_pattern prev s) as [m|] eqn:E; [|contradiction].
    exists m. split.
    + simpl app. destruct s; [now rewrite search_from_nil | now rewrite search_from_cons, E].
    + unfold Re.at_start in E.
      destruct (Re.run arguments_pattern prev s [] Re.accept) as [[rest gs]|]; [|discriminate].
      injection E as <-. now split.
  - assert (Hc : Chr.exactly "(" c = false).
    { unfold Chr.exactly. apply Ascii.eqb_neq. intros ->. apply Hpre. now left. }
    destruct (IH (Some c)) as (m & Hm & Hat & Hbefore).
    { intros H. apply Hpre. now right. }
    { exact Hs. }
    exists (Re.Found (c :: Re.before m) (Re.group0 m) (Re.groups m) (Re.after m)).
    split; [|split].
    + change ((c :: pre) ++ s) with (c :: (pre ++ s)).
      rewrite search_from_cons.
      assert (E : Re.at_start arguments_pattern prev (c :: pre ++ s) = None).
      { unfold Re.at_start, arguments_pattern. simpl. now rewrite Hc. }
      rewrite E, Hm. reflexivity.
    + exact Hat.
    + simpl. now rewrite Hbefore.
Qed.

Lemma firstn_exact {A : Type} (a b : list A) (n : nat) :
  n = length a -> firstn n (a ++ b) = a.
Proof.
  intros ->. now rewrite firstn_app, Nat.sub_diag, firstn_all, app_nil_r.
Qed.

Lemma at_start_arguments (prev : option ascii) (body rest : str) :
  free_of ")" body ->
  Re.at_start arguments_pattern prev ("("%char :: body ++ ")"%char :: rest)
  = Some (Re.Found [] ("("%char :: body ++ [")"%char]) [body] rest).
Proof.
  intros Hbody. unfold Re.at_start, arguments_pattern.
  cbn [Re.run seq]. change (Chr.exactly "(" "(") with true. cbv iota.
  assert (Hall : all_of (Chr.other_than ")") body).
  { unfold all_of. apply Forall_forall. intros c Hc. unfold Chr.other_than.
    apply negb_true_iff, Ascii.eqb_neq. intros ->. contradiction. }
  erewrite star_maximal; [|exact Hall|reflexivity|].
  2: { change (Chr.exactly ")" ")") with true. cbv iota. unfold Re.accept. reflexivity. }
  replace ("("%char :: body ++ ")"%char :: rest)
    with (("("%char :: body ++ [")"%char]) ++ rest)
    by (simpl; now rewrite <- app_assoc).
  rewrite (firstn_prefix ("("%char :: body ++ [")"%char]) rest).
  rewrite (firstn_prefix body (")"%char :: rest)).
  reflexivity.
Qed.

Lemma get_arguments_between (pre body rest : str) :
  free_of "(" pre -> free_of ")" body ->
  get_arguments (pre ++ "("%char :: body ++ ")"%char :: rest)
  = Ok (split "," body).
Proof.
  intros Hpre Hbody. unfold get_arguments, Re.search.
  destruct (search_skips_until_paren pre ("("%char :: body ++ ")"%char :: rest) None Hpre)
    as (m & Hm & Hat & _).
  { rewrite at_start_arguments by exact Hbody. discriminate. }
  rewrite Hm. rewrite at_start_arguments in Hat by exact Hbody.
  injection Hat as _ Hg _. unfold Re.group. simpl. now rewrite <- Hg.
Qed.

Lemma at_start_name_value (w ws post : str) (first : ascii) :
  all_of Chr.is_word (first :: w) -> all_of Chr.is_space ws ->
  exists gs,
    Re.run name_pattern None (first :: w ++ ws ++ "("%char :: post) [] Re.accept
    = Some (ws ++ "("%char :: post, gs).
Proof.
  intros Hw Hws. inversion Hw as [|? ? Hfirst Hw']; subst.
  unfold name_pattern. cbn [Re.run seq Re.wordish hd_error].
  rewrite Hfirst. cbn [xorb]. cbv iota.
  set (k := fun (pv : option ascii) (s' : str) =>
              match Re.run (Cat (Star Chr.is_space) (Cls (Chr.exactly "("))) pv s' []
                      Re.accept with
              | Some (_, gs) => Re.accept pv s' gs
              | None => None
              end).
  assert (Hk : exists gs, k (last_of (Some first) w) (ws ++ "("%char :: post)
                          = Some (ws ++ "("%char :: post, gs)).
  { unfold k. cbn [Re.run].
    destruct (Re.star Chr.is_space
                (fun pv s' =>
                   match s' with
                   | [] => None
                   | c :: s'0 => if Chr.exactly "(" c then Re.accept (Some c) s'0 [] else None
                   end) (last_of (Some first) w) (ws ++ "("%char :: post))
      as [[rest gs]|] eqn:E.
    - now exists gs.
    - exfalso. revert E. apply star_complete; [exact Hws|]. simpl. discriminate. }
  destruct Hk as (gs & Hk). exists gs.
  apply star_maximal; [exact Hw'| |exact Hk].
  destruct ws as [|c ws]; simpl; [reflexivity|].
  inversion Hws; subst. now apply space_is_not_word.
Qed.

Lemma get_function_name_of_signature (w ws post : str) :
  w <> [] -> all_of Chr.is_word w -> all_of Chr.is_space ws ->
  get_function_name (w ++ ws ++ "("%char :: post) = Ok w.
Proof.
  intros Hne Hw Hws. destruct w as [|first w]; [contradiction|].
  destruct (at_start_name_value w ws post first Hw Hws) as (gs & Hrun).
  unfold get_function_name, Re.search.
  change ((first :: w) ++ ws ++ "("%char :: post)
    with (first :: w ++ ws ++ "("%char :: post).
  rewrite search_from_cons. unfold Re.at_start. rewrite Hrun.
  cbn [Re.group0]. f_equal.
  change (first :: w ++ ws ++ "("%char :: post)
    with ((first :: w) ++ (ws ++ "("%char :: post)).
  apply firstn_prefix.
Qed.

Lemma signature_has_arguments (sig : str) :
  is_signature sig -> exists pieces, get_arguments sig = Ok pieces.
Proof.
  intros (w & ws & body & rest & -> & _ & Hw & Hws & Hbody).
  exists (split "," body).
  rewrite app_assoc.
  assert (Hfree : forall s, all_of Chr.is_word s \/ all_of Chr.is_space s ->
                            free_of "(" s).
  { intros s Hs Hin. destruct Hs as [Hs|Hs];
      apply (proj1 (Forall_forall _ _) Hs) in Hin; discriminate Hin. }
  apply get_arguments_between.
  - intros Hin. apply in_app_or in Hin. destruct Hin as [Hin|Hin].
    + now apply (Hfree w (or_introl Hw)).
    + now apply (Hfree ws (or_intror Hws)).
  - intros Hin. apply (proj1 (Forall_forall _ _) Hbody) in Hin. discriminate Hin.
Qed.

Lemma iter_only_IndexError (LUA_KEYWORDS : list str) (pieces : list str) (e : exn) :
  stopped (iter_types_and_names LUA_KEYWORDS pieces) = Some e -> e = IndexError.
Proof.
  induction pieces as [|value pieces IH]; cbn [iter_types_and_names]; [discriminate|].
  destruct (negb (nonempty value)); [discriminate|].
  destruct (filter nonempty (split " " value)) as [|part0 parts]; [now intros [= <-]|].
  destruct (str_eqb part0 "optional").
  - destruct (nth_error (part0 :: parts) 2); [exact IH | now intros [= <-]].
  - destruct (length (part0 :: parts) =? 1); exact IH.
Qed.

Lemma parse_return_values_only_IndexError (LUA_KEYWORDS : list str)
    (values : option str) (e : exn) :
  parse_return_values LUA_KEYWORDS values = Raise e -> e = IndexError.
Proof.
  unfold parse_return_values. destruct values as [v|]; [|discriminate].
  destruct (nonempty v); [|discriminate].
  unfold collect.
  destruct (stopped (iter_types_and_names LUA_KEYWORDS _)) as [e'|] eqn:E;
    cbn [bind]; [|discriminate].
  intros [= <-]. now apply iter_only_IndexError in E.
Qed.

Lemma get_function_signature_loop_raises (parts todo : list str) (e : exn) :
  get_function_signature_loop parts todo = Raise e ->
  e = ValueError "Could not find function signature in " parts.
Proof.
  induction todo as [|part todo IH]; simpl.
  - now intros [= <-].
  - destruct (Re.match_ signature_pattern part); [discriminate | exact IH].
Qed.

Lemma signature_has_name (sig : str) :
  is_signature sig ->
  exists name ws post,
    sig = name ++ ws ++ "("%char :: post /\ name <> [] /\ all_of Chr.is_word name
    /\ all_of Chr.is_space ws /\ get_function_name sig = Ok name.
Proof.
  intros (w & ws & body & rest & -> & Hne & Hw & Hws & _).
  exists w, ws, (body ++ ")"%char :: rest). repeat split; try assumption.
  now apply get_function_name_of_signature.
Qed.

(** [fn_name_space] after the two renamings of [parse_lua_function] *)
Lemma split_from_exhausted (sep : str) (piece s : str) :
  split_from sep (Some 0) 0 piece s = [piece ++ s].
Proof.
  revert piece. induction s as [|c s IH]; intros piece; simpl.
  - now rewrite app_nil_r.
  - rewrite IH. now rewrite <- app_assoc.
Qed.

Lemma split_from_no_underscore (limit : option nat) (piece s : str) :
  free_of "_" s -> split_from "_" limit 0 piece s = [piece ++ s].
Proof.
  revert piece. induction s as [|c s IH]; intros piece Hs.
  - simpl. now rewrite app_nil_r.
  - assert (Hc : Ascii.eqb "_" c = false).
    { apply Ascii.eqb_neq. intros <-. apply Hs. now left. }
    cbn [split_from]. change (startswith "_" (c :: s)) with (Ascii.eqb "_" c && true).
    rewrite Hc, andb_false_r. cbn [andb]. rewrite IH.
    + now rewrite <- app_assoc.
    + intros H. apply Hs. now right.
Qed.

Lemma split_at_first_underscore (a b : str) :
  free_of "_" a -> split_max "_" 1 (a ++ "_"%char :: b) = [a; b].
Proof.
  unfold split_max. intros Ha.
  assert (H : forall piece, split_from "_" (Some 1) 0 piece (a ++ "_"%char :: b)
                            = [piece ++ a; b]).
  { induction a as [|c a IH]; intros piece.
    - simpl. now rewrite split_from_exhausted, app_nil_r.
    - assert (Hc : Ascii.eqb "_" c = false).
      { apply Ascii.eqb_neq. intros <-. apply Ha. now left. }
      simpl app. cbn [split_from].
      change (startswith "_" (c :: a ++ "_"%char :: b)) with (Ascii.eqb "_" c && true).
      rewrite Hc, andb_false_r. cbn [andb]. rewrite IH.
      + now rewrite <- app_assoc.
      + intros H. apply Ha. now right. }
  apply (H []).
Qed.

Lemma tokens_of_blanks (value : str) :
  Forall (eq " "%char) value -> tokens value = [].
Proof.
  unfold tokens, split. intros H.
  assert (G : forall piece, filter nonempty (split_from " " None 0 piece value)
                            = filter nonempty [piece]).
  { induction H as [|c s <- _ IH]; intros piece; [reflexivity|].
    cbn [split_from]. change (may_cut None && startswith " " (" "%char :: s)) with true.
    cbv iota. change (length (" " : str) - 1) with 0.
    cbn [filter]. rewrite IH. simpl. now destruct (nonempty piece). }
  apply (G []).
Qed.

Lemma Ok_inj {A : Type} (x y : A) : Ok x = Ok y -> x = y.
Proof. now intros [= ->]. Qed.

Lemma parse_lua_function_inv (LUA_KEYWORDS : list str) (text : str) (f : ReaFunc) :
  parse_lua_function LUA_KEYWORDS text = Ok f ->
  get_function_signature (split_max "reaper." 1 text) = Ok (signature f)
  /\ get_function_name (signature f) = Ok (reascript_name f)
  /\ (exists pieces, get_arguments (signature f) = Ok pieces
        /\ collect (iter_types_and_names LUA_KEYWORDS pieces) = Ok (arguments f))
  /\ fn_name_space f
     = match get_fn_name_space (split_max "_" 1 (reascript_name f)) with
       | Some ns =>
           if str_eqb ns "TimeMap2" then Some ("TimeMap" : str)
           else if str_eqb ns "midi" then Some ("MIDI" : str)
           else Some ns
       | None => None
       end
  /\ docs f = None /\ reawrap_name f = None /\ constants f = None.
Proof.
  unfold parse_lua_function.
  destruct (parse_return_values LUA_KEYWORDS _) as [parsed|e]; cbn [bind]; [|discriminate].
  destruct (get_function_signature _) as [sig|e] eqn:Es; cbn [bind]; [|discriminate].
  destruct (get_arguments sig) as [pieces|e] eqn:Ep; cbn [bind]; [|discriminate].
  destruct (collect (iter_types_and_names LUA_KEYWORDS pieces)) as [args|e] eqn:Ea;
    cbn [bind]; [|discriminate].
  destruct (get_function_name sig) as [name|e] eqn:En; cbn [bind]; [|discriminate].
  intros H. apply Ok_inj in H. subst f.
  cbn [signature reascript_name arguments fn_name_space docs reawrap_name constants].
  split; [reflexivity|]. split; [exact En|]. split; [now exists pieces|].
  split; [|now repeat split].
  destruct (get_fn_name_space (split_max "_" 1 name)) as [ns|]; [|reflexivity].
  destruct (str_eqb ns "TimeMap2"); [reflexivity|].
  now destruct (str_eqb ns "midi").
Qed.

Lemma get_fn_name_space_sound (fn_name_space_parts : list str) (ns : str) :
  get_fn_name_space fn_name_space_parts = Some ns ->
  ns <> [] /\ mem ns FALSE_POSITIVE_NAMESPACES = false.
Proof.
  unfold get_fn_name_space.
  destruct (1 <? length fn_name_space_parts); [|discriminate].
  destruct (nth_error fn_name_space_parts 0) as [x|]; [|discriminate].
  cbn [truthy]. destruct (nonempty x) eqn:Ex; [|discriminate].
  destruct (mem x FALSE_POSITIVE_NAMESPACES) eqn:Em; [discriminate|].
  intros [= <-]. split; [|exact Em]. intros ->. discriminate Ex.
Qed.

(** X1. [get_function_signature] returns the first fragment that begins
    with a name and a parenthesised argument list: the fragments before the
    one returned do not. *)
Theorem get_function_signature_returns_first_match (parts : list str) (sig : str)
    (Hsig : get_function_signature parts = Ok sig) :
  exists pre post,
    parts = pre ++ sig :: post /\ is_signature sig
    /\ forall part, In part pre -> ~ is_signature part.
Proof. exact (get_function_signature_loop_first parts parts sig Hsig). Qed.

Lemma get_function_signature_returns_first_match_witness :
  get_function_signature (strs ["integer "; "CountTracks(ReaProject proj)"])
  = Ok ("CountTracks(ReaProject proj)" : str)
  /\ exists pre post,
       strs ["integer "; "CountTracks(ReaProject proj)"]
       = pre ++ ("CountTracks(ReaProject proj)" : str) :: post
       /\ is_signature "CountTracks(ReaProject proj)"
       /\ forall part, In part pre -> ~ is_signature part.
Proof.
  split; [reflexivity|].
  exact (get_function_signature_returns_first_match
           (strs ["integer "; "CountTracks(ReaProject proj)"])
           ("CountTracks(ReaProject proj)" : str) eq_refl).
Defined.

(** X2. [get_arguments] reads the text between the first opening
    parenthesis and the first closing parenthesis after it, and cuts it at
    the commas. *)
Theorem get_arguments_reads_first_parentheses (pre body rest : str)
    (Hpre : free_of "(" pre) (Hbody : free_of ")" body) :
  get_arguments (pre ++ "("%char :: body ++ ")"%char :: rest)
  = Ok (split "," body).
Proof. now apply get_arguments_between. Qed.

Lemma free_of_check (c : ascii) (s : str) :
  forallb (Chr.other_than c) s = true -> free_of c s.
Proof.
  intros H Hin. apply (proj1 (forallb_forall _ _) H) in Hin.
  unfold Chr.other_than in Hin. now rewrite Ascii.eqb_refl in Hin.
Qed.

Lemma get_arguments_reads_first_parentheses_witness :
  free_of "(" ("GetTrack" : str) /\ free_of ")" ("ReaProject proj, integer (idx" : str)
  /\ get_arguments
       (("GetTrack" : str) ++ "("%char :: ("ReaProject proj, integer (idx" : str)
          ++ ")"%char :: (" (x)" : str))
     = Ok (split "," "ReaProject proj, integer (idx").
Proof.
  assert (H1 : free_of "(" ("GetTrack" : str)) by (apply free_of_check; reflexivity).
  assert (H2 : free_of ")" ("ReaProject proj, integer (idx" : str))
    by (apply free_of_check; reflexivity).
  split; [exact H1|]. split; [exact H2|].
  exact (get_arguments_reads_first_parentheses _ _ _ H1 H2).
Defined.

(** X3. On a text that begins with a name, optional white space and an
    opening parenthesis, [get_function_name] returns that name, whole. *)
Theorem get_function_name_returns_leading_name (name ws post : str)
    (Hname : name <> []) (Hword : all_of Chr.is_word name)
    (Hws : all_of Chr.is_space ws) :
  get_function_name (name ++ ws ++ "("%char :: post) = Ok name.
Proof. now apply get_function_name_of_signature. Qed.

Lemma all_of_check (p : ascii -> bool) (s : str) : forallb p s = true -> all_of p s.
Proof. intros H. apply Forall_forall. now apply forallb_forall. Qed.

Lemma get_function_name_returns_leading_name_witness :
  ("TrackFX_GetCount" : str) <> []
  /\ all_of Chr.is_word ("TrackFX_GetCount" : str)
  /\ all_of Chr.is_space (" " : str)
  /\ get_function_name
       (("TrackFX_GetCount" : str) ++ (" " : str) ++ "("%char :: ("MediaTrack track)" : str))
     = Ok ("TrackFX_GetCount" : str).
Proof.
  assert (H1 : ("TrackFX_GetCount" : str) <> []) by discriminate.
  assert (H2 : all_of Chr.is_word ("TrackFX_GetCount" : str))
    by (apply all_of_check; reflexivity).
  assert (H3 : all_of Chr.is_space (" " : str)) by (apply all_of_check; reflexivity).
  split; [exact H1|]. split; [exact H2|]. split; [exact H3|].
  exact (get_function_name_returns_leading_name _ _ _ H1 H2 H3).
Defined.

(** X4. The only [ValueError] that [parse_lua_function] can raise is that of
    [get_function_signature]: once a fragment is accepted as the signature,
    [get_arguments] and [get_function_name] succeed on it.  Any other
    exception is an [IndexError] of the tokenizer. *)
Theorem parse_lua_function_raises_two_errors (LUA_KEYWORDS : list str) (text : str)
    (e : exn) (Hraise : parse_lua_function LUA_KEYWORDS text = Raise e) :
  e = IndexError
  \/ e = ValueError "Could not find function signature in "
           (split_max "reaper." 1 text).
Proof.
  revert Hraise. unfold parse_lua_function.
  destruct (parse_return_values LUA_KEYWORDS _) as [parsed|e0] eqn:E0; cbn [bind].
  2: { intros [= <-]. left. now apply parse_return_values_only_IndexError in E0. }
  destruct (get_function_signature _) as [sig|e1] eqn:E1; cbn [bind].
  2: { intros [= <-]. right. now apply get_function_signature_loop_raises in E1. }
  apply get_function_signature_loop_first in E1.
  destruct E1 as (pre & post & _ & Hsig & _).
  destruct (signature_has_arguments sig Hsig) as (pieces & ->). cbn [bind].
  unfold collect at 1.
  destruct (stopped (iter_types_and_names LUA_KEYWORDS pieces)) as [e2|] eqn:E2;
    cbn [bind].
  { intros [= <-]. left. now apply iter_only_IndexError in E2. }
  destruct (signature_has_name sig Hsig) as (name & ws & rest & _ & _ & _ & _ & ->).
  cbn [bind]. discriminate.
Qed.

Lemma parse_lua_function_raises_two_errors_witness :
  parse_lua_function lua_reserved_words "boolean reaper.IsMediaItemSelected( )"
  = Raise IndexError
  /\ (IndexError = IndexError
      \/ IndexError = ValueError "Could not find function signature in "
           (split_max "reaper." 1 "boolean reaper.IsMediaItemSelected( )")).
Proof.
  split; [reflexivity|].
  exact (parse_lua_function_raises_two_errors lua_reserved_words
           "boolean reaper.IsMediaItemSelected( )" IndexError eq_refl).
Defined.

(** X5. A record that [parse_lua_function] returns has, as its signature,
    a fragment of the text; its name is the name that opens that signature;
    and its namespace token is never empty, never one of the false-positive
    prefixes and never one of the two legacy spellings. *)
Theorem parsed_function_is_well_formed (LUA_KEYWORDS : list str) (text : str)
    (f : ReaFunc) (Hparse : parse_lua_function LUA_KEYWORDS text = Ok f) :
  In (signature f) (split_max "reaper." 1 text)
  /\ (exists ws post,
        signature f = reascript_name f ++ ws ++ "("%char :: post
        /\ reascript_name f <> [] /\ all_of Chr.is_word (reascript_name f)
        /\ all_of Chr.is_space ws)
  /\ (forall ns, fn_name_space f = Some ns ->
        ns <> [] /\ mem ns FALSE_POSITIVE_NAMESPACES = false
        /\ ns <> ("TimeMap2" : str) /\ ns <> ("midi" : str)).
Proof.
  destruct (parse_lua_function_inv _ _ _ Hparse) as (Hsig & Hname & _ & Hns & _).
  apply get_function_signature_loop_first in Hsig.
  destruct Hsig as (pre & post & Hparts & Hsig & _).
  split; [|split].
  - rewrite Hparts. apply in_or_app. right. now left.
  - destruct (signature_has_name _ Hsig) as (name & ws & rest & Heq & H1 & H2 & H3 & H4).
    rewrite Hname in H4. injection H4 as <-. now exists ws, rest.
  - intros ns. rewrite Hns.
    destruct (get_fn_name_space _) as [x|] eqn:Ex; [|discriminate].
    destruct (get_fn_name_space_sound _ _ Ex) as (X1 & X2).
    destruct (str_eqb x "TimeMap2") eqn:E1.
    { intros [= <-]. repeat split; discriminate || reflexivity. }
    destruct (str_eqb x "midi") eqn:E2.
    { intros [= <-]. repeat split; discriminate || reflexivity. }
    intros [= <-]. apply str_eqb_neq in E1, E2. now repeat split.
Qed.

Lemma parsed_function_is_well_formed_witness :
  parse_lua_function lua_reserved_words
    "number reaper.TimeMap2_timeToBeats(ReaProject proj, number tpos)"
  = Ok (mkReaFunc "TimeMap2_timeToBeats(ReaProject proj, number tpos)"
          "TimeMap2_timeToBeats" (Some ("TimeMap" : str))
          [new_ReaType "ReaProject" (Some ("proj" : str)) false;
           new_ReaType "number" (Some ("t_pos" : str)) false]
          [new_ReaType "number" None false] None None None)
  /\ In ("TimeMap2_timeToBeats(ReaProject proj, number tpos)" : str)
       (split_max "reaper." 1
          "number reaper.TimeMap2_timeToBeats(ReaProject proj, number tpos)").
Proof.
  assert (H : parse_lua_function lua_reserved_words
                "number reaper.TimeMap2_timeToBeats(ReaProject proj, number tpos)"
              = Ok (mkReaFunc "TimeMap2_timeToBeats(ReaProject proj, number tpos)"
                      "TimeMap2_timeToBeats" (Some ("TimeMap" : str))
                      [new_ReaType "ReaProject" (Some ("proj" : str)) false;
                       new_ReaType "number" (Some ("t_pos" : str)) false]
                      [new_ReaType "number" None false] None None None)).
  { vm_compute. reflexivity. }
  split; [exact H|].
  exact (proj1 (parsed_function_is_well_formed _ _ _ H)).
Defined.

(** X6. The namespace token is the text before the first underscore of the
    name, unless that text is empty or a false-positive prefix; a name
    without an underscore has no token. *)
Theorem namespace_token_is_first_prefix (a b s : str)
    (Ha : free_of "_" a) (Hs : free_of "_" s) :
  get_fn_name_space (split_max "_" 1 (a ++ "_"%char :: b))
  = (if nonempty a && negb (mem a FALSE_POSITIVE_NAMESPACES) then Some a else None)
  /\ get_fn_name_space (split_max "_" 1 s) = None.
Proof.
  split.
  - rewrite split_at_first_underscore by exact Ha.
    unfold get_fn_name_space. cbn [length Nat.ltb Nat.leb nth_error truthy].
    destruct (nonempty a); [|reflexivity].
    now destruct (mem a FALSE_POSITIVE_NAMESPACES).
  - unfold split_max. now rewrite split_from_no_underscore.
Qed.

Lemma namespace_token_is_first_prefix_witness :
  free_of "_" ("GetSetProjectInfo" : str) /\ free_of "_" ("CountTracks" : str)
  /\ get_fn_name_space
       (split_max "_" 1 (("GetSetProjectInfo" : str) ++ "_"%char :: ("String" : str)))
     = None
  /\ get_fn_name_space (split_max "_" 1 "CountTracks") = None.
Proof.
  assert (H1 : free_of "_" ("GetSetProjectInfo" : str)) by (apply free_of_check; reflexivity).
  assert (H2 : free_of "_" ("CountTracks" : str)) by (apply free_of_check; reflexivity).
  split; [exact H1|]. split; [exact H2|].
  exact (namespace_token_is_first_prefix _ ("String" : str) _ H1 H2).
Defined.

(** * Further properties of the tokenizer *)

Lemma iter_cons (LUA_KEYWORDS : list str) (value : str) (more : list str) :
  iter_types_and_names LUA_KEYWORDS (value :: more)
  = if negb (nonempty value) then done
    else match tokens value with
         | [] => fail IndexError
         | part0 :: _ =>
             if str_eqb part0 "optional" then
               match nth_error (tokens value) 2 with
               | Some part2 =>
                   yield (new_ReaType part2 (sanitize_name LUA_KEYWORDS (tokens value)) true)
                     (iter_types_and_names LUA_KEYWORDS more)
               | None => fail IndexError
               end
             else if length (tokens value) =? 1 then
               yield (new_ReaType (get_type part0) None false)
                 (iter_types_and_names LUA_KEYWORDS more)
             else
               yield (new_ReaType (get_type part0)
                        (sanitize_name LUA_KEYWORDS (tokens value)) false)
                 (iter_types_and_names LUA_KEYWORDS more)
         end.
Proof. reflexivity. Qed.

(** X7. A piece that is not empty but has no token (only spaces), or that
    starts with [optional] and has fewer than three tokens, makes the
    tokenizer raise [IndexError]. *)
Theorem tokenizer_raises_on_short_pieces (LUA_KEYWORDS : list str) (value : str)
    (more : list str) (Hvalue : value <> [])
    (Hshort : Forall (eq " "%char) value
              \/ exists rest, tokens value = ("optional" : str) :: rest
                              /\ length rest < 2) :
  iter_types_and_names LUA_KEYWORDS (value :: more) = fail IndexError.
Proof.
  rewrite iter_cons. destruct value as [|c value]; [contradiction|]. cbn [nonempty negb].
  destruct Hshort as [H|(rest & H & Hlen)].
  - now rewrite (tokens_of_blanks _ H).
  - rewrite H. change (str_eqb ("optional" : str) "optional") with true. cbv iota.
    destruct rest as [|x [|y rest]]; simpl in Hlen; try reflexivity. lia.
Qed.

Lemma tokenizer_raises_on_short_pieces_witness :
  (" " : str) <> []
  /\ iter_types_and_names lua_reserved_words (strs [" "; "integer idx"]) = fail IndexError
  /\ collect (iter_types_and_names lua_reserved_words (strs ["optional integer"]))
     = Raise IndexError.
Proof.
  assert (H : (" " : str) <> []) by discriminate.
  split; [exact H|]. split; [|reflexivity].
  apply (tokenizer_raises_on_short_pieces lua_reserved_words (" " : str)
           (strs ["integer idx"]) H).
  left. repeat constructor.
Defined.

Lemma iter_plain (LUA_KEYWORDS : list str) (pieces : list str) :
  Forall plain pieces ->
  stopped (iter_types_and_names LUA_KEYWORDS pieces) = None
  /\ map reascript_type (yielded (iter_types_and_names LUA_KEYWORDS pieces))
     = map (fun value => get_type (hd [] (tokens value))) pieces
  /\ Forall (fun t => is_optional t = false)
       (yielded (iter_types_and_names LUA_KEYWORDS pieces)).
Proof.
  induction 1 as [|value pieces (t & rest & Ht & Hopt) _ (IH1 & IH2 & IH3)].
  - repeat split. constructor.
  - rewrite iter_cons.
    assert (Hv : nonempty value = true).
    { destruct value; [discriminate Ht | reflexivity]. }
    rewrite Hv, Ht. cbn [negb hd].
    apply str_eqb_neq in Hopt. rewrite Hopt.
    destruct (length (t :: rest) =? 1); cbn [yield stopped yielded map];
      rewrite Ht, IH2; (repeat split; [exact IH1 | now constructor]).
Qed.

(** X8. On pieces that each have a first token other than [optional], the
    tokenizer raises nothing and yields one descriptor for each piece, in
    order: its type is the first token (with [MediaItem_Take] respelled) and
    it is not optional. *)
Theorem tokenizer_yields_one_descriptor_per_piece (LUA_KEYWORDS : list str)
    (pieces : list str) (Hplain : Forall plain pieces) :
  collect (iter_types_and_names LUA_KEYWORDS pieces)
  = Ok (yielded (iter_types_and_names LUA_KEYWORDS pieces))
  /\ map reascript_type (yielded (iter_types_and_names LUA_KEYWORDS pieces))
     = map (fun value => get_type (hd [] (tokens value))) pieces
  /\ Forall (fun t => is_optional t = false)
       (yielded (iter_types_and_names LUA_KEYWORDS pieces)).
Proof.
  destruct (iter_plain LUA_KEYWORDS pieces Hplain) as (H1 & H2 & H3).
  split; [|now split]. unfold collect. now rewrite H1.
Qed.

Lemma tokenizer_yields_one_descriptor_per_piece_witness :
  Forall plain (strs ["MediaItem_Take take"; " integer  idx"])
  /\ map reascript_type
       (yielded (iter_types_and_names lua_reserved_words
                   (strs ["MediaItem_Take take"; " integer  idx"])))
     = strs ["MediaItemTake"; "integer"].
Proof.
  assert (H : Forall plain (strs ["MediaItem_Take take"; " integer  idx"])).
  { repeat constructor.
    - exists ("MediaItem_Take" : str), (strs ["take"]). split; [reflexivity|].
      intros E. vm_compute in E. discriminate E.
    - exists ("integer" : str), (strs ["idx"]). split; [reflexivity|].
      intros E. vm_compute in E. discriminate E. }
  split; [exact H|].
  exact (proj1 (proj2 (tokenizer_yields_one_descriptor_per_piece
                         lua_reserved_words _ H))).
Defined.

(** * Further properties of the classifier *)

Lemma set_fresh {V : Type} (k : str) (v : V) (d : Dict.t V) :
  Dict.get k d = None -> Dict.set k v d = d ++ [(k, v)].
Proof.
  induction d as [|[k' v'] d IH]; simpl; [reflexivity|].
  destruct (str_eqb k k'); [discriminate|]. intros H. now rewrite IH.
Qed.

Lemma has_keys {V : Type} (k : str) (d : Dict.t V) :
  Dict.has k d = mem k (Dict.keys d).
Proof.
  unfold Dict.has. induction d as [|[k' v'] d IH]; simpl; [reflexivity|].
  destruct (str_eqb k k'); [reflexivity | exact IH].
Qed.

Lemma keys_set {V : Type} (k : str) (v : V) (d : Dict.t V) :
  Dict.keys (Dict.set k v d)
  = if Dict.has k d then Dict.keys d else Dict.keys d ++ [k].
Proof.
  unfold Dict.has, Dict.keys. induction d as [|[k' v'] d IH]; simpl; [reflexivity|].
  destruct (str_eqb k k') eqn:E; simpl.
  - apply str_eqb_eq in E. now subst.
  - rewrite IH. now destruct (Dict.get k d).
Qed.

Lemma entries_set_present (k : str) (x : ref) (d : Dict.t (list ref)) :
  Dict.has k d = true ->
  Permutation (entries (Dict.set k (Dict.get_or [] k d ++ [x]) d)) (x :: entries d).
Proof.
  unfold Dict.has, Dict.get_or, entries.
  induction d as [|[k' v'] d IH]; simpl; [discriminate|].
  destruct (str_eqb k k') eqn:E; simpl.
  - intros _. rewrite <- app_assoc. simpl.
    apply Permutation_sym, Permutation_middle.
  - intros H. apply perm_trans with (v' ++ x :: concat (map snd d)).
    + apply Permutation_app_head. now apply IH.
    + apply Permutation_sym, Permutation_middle.
Qed.

Section Grouping.

Variable REAPER_TYPES : list str.
Variable h : heap.

Let key_of (r : ref) : str := name_space_of REAPER_TYPES (h r).

Lemma group_loop_entries (fs : list ref) (d : Dict.t (list ref)) :
  Permutation (entries (group_loop REAPER_TYPES h fs d)) (entries d ++ fs).
Proof.
  revert d. induction fs as [|r fs IH]; intros d.
  - simpl. now rewrite app_nil_r.
  - cbn [group_loop]. fold (key_of r).
    set (d1 := if negb (Dict.has (key_of r) d) then Dict.set (key_of r) [] d else d).
    assert (H1 : Dict.has (key_of r) d1 = true /\ entries d1 = entries d).
    { unfold d1. destruct (Dict.has (key_of r) d) eqn:E; simpl; [now split|].
      split.
      - unfold Dict.has. now rewrite get_set_eq.
      - unfold Dict.has in E. destruct (Dict.get (key_of r) d) eqn:G; [discriminate|].
        rewrite (set_fresh _ _ _ G). unfold entries.
        rewrite map_app, concat_app. simpl. now rewrite app_nil_r. }
    destruct H1 as (H1 & H2).
    apply perm_trans with (entries (append_under (key_of r) r d1) ++ fs); [apply IH|].
    apply perm_trans with ((r :: entries d1) ++ fs).
    + apply Permutation_app_tail. now apply entries_set_present.
    + rewrite H2. simpl. apply Permutation_middle.
Qed.

Lemma group_loop_key_order (fs : list ref) (d : Dict.t (list ref)) :
  Dict.keys (group_loop REAPER_TYPES h fs d)
  = fold_left (fun acc k => if mem k acc then acc else acc ++ [k])
      (map key_of fs) (Dict.keys d).
Proof.
  revert d. induction fs as [|r fs IH]; intros d; [reflexivity|].
  cbn [group_loop map fold_left]. fold (key_of r). rewrite IH. f_equal.
  unfold append_under. rewrite keys_set.
  destruct (Dict.has (key_of r) d) eqn:E; cbn [negb].
  - rewrite E. now rewrite <- has_keys, E.
  - unfold Dict.has at 1. rewrite get_set_eq.
    rewrite keys_set, E. now rewrite <- has_keys, E.
Qed.

Lemma group_entry (fs : list ref) (k : str) (l : list ref) :
  In (k, l) (group_functions_by_name_space REAPER_TYPES h fs) ->
  l <> [] /\ l = filter (in_name_space REAPER_TYPES h k) fs.
Proof.
  intros Hin.
  assert (Hkeys : NoDup (Dict.keys (group_functions_by_name_space REAPER_TYPES h fs))).
  { apply group_loop_keys. constructor. }
  apply (In_get _ _ _ Hkeys) in Hin. rewrite group_get in Hin.
  destruct (filter (in_name_space REAPER_TYPES h k) fs) as [|x l0]; [discriminate|].
  injection Hin as <-. split; [discriminate | reflexivity].
Qed.

(** X9. The table of the classifier is a partition of the input list: its
    keys are pairwise distinct, none of its lists is empty, and the lists
    together hold the input records, each as many times as the input
    does. *)
Theorem classifier_partitions_its_input (fs : list ref) :
  NoDup (Dict.keys (group_functions_by_name_space REAPER_TYPES h fs))
  /\ (forall k l, In (k, l) (group_functions_by_name_space REAPER_TYPES h fs) ->
        l <> [])
  /\ Permutation (entries (group_functions_by_name_space REAPER_TYPES h fs)) fs.
Proof.
  split; [|split].
  - apply group_loop_keys. constructor.
  - intros k l Hin. now apply (group_entry fs k l).
  - apply (group_loop_entries fs []).
Qed.

(** X10. The keys of the table are the namespaces of the input records in
    the order in which they are first met. *)
Theorem classifier_keeps_first_seen_key_order (fs : list ref) :
  Dict.keys (group_functions_by_name_space REAPER_TYPES h fs)
  = first_seen (map (fun r => name_space_of REAPER_TYPES (h r)) fs).
Proof. apply (group_loop_key_order fs []). Qed.

Lemma name_space_of_cases (f : ReaFunc) :
  In (name_space_of REAPER_TYPES f) (strs ["TrackFX"; "TakeFX"; "PCM"; "Reaper"])
  \/ In (name_space_of REAPER_TYPES f) REAPER_TYPES
  \/ (fn_name_space f = Some (name_space_of REAPER_TYPES f)
      /\ mem (name_space_of REAPER_TYPES f) REAPER_NAMESPACES = false).
Proof.
  unfold name_space_of.
  destruct ((opt_eqb (fn_name_space f) "TrackFX" || contains "TrackFX" (reascript_name f))
            && negb (mem (reascript_name f) track_fx_exceptions)).
  { left. simpl. auto. }
  destruct ((opt_eqb (fn_name_space f) "TakeFX" || contains "TakeFX" (reascript_name f))
            && negb (mem (reascript_name f) take_fx_exceptions)).
  { left. simpl. auto. }
  destruct (opt_eqb (fn_name_space f) "PCM"
            || first_argument_in (strs ["PCM_source"; "PCM_sink"]) f).
  { left. simpl. auto. }
  destruct (first_argument_in REAPER_TYPES f) eqn:E.
  { unfold first_argument_in in E. destruct (arguments f) as [|a args]; [discriminate|].
    right. left. now apply mem_In. }
  destruct (fn_name_space f) as [ns|]; [|left; simpl; auto 6].
  destruct (mem ns REAPER_NAMESPACES) eqn:Em; [left; simpl; auto 6|].
  right. right. now split.
Qed.

(** X11. When none of the umbrella's sub-groupings is a handle type, none
    of them is ever a key of the table: their functions are filed under
    [Reaper] or under a handle type. *)
Theorem umbrella_names_are_never_keys (fs : list ref)
    (Hdisjoint : forall k, In k REAPER_NAMESPACES -> ~ In k REAPER_TYPES) :
  forall k, In k (Dict.keys (group_functions_by_name_space REAPER_TYPES h fs)) ->
    ~ In k REAPER_NAMESPACES.
Proof.
  intros k Hk Hns.
  apply in_map_iff in Hk. destruct Hk as ([k' l] & <- & Hin). cbn [fst] in Hns.
  destruct (group_entry fs k' l Hin) as (Hne & Hl).
  destruct l as [|r l]; [contradiction|].
  assert (Hr : In r (filter (in_name_space REAPER_TYPES h k') fs)).
  { rewrite <- Hl. now left. }
  apply filter_In in Hr. destruct Hr as (_ & Hr). apply str_eqb_eq in Hr. subst k'.
  destruct (name_space_of_cases (h r)) as [H|[H|(_ & H)]].
  - apply mem_In in Hns. simpl in H.
    destruct H as [H|[H|[H|[H|[]]]]]; rewrite <- H in Hns; discriminate Hns.
  - now apply (Hdisjoint _ Hns).
  - apply mem_In in Hns. congruence.
Qed.

End Grouping.

Lemma umbrella_names_are_never_keys_witness :
  (forall k, In k REAPER_NAMESPACES -> ~ In k handle_types)
  /\ forall k,
       In k (Dict.keys (group_functions_by_name_space handle_types
                          (two_records (parsed "Audio_Init" (Some ("Audio" : str)) "")
                             (parsed "Undo_CanRedo2" (Some ("Undo" : str)) "ReaProject"))
                          [0; 1])) ->
       ~ In k REAPER_NAMESPACES.
Proof.
  assert (H : forall k, In k REAPER_NAMESPACES -> ~ In k handle_types).
  { intros k Hk Hk'. apply mem_In in Hk'.
    simpl in Hk. repeat (destruct Hk as [<-|Hk]; [discriminate Hk'|]). exact Hk. }
  split; [exact H|].
  exact (umbrella_names_are_never_keys handle_types
           (two_records (parsed "Audio_Init" (Some ("Audio" : str)) "")
              (parsed "Undo_CanRedo2" (Some ("Undo" : str)) "ReaProject"))
           [0; 1] H).
Defined.

(** * Further properties of the name transformer *)

Lemma no_upper_app (a b : str) : no_upper a -> no_upper b -> no_upper (a ++ b).
Proof. intros Ha Hb. apply Forall_app. now split. Qed.

Lemma no_upper_check (s : str) :
  forallb (fun c => negb (Chr.is_upper c)) s = true -> no_upper s.
Proof.
  intros H. apply Forall_forall. intros c Hc.
  apply (proj1 (forallb_forall _ _) H) in Hc. now apply negb_true_iff.
Qed.

Lemma get_or_cases {V : Type} (default : V) (k : str) (d : Dict.t V) :
  Dict.get_or default k d = default \/ In (Dict.get_or default k d) (map snd d).
Proof.
  unfold Dict.get_or. destruct (Dict.get k d) as [v|] eqn:E; [right|now left].
  apply get_In in E. apply in_map_iff. now exists (k, v).
Qed.

(** What [generate_reawrap_name] returns is the escaped snake-cased name or
    one of the curated targets. *)
Lemma generate_reawrap_name_cases (LUA_KEYWORDS : list str) (namespace : str)
    (fn_name_space : option str) (reascript_name : str) :
  (exists s, generate_reawrap_name LUA_KEYWORDS namespace fn_name_space reascript_name
             = escape_keyword LUA_KEYWORDS (to_snake s))
  \/ In (generate_reawrap_name LUA_KEYWORDS namespace fn_name_space reascript_name)
        curated_targets.
Proof.
  unfold generate_reawrap_name. cbv zeta.
  match goal with |- context [escape_keyword LUA_KEYWORDS (to_snake ?x)] =>
    set (s := x) end.
  set (n := escape_keyword LUA_KEYWORDS (to_snake s)).
  destruct (get_or_cases [(n, n)] namespace functions_special_cases) as [E|Hin].
  - rewrite E. left. exists s.
    unfold Dict.get_or. simpl. now rewrite str_eqb_refl.
  - destruct (get_or_cases n n (Dict.get_or [(n, n)] namespace functions_special_cases))
      as [E|Hin'].
    + left. now exists s.
    + right. unfold curated_targets. apply in_concat.
      exists (map snd (Dict.get_or [(n, n)] namespace functions_special_cases)).
      split; [|exact Hin'].
      apply in_map_iff in Hin. destruct Hin as ([k d] & Hd & Hin).
      apply in_map_iff. exists (k, d). simpl in Hd. subst d. now split.
Qed.

Lemma escape_keyword_no_upper (LUA_KEYWORDS : list str) (s : str) :
  no_upper s -> no_upper (escape_keyword LUA_KEYWORDS s).
Proof.
  intros H. unfold escape_keyword. destruct (mem s LUA_KEYWORDS); [|exact H].
  apply no_upper_app; [exact H|]. now apply no_upper_check.
Qed.

(** X12. A target name never holds a capital letter. *)
Theorem target_names_have_no_capitals (LUA_KEYWORDS : list str) (namespace : str)
    (fn_name_space : option str) (reascript_name : str) :
  no_upper (generate_reawrap_name LUA_KEYWORDS namespace fn_name_space reascript_name).
Proof.
  destruct (generate_reawrap_name_cases LUA_KEYWORDS namespace fn_name_space
              reascript_name) as [(s & ->)|Hin].
  - apply escape_keyword_no_upper, to_snake_no_upper.
  - assert (H : Forall no_upper curated_targets).
    { repeat constructor; now apply no_upper_check. }
    now apply (proj1 (Forall_forall _ _) H).
Qed.

Lemma endswith_underscore (s : str) : endswith "_" (s ++ ("_" : str)) = true.
Proof.
  unfold endswith. change (s ++ ("_" : str)) with (s ++ ["_"%char]).
  rewrite rev_unit. reflexivity.
Qed.

(** X13. When no keyword ends in an underscore and no curated target is a
    keyword, a target name is never a keyword of the destination
    language. *)
Theorem target_names_are_not_keywords (LUA_KEYWORDS : list str) (namespace : str)
    (fn_name_space : option str) (reascript_name : str)
    (Hkeywords : forall k, In k LUA_KEYWORDS -> endswith "_" k = false)
    (Htargets : forall t, In t curated_targets -> ~ In t LUA_KEYWORDS) :
  ~ In (generate_reawrap_name LUA_KEYWORDS namespace fn_name_space reascript_name)
       LUA_KEYWORDS.
Proof.
  destruct (generate_reawrap_name_cases LUA_KEYWORDS namespace fn_name_space
              reascript_name) as [(s & ->)|Hin].
  - unfold escape_keyword. destruct (mem (to_snake s) LUA_KEYWORDS) eqn:E.
    + intros H. apply Hkeywords in H. now rewrite endswith_underscore in H.
    + intros H. apply mem_In in H. congruence.
  - now apply Htargets.
Qed.

Lemma target_names_are_not_keywords_witness :
  (forall k, In k lua_reserved_words -> endswith "_" k = false)
  /\ (forall t, In t curated_targets -> ~ In t lua_reserved_words)
  /\ generate_reawrap_name lua_reserved_words "Reaper" None "End" = "end_"
  /\ ~ In (generate_reawrap_name lua_reserved_words "Reaper" None "End")
          lua_reserved_words.
Proof.
  assert (H1 : forall k, In k lua_reserved_words -> endswith "_" k = false).
  { apply Forall_forall. repeat constructor. }
  assert (H2 : forall t, In t curated_targets -> ~ In t lua_reserved_words).
  { apply Forall_forall. repeat constructor; now apply not_a_lua_keyword. }
  split; [exact H1|]. split; [exact H2|]. split; [reflexivity|].
  exact (target_names_are_not_keywords lua_reserved_words "Reaper" None "End" H1 H2).
Defined.

(** * Further properties of the refinement *)

Section RefineHeap.

Variable LUA_KEYWORDS : list str.

Lemma named_under_twice (ns : str) (f : ReaFunc) :
  named_under LUA_KEYWORDS ns (named_under LUA_KEYWORDS ns f)
  = named_under LUA_KEYWORDS ns f.
Proof. reflexivity. Qed.

Lemma refine_loop_visited (ns : str) (fs : list ref) (h : heap) (seen : list str)
    (kept : list ref) (r : ref) :
  In r fs ->
  fst (fst (refine_loop LUA_KEYWORDS ns fs h seen kept)) r
  = named_under LUA_KEYWORDS ns (h r).
Proof.
  revert h seen kept. induction fs as [|func fs IH]; intros h seen kept Hr; [destruct Hr|].
  rewrite refine_loop_cons. cbv zeta.
  set (h' := store h func _).
  assert (Hh' : h' func = named_under LUA_KEYWORDS ns (h func)) by apply store_same.
  assert (G : forall seen' kept',
            fst (fst (refine_loop LUA_KEYWORDS ns fs h' seen' kept')) r
            = named_under LUA_KEYWORDS ns (h r)).
  { intros seen' kept'. destruct (in_dec Nat.eq_dec r fs) as [Hin|Hout].
    - rewrite IH by exact Hin.
      destruct (Nat.eq_dec r func) as [->|Hne].
      + rewrite Hh'. apply named_under_twice.
      + unfold h'. now rewrite store_other.
    - rewrite refine_loop_frame by exact Hout.
      destruct Hr as [<-|Hr]; [exact Hh' | contradiction]. }
  destruct (negb (mem _ seen)); apply G.
Qed.

Lemma refine_namespaces_step (ns : str) (fs : list ref)
    (more : list (str * list ref)) (h : heap)
    (refined : Dict.t (list ref)) (seen_funcs : Dict.t (list str)) :
  exists seen kept refined' seen_funcs',
    refine_namespaces LUA_KEYWORDS ((ns, fs) :: more) h refined seen_funcs
    = refine_namespaces LUA_KEYWORDS more
        (fst (fst (refine_loop LUA_KEYWORDS ns fs h seen kept))) refined' seen_funcs'.
Proof.
  cbn [refine_namespaces].
  set (refined1 := if negb (Dict.has ns refined) then Dict.set ns [] refined else refined).
  set (seen1 := if negb (Dict.has ns seen_funcs) then Dict.set ns [] seen_funcs
                else seen_funcs).
  exists (Dict.get_or [] ns seen1), (Dict.get_or [] ns refined1).
  destruct (refine_loop LUA_KEYWORDS ns fs h (Dict.get_or [] ns seen1)
              (Dict.get_or [] ns refined1)) as [[h' seen] kept].
  now exists (Dict.set ns kept refined1), (Dict.set ns seen seen1).
Qed.

Lemma refine_namespaces_heap (items : list (str * list ref)) (h : heap)
    (refined : Dict.t (list ref)) (seen_funcs : Dict.t (list str)) :
  unshared items = true ->
  (forall r, (forall k l, In (k, l) items -> ~ In r l) ->
     fst (refine_namespaces LUA_KEYWORDS items h refined seen_funcs) r = h r)
  /\ (forall k l r, In (k, l) items -> In r l ->
        fst (refine_namespaces LUA_KEYWORDS items h refined seen_funcs) r
        = named_under LUA_KEYWORDS k (h r)).
Proof.
  revert h refined seen_funcs.
  induction items as [|[ns fs] more IH]; intros h refined seen_funcs Hu.
  - split; [reflexivity | intros k l r []].
  - apply unshared_cons in Hu. destruct Hu as (Hfs & Hmore).
    destruct (refine_namespaces_step ns fs more h refined seen_funcs)
      as (seen & kept & refined' & seen' & ->).
    destruct (IH (fst (fst (refine_loop LUA_KEYWORDS ns fs h seen kept)))
                 refined' seen' Hmore) as (IH1 & IH2).
    split.
    + intros r Hr. rewrite IH1.
      * apply refine_loop_frame. apply (Hr ns fs). now left.
      * intros k l Hl. apply (Hr k l). now right.
    + intros k l r [[= -> ->]|Hl] Hin.
      * rewrite IH1; [now apply refine_loop_visited|].
        intros k' l' Hl'. now apply (Hfs r Hin k' l').
      * rewrite (IH2 k l r Hl Hin).
        rewrite refine_loop_frame; [reflexivity|].
        intros Hr. now apply (Hfs r Hr k l).
Qed.

(** X14. When no record is listed under two namespaces, [refine_functions]
    gives every listed record the target name computed for its namespace,
    kept or not, and changes nothing else: not the other fields of the
    record, and no record that is not listed. *)
Theorem refinement_names_every_listed_record (h : heap) (table : Dict.t (list ref))
    (Hunshared : unshared table = true) :
  (forall k l r, In (k, l) table -> In r l ->
     fst (refine_functions LUA_KEYWORDS h table) r = named_under LUA_KEYWORDS k (h r))
  /\ (forall r, (forall k l, In (k, l) table -> ~ In r l) ->
        fst (refine_functions LUA_KEYWORDS h table) r = h r).
Proof.
  unfold refine_functions.
  set (items := sorted_by (fun item : str * list ref => lower (fst item)) table).
  assert (Hperm : Permutation items table) by apply sorted_by_perm.
  destruct (refine_namespaces_heap items h [] []) as (H1 & H2).
  { apply (unshared_perm table); [now apply Permutation_sym | exact Hunshared]. }
  split.
  - intros k l r Hl Hr. apply (H2 k l r); [|exact Hr].
    apply (Permutation_in _ (Permutation_sym Hperm) Hl).
  - intros r Hr. apply H1. intros k l Hl. apply (Hr k l).
    apply (Permutation_in _ Hperm Hl).
Qed.

End RefineHeap.

Lemma refinement_names_every_listed_record_witness :
  unshared [("MediaTrack" : str, [0]); ("Reaper" : str, [1])] = true
  /\ reawrap_name
       (fst (refine_functions lua_reserved_words
               (two_records (parsed "TrackFX_GetCount" (Some ("TrackFX" : str)) "MediaTrack")
                            (parsed "GetAppVersion" None ""))
               [("MediaTrack" : str, [0]); ("Reaper" : str, [1])]) 0)
     = Some ("get_fx_count" : str).
Proof.
  split; [reflexivity|].
  rewrite (proj1 (refinement_names_every_listed_record lua_reserved_words
                    (two_records
                       (parsed "TrackFX_GetCount" (Some ("TrackFX" : str)) "MediaTrack")
                       (parsed "GetAppVersion" None ""))
                    [("MediaTrack" : str, [0]); ("Reaper" : str, [1])] eq_refl)
             ("MediaTrack" : str) [0] 0 (or_introl eq_refl) (or_introl eq_refl)).
  reflexivity.
Defined.

(** ** The order of the namespaces *)

Lemma str_ltb_asym (a b : str) : str_ltb a b = true -> str_ltb b a = false.
Proof.
  revert b. induction a as [|x a IH]; intros [|y b]; simpl; try discriminate; try reflexivity.
  intros H. apply orb_true_iff in H. apply orb_false_iff.
  destruct H as [H|H].
  - apply Nat.ltb_lt in H. split.
    + apply Nat.ltb_ge. lia.
    + apply andb_false_iff. left. apply Nat.eqb_neq. lia.
  - apply andb_true_iff in H. destruct H as (H1 & H2). apply Nat.eqb_eq in H1.
    split.
    + apply Nat.ltb_ge. lia.
    + apply andb_false_iff. right. now apply IH.
Qed.

Lemma ascending_cons (a : str) (l : list str) :
  ascending (a :: l) = true
  <-> match l with [] => True | b :: _ => str_ltb b a = false end
      /\ ascending l = true.
Proof.
  destruct l as [|b l]; [simpl; tauto|].
  change (ascending (a :: b :: l)) with (negb (str_ltb b a) && ascending (b :: l)).
  rewrite andb_true_iff, negb_true_iff. tauto.
Qed.

Lemma insert_by_ascending {A : Type} (key : A -> str) (x : A) (l : list A) :
  ascending (map key l) = true -> ascending (map key (insert_by key x l)) = true.
Proof.
  induction l as [|y l IH]; [reflexivity|].
  cbn [insert_by map]. intros H. apply ascending_cons in H. destruct H as (Hy & Hl).
  destruct (str_ltb (key x) (key y)) eqn:E.
  - cbn [map]. apply ascending_cons. split; [now apply str_ltb_asym|].
    apply ascending_cons. now split.
  - cbn [map]. apply ascending_cons. split; [|now apply IH].
    destruct l as [|z l]; cbn [insert_by map]; [exact E|].
    destruct (str_ltb (key x) (key z)); cbn [map]; [exact E | exact Hy].
Qed.

Lemma sorted_by_ascending {A : Type} (key : A -> str) (l : list A) :
  ascending (map key (sorted_by key l)) = true.
Proof.
  unfold sorted_by.
  assert (H : forall acc, ascending (map key acc) = true ->
                ascending (map key (fold_left (fun acc x => insert_by key x acc) l acc))
                = true).
  { induction l as [|x l IH]; intros acc Hacc; [exact Hacc|].
    simpl. apply IH. now apply insert_by_ascending. }
  now apply H.
Qed.

Lemma refine_namespaces_keys (LUA_KEYWORDS : list str) (items : list (str * list ref))
    (h : heap) (refined : Dict.t (list ref)) (seen_funcs : Dict.t (list str)) :
  NoDup (map fst items) ->
  (forall k, In k (map fst items) ->
     Dict.get k refined = None /\ Dict.get k seen_funcs = None) ->
  Dict.keys (snd (refine_namespaces LUA_KEYWORDS items h refined seen_funcs))
  = Dict.keys refined ++ map fst items.
Proof.
  revert h refined seen_funcs.
  induction items as [|[ns fs] more IH]; intros h refined seen_funcs Hkeys Hfresh.
  - simpl. now rewrite app_nil_r.
  - destruct (Hfresh ns (or_introl eq_refl)) as (F1 & F2).
    rewrite refine_namespaces_cons by assumption.
    inversion Hkeys as [|? ? Hns Hkeys']; subst.
    rewrite IH.
    + rewrite !keys_set. unfold Dict.has. rewrite get_set_eq, F1.
      rewrite <- app_assoc. reflexivity.
    + exact Hkeys'.
    + intros k Hk. assert (Hne : ns <> k) by (intros ->; contradiction).
      rewrite !get_set_neq by exact Hne. apply Hfresh. now right.
Qed.

(** X15. The refined table has the namespaces of the input table, each
    once, in case-insensitive ascending order. *)
Theorem refined_namespaces_are_sorted (LUA_KEYWORDS : list str) (h : heap)
    (table : Dict.t (list ref)) (Hkeys : NoDup (Dict.keys table)) :
  Permutation (Dict.keys (snd (refine_functions LUA_KEYWORDS h table))) (Dict.keys table)
  /\ NoDup (Dict.keys (snd (refine_functions LUA_KEYWORDS h table)))
  /\ ascending (map lower (Dict.keys (snd (refine_functions LUA_KEYWORDS h table))))
     = true.
Proof.
  unfold refine_functions.
  set (key := fun item : str * list ref => lower (fst item)).
  pose proof (sorted_by_perm key table) as Hperm.
  assert (Hnodup : NoDup (map fst (sorted_by key table))).
  { apply (Permutation_NoDup (l := map fst table)); [|exact Hkeys].
    apply Permutation_map, Permutation_sym, Hperm. }
  rewrite refine_namespaces_keys; [|exact Hnodup|now split]. cbn [Dict.keys map app].
  split; [|split].
  - now apply Permutation_map.
  - exact Hnodup.
  - rewrite map_map. apply (sorted_by_ascending key).
Qed.

Lemma refined_namespaces_are_sorted_witness :
  NoDup (Dict.keys [("Reaper" : str, [0]); ("PCM" : str, [1]); ("reaper_x" : str, [2]);
                    ("MediaTrack" : str, [3])])
  /\ Dict.keys (snd (refine_functions lua_reserved_words
                       (two_records (parsed "GetAppVersion" None "")
                                    (parsed "CountTracks" None ""))
                       [("Reaper" : str, [0]); ("PCM" : str, [1]);
                        ("reaper_x" : str, [2]); ("MediaTrack" : str, [3])]))
     = strs ["MediaTrack"; "PCM"; "Reaper"; "reaper_x"]
  /\ ascending (map lower
       (Dict.keys (snd (refine_functions lua_reserved_words
                          (two_records (parsed "GetAppVersion" None "")
                                       (parsed "CountTracks" None ""))
                          [("Reaper" : str, [0]); ("PCM" : str, [1]);
                           ("reaper_x" : str, [2]); ("MediaTrack" : str, [3])]))))
     = true.
Proof.
  assert (H : NoDup (Dict.keys [("Reaper" : str, [0]); ("PCM" : str, [1]);
                                ("reaper_x" : str, [2]); ("MediaTrack" : str, [3])])).
  { apply distinct_NoDup. reflexivity. }
  split; [exact H|]. split; [reflexivity|].
  exact (proj2 (proj2 (refined_namespaces_are_sorted lua_reserved_words
                         (two_records (parsed "GetAppVersion" None "")
                                      (parsed "CountTracks" None ""))
                         _ H))).
Defined.

(** ** What the refinement keeps *)

Lemma subsequence_tail (x : ref) (l fs : list ref) :
  subsequence (x :: l) fs = true -> subsequence l fs = true.
Proof.
  revert x l. induction fs as [|y fs IH]; intros x l H; [discriminate H|].
  assert (W : forall l', subsequence l' fs = true -> subsequence l' (y :: fs) = true).
  { intros [|x' l'] H'; [reflexivity|]. cbn [subsequence].
    destruct (x' =? y); [now apply (IH x')|exact H']. }
  cbn [subsequence] in H. destruct (x =? y); apply W; [exact H|now apply (IH x)].
Qed.

Lemma subsequence_skip (y : ref) (l fs : list ref) :
  subsequence l fs = true -> subsequence l (y :: fs) = true.
Proof.
  destruct l as [|x l]; [reflexivity|]. intros H. cbn [subsequence].
  destruct (x =? y); [now apply (subsequence_tail x)|exact H].
Qed.

Lemma subsequence_take (y : ref) (l fs : list ref) :
  subsequence l fs = true -> subsequence (y :: l) (y :: fs) = true.
Proof. intros H. cbn [subsequence]. now rewrite Nat.eqb_refl. Qed.

Section RefineKept.

Variable LUA_KEYWORDS : list str.

Let new_name (ns : str) (f : ReaFunc) : str :=
  generate_reawrap_name LUA_KEYWORDS ns (fn_name_space f) (reascript_name f).

Lemma refine_loop_picks (ns : str) (fs : list ref) (h : heap) (seen : list str)
    (kept : list ref) :
  (exists picked,
      snd (refine_loop LUA_KEYWORDS ns fs h seen kept) = kept ++ picked
      /\ subsequence picked fs = true)
  /\ (forall n, In n seen ->
        In n (snd (fst (refine_loop LUA_KEYWORDS ns fs h seen kept))))
  /\ (forall r, In r fs ->
        In (new_name ns (h r)) (snd (fst (refine_loop LUA_KEYWORDS ns fs h seen kept)))).
Proof.
  revert h seen kept. induction fs as [|func fs IH]; intros h seen kept.
  - split; [|split].
    + exists []. split; [now rewrite app_nil_r | reflexivity].
    + now intros n Hn.
    + intros r [].
  - rewrite refine_loop_cons. cbv zeta.
    set (n := generate_reawrap_name LUA_KEYWORDS ns (fn_name_space (h func))
                (reascript_name (h func))).
    set (h' := store h func (with_reawrap_name (Some n) (h func))).
    assert (Hsame : forall r, new_name ns (h' r) = new_name ns (h r)).
    { intros r. unfold h'. destruct (Nat.eq_dec r func) as [->|Hne].
      - now rewrite store_same.
      - now rewrite store_other. }
    destruct (mem n seen) eqn:Eseen; cbn [negb].
    + destruct (IH h' seen kept) as ((picked & E & Hsub) & Hseen & Hfs).
      split; [|split].
      * exists picked. split; [exact E | now apply subsequence_skip].
      * exact Hseen.
      * intros r [<-|Hr].
        -- apply Hseen. now apply mem_In.
        -- rewrite <- Hsame. now apply Hfs.
    + destruct (IH h' (seen ++ [n]) (kept ++ [func])) as ((picked & E & Hsub) & Hseen & Hfs).
      split; [|split].
      * exists (func :: picked). split; [|now apply subsequence_take].
        rewrite E, <- app_assoc. reflexivity.
      * intros m Hm. apply Hseen. apply in_or_app. now left.
      * intros r [<-|Hr].
        -- apply Hseen. apply in_or_app. right. now left.
        -- rewrite <- Hsame. now apply Hfs.
Qed.

Lemma refine_loop_names (ns : str) (fs : list ref) (h : heap) (seen : list str)
    (kept : list ref) :
  target_names h kept = map Some seen ->
  (forall r, In r kept -> reawrap_name (h r) = Some (new_name ns (h r))) ->
  target_names (fst (fst (refine_loop LUA_KEYWORDS ns fs h seen kept)))
    (snd (refine_loop LUA_KEYWORDS ns fs h seen kept))
  = map Some (snd (fst (refine_loop LUA_KEYWORDS ns fs h seen kept))).
Proof.
  revert h seen kept. induction fs as [|func fs IH]; intros h seen kept Hnames Hkept.
  - exact Hnames.
  - rewrite refine_loop_cons. cbv zeta.
    set (n := generate_reawrap_name LUA_KEYWORDS ns (fn_name_space (h func))
                (reascript_name (h func))).
    set (h' := store h func (with_reawrap_name (Some n) (h func))).
    assert (Hnames' : target_names h' kept = map Some seen).
    { rewrite <- Hnames. unfold target_names. apply map_ext_in.
      intros r Hr. unfold h'. destruct (Nat.eq_dec r func) as [->|Hne].
      - rewrite store_same. simpl. symmetry. now apply Hkept.
      - now rewrite store_other. }
    assert (Hfunc : reawrap_name (h' func) = Some (new_name ns (h' func))).
    { unfold h'. rewrite store_same. reflexivity. }
    assert (Hkept' : forall r, In r kept ->
                       reawrap_name (h' r) = Some (new_name ns (h' r))).
    { intros r Hr. destruct (Nat.eq_dec r func) as [->|Hne]; [exact Hfunc|].
      unfold h'. rewrite store_other by exact Hne. now apply Hkept. }
    destruct (mem n seen) eqn:Eseen; cbn [negb].
    + now apply IH.
    + apply IH.
      * unfold target_names in *. rewrite !map_app, Hnames'. simpl.
        unfold h'. now rewrite store_same.
      * intros r Hr. apply in_app_or in Hr. destruct Hr as [Hr|[<-|[]]].
        -- now apply Hkept'.
        -- exact Hfunc.
Qed.

Lemma refine_loop_covers (ns : str) (fs : list ref) (h : heap) (r : ref) :
  In r fs ->
  exists r', In r' (snd (refine_loop LUA_KEYWORDS ns fs h [] []))
    /\ In r' fs
    /\ reawrap_name (fst (fst (refine_loop LUA_KEYWORDS ns fs h [] [])) r')
       = reawrap_name (fst (fst (refine_loop LUA_KEYWORDS ns fs h [] [])) r).
Proof.
  intros Hr.
  destruct (refine_loop_picks ns fs h [] []) as (_ & _ & Hfs).
  specialize (Hfs r Hr). apply (in_map Some) in Hfs.
  rewrite <- refine_loop_names in Hfs; [|reflexivity|intros r' []].
  unfold target_names in Hfs. apply in_map_iff in Hfs. destruct Hfs as (r' & E & Hr').
  exists r'. split; [exact Hr'|]. split.
  - apply refine_loop_subset in Hr'. now destruct Hr' as [[]|Hr'].
  - rewrite E. now rewrite (refine_loop_visited LUA_KEYWORDS ns fs h [] [] r Hr).
Qed.

Lemma refine_namespaces_get_other (items : list (str * list ref)) (h : heap)
    (refined : Dict.t (list ref)) (seen_funcs : Dict.t (list str)) (k0 : str) :
  NoDup (map fst items) ->
  (forall k, In k (map fst items) ->
     Dict.get k refined = None /\ Dict.get k seen_funcs = None) ->
  ~ In k0 (map fst items) ->
  Dict.get k0 (snd (refine_namespaces LUA_KEYWORDS items h refined seen_funcs))
  = Dict.get k0 refined.
Proof.
  revert h refined seen_funcs.
  induction items as [|[ns fs] more IH]; intros h refined seen_funcs Hkeys Hfresh Hk0;
    [reflexivity|].
  destruct (Hfresh ns (or_introl eq_refl)) as (F1 & F2).
  rewrite refine_namespaces_cons by assumption.
  inversion Hkeys as [|? ? Hns Hkeys']; subst.
  assert (Hne0 : ns <> k0) by (intros ->; apply Hk0; now left).
  rewrite IH.
  - now rewrite !get_set_neq by exact Hne0.
  - exact Hkeys'.
  - intros k Hk. assert (Hne : ns <> k) by (intros ->; contradiction).
    rewrite !get_set_neq by exact Hne. apply Hfresh. now right.
  - intros H. apply Hk0. now right.
Qed.

Lemma refine_namespaces_kept (items : list (str * list ref)) (h : heap)
    (refined : Dict.t (list ref)) (seen_funcs : Dict.t (list str)) :
  NoDup (map fst items) ->
  (forall k, In k (map fst items) ->
     Dict.get k refined = None /\ Dict.get k seen_funcs = None) ->
  unshared items = true ->
  forall k fs, In (k, fs) items ->
  exists kept,
    Dict.get k (snd (refine_namespaces LUA_KEYWORDS items h refined seen_funcs))
    = Some kept
    /\ subsequence kept fs = true
    /\ forall r, In r fs ->
         exists r', In r' kept
           /\ reawrap_name
                (fst (refine_namespaces LUA_KEYWORDS items h refined seen_funcs) r')
              = reawrap_name
                  (fst (refine_namespaces LUA_KEYWORDS items h refined seen_funcs) r).
Proof.
  revert h refined seen_funcs.
  induction items as [|[ns fs0] more IH];
    intros h refined seen_funcs Hkeys Hfresh Hu k fs Hin; [destruct Hin|].
  destruct (Hfresh ns (or_introl eq_refl)) as (F1 & F2).
  rewrite refine_namespaces_cons by assumption.
  inversion Hkeys as [|? ? Hns Hkeys']; subst.
  apply unshared_cons in Hu. destruct Hu as (Hfs & Hmore).
  assert (Hfresh' : forall k', In k' (map fst more) ->
            Dict.get k' (Dict.set ns (snd (refine_loop LUA_KEYWORDS ns fs0 h [] []))
                           (Dict.set ns [] refined)) = None
            /\ Dict.get k' (Dict.set ns (snd (fst (refine_loop LUA_KEYWORDS ns fs0 h [] [])))
                              (Dict.set ns [] seen_funcs)) = None).
  { intros k' Hk'. assert (Hne : ns <> k') by (intros ->; contradiction).
    rewrite !get_set_neq by exact Hne. apply Hfresh. now right. }
  destruct Hin as [[= -> ->]|Hin].
  - exists (snd (refine_loop LUA_KEYWORDS k fs h [] [])). split; [|split].
    + rewrite refine_namespaces_get_other by assumption. apply get_set_eq.
    + destruct (refine_loop_picks k fs h [] []) as ((picked & -> & Hsub) & _).
      exact Hsub.
    + intros r Hr. destruct (refine_loop_covers k fs h r Hr) as (r' & Hr' & Hr'fs & E).
      exists r'. split; [exact Hr'|].
      destruct (refine_namespaces_heap LUA_KEYWORDS more
                  (fst (fst (refine_loop LUA_KEYWORDS k fs h [] [])))
                  (Dict.set k (snd (refine_loop LUA_KEYWORDS k fs h [] []))
                     (Dict.set k [] refined))
                  (Dict.set k (snd (fst (refine_loop LUA_KEYWORDS k fs h [] [])))
                     (Dict.set k [] seen_funcs)) Hmore) as (H1 & _).
      rewrite (H1 r'), (H1 r); [exact E| |].
      * intros k' l' Hl'. now apply (Hfs r Hr k' l').
      * intros k' l' Hl'. now apply (Hfs r' Hr'fs k' l').
  - now apply IH.
Qed.

(** X16. In a table whose namespaces are distinct and share no record,
    the list [refine_functions] leaves under a namespace is drawn from the
    input list in its order, and every record of the input list has its
    target name carried by a record that is kept. *)
Theorem refinement_keeps_one_record_per_name (h : heap) (table : Dict.t (list ref))
    (Hkeys : NoDup (Dict.keys table)) (Hunshared : unshared table = true)
    (k : str) (fs : list ref) (Hin : In (k, fs) table) :
  exists kept,
    Dict.get k (snd (refine_functions LUA_KEYWORDS h table)) = Some kept
    /\ subsequence kept fs = true
    /\ forall r, In r fs ->
         exists r', In r' kept
           /\ reawrap_name (fst (refine_functions LUA_KEYWORDS h table) r')
              = reawrap_name (fst (refine_functions LUA_KEYWORDS h table) r).
Proof.
  unfold refine_functions.
  set (key := fun item : str * list ref => lower (fst item)).
  pose proof (sorted_by_perm key table) as Hperm.
  apply refine_namespaces_kept.
  - apply (Permutation_NoDup (l := map fst table)); [|exact Hkeys].
    apply Permutation_map, Permutation_sym, Hperm.
  - now split.
  - apply (unshared_perm table); [now apply Permutation_sym | exact Hunshared].
  - apply (Permutation_in _ (Permutation_sym Hperm) Hin).
Qed.

End RefineKept.

Lemma refinement_keeps_one_record_per_name_witness :
  NoDup (Dict.keys [("MediaTrack" : str, [0; 1])])
  /\ unshared [("MediaTrack" : str, [0; 1])] = true
  /\ In ("MediaTrack" : str, [0; 1]) [("MediaTrack" : str, [0; 1])]
  /\ Dict.get "MediaTrack"
       (snd (refine_functions lua_reserved_words
               (two_records (parsed "TrackFX_GetCount" (Some ("TrackFX" : str)) "MediaTrack")
                            (parsed "TrackFX_GetCount" (Some ("TrackFX" : str)) "MediaTrack"))
               [("MediaTrack" : str, [0; 1])]))
     = Some [0]
  /\ exists kept,
       Dict.get "MediaTrack"
         (snd (refine_functions lua_reserved_words
                 (two_records (parsed "TrackFX_GetCount" (Some ("TrackFX" : str)) "MediaTrack")
                              (parsed "TrackFX_GetCount" (Some ("TrackFX" : str)) "MediaTrack"))
                 [("MediaTrack" : str, [0; 1])]))
       = Some kept
       /\ subsequence kept [0; 1] = true.
Proof.
  assert (H1 : NoDup (Dict.keys [("MediaTrack" : str, [0; 1])])).
  { apply distinct_NoDup. reflexivity. }
  assert (H2 : In ("MediaTrack" : str, [0; 1]) [("MediaTrack" : str, [0; 1])]).
  { now left. }
  split; [exact H1|]. split; [reflexivity|]. split; [exact H2|]. split; [reflexivity|].
  destruct (refinement_keeps_one_record_per_name lua_reserved_words
              (two_records (parsed "TrackFX_GetCount" (Some ("TrackFX" : str)) "MediaTrack")
                           (parsed "TrackFX_GetCount" (Some ("TrackFX" : str)) "MediaTrack"))
              [("MediaTrack" : str, [0; 1])] H1 eq_refl "MediaTrack" [0; 1] H2)
    as (kept & E & Hsub & _).
  exists kept. split; [exact E | exact Hsub].
Defined.

(** * Further properties of the deduplication *)

Lemma same_argument_refl (a : ReaType) : same_argument a a.
Proof. now repeat split. Qed.

Lemma same_argument_trans (a b c : ReaType) :
  same_argument a b -> same_argument b c -> same_argument a c.
Proof.
  intros (H1 & H2 & H3 & H4) (G1 & G2 & G3 & G4).
  repeat split; congruence.
Qed.

Lemma same_arguments_refl (l : list ReaType) : Forall2 same_argument l l.
Proof. induction l; constructor; [apply same_argument_refl | assumption]. Qed.

Lemma same_arguments_trans (l1 l2 l3 : list ReaType) :
  Forall2 same_argument l1 l2 -> Forall2 same_argument l2 l3 ->
  Forall2 same_argument l1 l3.
Proof.
  intros H. revert l3. induction H as [|a b l1 l2 Hab H IH]; intros l3 G.
  - inversion G. constructor.
  - inversion G as [|? c ? l3' Hbc G']; subst. constructor.
    + now apply (same_argument_trans a b c).
    + now apply IH.
Qed.

Lemma same_argument_want_master (a : ReaType) : same_argument a (want_master a).
Proof.
  unfold want_master. destruct (opt_eqb (name a) "wantmaster"); now repeat split.
Qed.

Lemma same_arguments_want_master (l : list ReaType) :
  Forall2 same_argument l (map want_master l).
Proof.
  induction l; constructor; [apply same_argument_want_master | assumption].
Qed.

Lemma renamed_only_refl (f : ReaFunc) : renamed_only f f.
Proof. repeat split. apply same_arguments_refl. Qed.

Lemma renamed_only_trans (f g k : ReaFunc) :
  renamed_only f g -> renamed_only g k -> renamed_only f k.
Proof.
  intros (H1 & H2 & H3 & H4 & H5 & H6 & H7) (G1 & G2 & G3 & G4 & G5 & G6 & G7).
  repeat split; try congruence.
  now apply (same_arguments_trans _ (arguments g)).
Qed.

Lemma renamed_only_rename (n : str) (f : ReaFunc) : renamed_only f (rename n f).
Proof. repeat split. apply same_arguments_refl. Qed.

Lemma renamed_only_rename_want_master (n : str) (f : ReaFunc) :
  renamed_only f (rename_want_master n f).
Proof. repeat split. apply same_arguments_want_master. Qed.

Lemma curated_renamed_only (ns : str) (f f' : ReaFunc) :
  curated ns f = Some f' -> renamed_only f f'.
Proof.
  unfold curated.
  repeat match goal with
         | |- context [named ?n ns f] => destruct (named n ns f)
         end;
    intros [= <-] || discriminate;
    first [ apply renamed_only_rename_want_master
          | apply renamed_only_rename
          | apply renamed_only_refl ].
Qed.

Lemma dedupe_loop_renamed_only (ns : str) (fs : list ref) (h : heap)
    (seen : list (option str)) (kept : list ref) (r : ref) :
  renamed_only (h r) (fst (dedupe_loop ns fs h seen kept) r).
Proof.
  revert h seen kept. induction fs as [|func fs IH]; intros h seen kept.
  - apply renamed_only_refl.
  - rewrite dedupe_loop_cons.
    destruct (docs_mention "deprecated" (h func)); [apply IH|].
    destruct (docs_mention "discouraged" (h func)); [apply IH|].
    destruct (curated ns (h func)) as [f|] eqn:Ec; [|apply IH].
    assert (G : renamed_only (h r) (store h func f r)).
    { destruct (Nat.eq_dec r func) as [->|Hne].
      - rewrite store_same. now apply (curated_renamed_only ns).
      - rewrite store_other by exact Hne. apply renamed_only_refl. }
    destruct (negb (seen_has (reawrap_name f) seen));
      apply (renamed_only_trans _ _ _ G), IH.
Qed.

Lemma dedupe_namespaces_renamed_only (items : list (str * list ref)) (h : heap)
    (deduped : Dict.t (list ref)) (r : ref) :
  renamed_only (h r) (fst (dedupe_namespaces items h deduped) r).
Proof.
  revert h deduped. induction items as [|[ns fs] more IH]; intros h deduped.
  - apply renamed_only_refl.
  - rewrite dedupe_namespaces_cons.
    apply (renamed_only_trans _ (fst (dedupe_loop ns fs h [] []) r)).
    + apply dedupe_loop_renamed_only.
    + apply IH.
Qed.

Lemma same_constants_refl (c : option (list ReaType)) : same_constants c c.
Proof. destruct c as [l|]; [apply same_arguments_refl | exact I]. Qed.

Lemma renamed_only_same_but_names (f f' : ReaFunc) :
  renamed_only f f' -> same_but_names f f'.
Proof.
  intros (H1 & H2 & H3 & H4 & H5 & H6 & H7).
  split; [exact H1|]. split; [exact H2|]. split; [exact H3|]. split; [exact H5|].
  split; [exact H7|]. split.
  - rewrite H4. apply same_arguments_refl.
  - rewrite H6. apply same_constants_refl.
Qed.

(** X17. On any table, [dedupe_functions] writes nothing of a record but
    its target name, and nothing of an argument, a return value or a
    constant but its name and its optional flag: the signature, the source
    name, the namespace token and the documentation of every record stay,
    and so do the lengths of its three lists and the type, description,
    pointer flag and default of every item in them. *)
Theorem deduplication_changes_only_names (h : heap) (table : Dict.t (list ref))
    (r : ref) :
  same_but_names (h r) (fst (dedupe_functions h table) r).
Proof. apply renamed_only_same_but_names, dedupe_namespaces_renamed_only. Qed.

(** ** Records outside [ReaProject] *)

Lemma dedupe_namespaces_outside (items : list (str * list ref)) (h : heap)
    (deduped : Dict.t (list ref)) (r : ref) :
  (forall l, In ("ReaProject" : str, l) items -> ~ In r l) ->
  fst (dedupe_namespaces items h deduped) r = h r.
Proof.
  revert h deduped. induction items as [|[ns fs] more IH]; intros h deduped Hr.
  - reflexivity.
  - rewrite dedupe_namespaces_cons. rewrite IH.
    + destruct (str_eqb ns "ReaProject") eqn:Ens.
      * apply str_eqb_eq in Ens. subst ns.
        apply dedupe_loop_frame. apply Hr. now left.
      * now apply dedupe_loop_elsewhere.
    + intros l Hl. apply Hr. now right.
Qed.

(** X18. A record that is not listed under [ReaProject] comes out of
    [dedupe_functions] with the target name it went in with: the curated
    renames of target names apply under that namespace only. *)
Theorem deduplication_renames_under_ReaProject_only (h : heap)
    (table : Dict.t (list ref)) (r : ref)
    (Houtside : forall l, In ("ReaProject" : str, l) table -> ~ In r l) :
  reawrap_name (fst (dedupe_functions h table) r) = reawrap_name (h r).
Proof. apply f_equal. now apply dedupe_namespaces_outside. Qed.

Lemma deduplication_renames_under_ReaProject_only_witness :
  (forall l, In ("ReaProject" : str, l)
               [("Project" : str, [0]); ("ReaProject" : str, [1])] -> ~ In 0 l)
  /\ reawrap_name
       (fst (dedupe_functions
               (two_records (refined_as "AddProjectMarker2" "add_project_marker2" None)
                            (refined_as "AddProjectMarker2" "add_project_marker2" None))
               [("Project" : str, [0]); ("ReaProject" : str, [1])]) 0)
     = Some ("add_project_marker2" : str)
  /\ reawrap_name
       (fst (dedupe_functions
               (two_records (refined_as "AddProjectMarker2" "add_project_marker2" None)
                            (refined_as "AddProjectMarker2" "add_project_marker2" None))
               [("Project" : str, [0]); ("ReaProject" : str, [1])]) 1)
     = Some ("add_project_marker" : str).
Proof.
  assert (H : forall l, In ("ReaProject" : str, l)
                          [("Project" : str, [0]); ("ReaProject" : str, [1])] ->
                        ~ In 0 l).
  { intros l [E|[E|[]]].
    - vm_compute in E. discriminate E.
    - injection E as <-. intros [E'|[]]. discriminate E'. }
  split; [exact H|]. split; [|reflexivity].
  exact (deduplication_renames_under_ReaProject_only
           (two_records (refined_as "AddProjectMarker2" "add_project_marker2" None)
                        (refined_as "AddProjectMarker2" "add_project_marker2" None))
           [("Project" : str, [0]); ("ReaProject" : str, [1])] 0 H).
Defined.

(** ** The namespaces and the order of the records *)

Lemma dedupe_loop_picks (ns : str) (fs : list ref) (h : heap)
    (seen : list (option str)) (kept : list ref) :
  exists picked,
    snd (dedupe_loop ns fs h seen kept) = kept ++ picked
    /\ subsequence picked fs = true.
Proof.
  revert h seen kept. induction fs as [|func fs IH]; intros h seen kept.
  - exists []. split; [now rewrite app_nil_r | reflexivity].
  - rewrite dedupe_loop_cons.
    assert (Skip : forall h' seen',
              exists picked,
                snd (dedupe_loop ns fs h' seen' kept) = kept ++ picked
                /\ subsequence picked (func :: fs) = true).
    { intros h' seen'. destruct (IH h' seen' kept) as (picked & E & Hsub).
      exists picked. split; [exact E | now apply subsequence_skip]. }
    destruct (docs_mention "deprecated" (h func)); [apply Skip|].
    destruct (docs_mention "discouraged" (h func)); [apply Skip|].
    destruct (curated ns (h func)) as [f|]; [|apply Skip].
    destruct (negb (seen_has (reawrap_name f) seen)); [|apply Skip].
    destruct (IH (store h func f) (seen ++ [reawrap_name f]) (kept ++ [func]))
      as (picked & E & Hsub).
    exists (func :: picked). split; [|now apply subsequence_take].
    rewrite E, <- app_assoc. reflexivity.
Qed.

Lemma dedupe_namespaces_keys (items : list (str * list ref)) (h : heap)
    (deduped : Dict.t (list ref)) :
  NoDup (map fst items) ->
  (forall k, In k (map fst items) -> Dict.get k deduped = None) ->
  Dict.keys (snd (dedupe_namespaces items h deduped))
  = Dict.keys deduped ++ map fst items.
Proof.
  revert h deduped. induction items as [|[ns fs] more IH]; intros h deduped Hkeys Hfresh.
  - simpl. now rewrite app_nil_r.
  - rewrite dedupe_namespaces_cons.
    inversion Hkeys as [|? ? Hns Hkeys']; subst.
    rewrite IH.
    + rewrite keys_set. unfold Dict.has.
      rewrite (Hfresh ns (or_introl eq_refl)), <- app_assoc. reflexivity.
    + exact Hkeys'.
    + intros k Hk. assert (Hne : ns <> k) by (intros ->; contradiction).
      rewrite get_set_neq by exact Hne. apply Hfresh. now right.
Qed.

Lemma dedupe_namespaces_get_other (items : list (str * list ref)) (h : heap)
    (deduped : Dict.t (list ref)) (k0 : str) :
  ~ In k0 (map fst items) ->
  Dict.get k0 (snd (dedupe_namespaces items h deduped)) = Dict.get k0 deduped.
Proof.
  revert h deduped. induction items as [|[ns fs] more IH]; intros h deduped Hk0;
    [reflexivity|].
  rewrite dedupe_namespaces_cons, IH.
  - apply get_set_neq. intros ->. apply Hk0. now left.
  - intros H. apply Hk0. now right.
Qed.

Lemma dedupe_namespaces_kept (items : list (str * list ref)) (h : heap)
    (deduped : Dict.t (list ref)) :
  NoDup (map fst items) ->
  forall k fs, In (k, fs) items ->
  exists kept,
    Dict.get k (snd (dedupe_namespaces items h deduped)) = Some kept
    /\ subsequence kept fs = true.
Proof.
  revert h deduped. induction items as [|[ns fs0] more IH];
    intros h deduped Hkeys k fs Hin; [destruct Hin|].
  rewrite dedupe_namespaces_cons.
  inversion Hkeys as [|? ? Hns Hkeys']; subst.
  destruct Hin as [[= -> ->]|Hin]; [|now apply IH].
  exists (snd (dedupe_loop k fs h [] [])). split.
  - rewrite dedupe_namespaces_get_other by exact Hns. apply get_set_eq.
  - destruct (dedupe_loop_picks k fs h [] []) as (picked & -> & Hsub). exact Hsub.
Qed.

(** X19. [dedupe_functions] keeps every namespace of a table with distinct
    namespaces, in the order of the table, also one all of whose records
    are dropped; the list it leaves under a namespace is drawn from the
    input list in its order. *)
Theorem deduplication_keeps_every_namespace (h : heap) (table : Dict.t (list ref))
    (Hkeys : NoDup (Dict.keys table)) :
  Dict.keys (snd (dedupe_functions h table)) = Dict.keys table
  /\ forall k fs, In (k, fs) table ->
       exists kept,
         Dict.get k (snd (dedupe_functions h table)) = Some kept
         /\ subsequence kept fs = true.
Proof.
  split.
  - unfold dedupe_functions. now rewrite dedupe_namespaces_keys.
  - now apply dedupe_namespaces_kept.
Qed.

Lemma deduplication_keeps_every_namespace_witness :
  NoDup (Dict.keys [("Reaper" : str, [0]); ("ReaProject" : str, [1; 0])])
  /\ snd (dedupe_functions
            (two_records
               (refined_as "GetTrackMIDINoteName" "get_track_midi_note_name"
                  (Some ("Deprecated, see GetTrackMIDINoteNameEx" : str)))
               (refined_as "GetAppVersion" "get_app_version" None))
            [("Reaper" : str, [0]); ("ReaProject" : str, [1; 0])])
     = [("Reaper" : str, []); ("ReaProject" : str, [1])]
  /\ Dict.keys
       (snd (dedupe_functions
               (two_records
                  (refined_as "GetTrackMIDINoteName" "get_track_midi_note_name"
                     (Some ("Deprecated, see GetTrackMIDINoteNameEx" : str)))
                  (refined_as "GetAppVersion" "get_app_version" None))
               [("Reaper" : str, [0]); ("ReaProject" : str, [1; 0])]))
     = Dict.keys [("Reaper" : str, [0]); ("ReaProject" : str, [1; 0])].
Proof.
  assert (H : NoDup (Dict.keys [("Reaper" : str, [0]); ("ReaProject" : str, [1; 0])])).
  { apply distinct_NoDup. reflexivity. }
  split; [exact H|]. split; [reflexivity|].
  exact (proj1 (deduplication_keeps_every_namespace
                  (two_records
                     (refined_as "GetTrackMIDINoteName" "get_track_midi_note_name"
                        (Some ("Deprecated, see GetTrackMIDINoteNameEx" : str)))
                     (refined_as "GetAppVersion" "get_app_version" None))
                  [("Reaper" : str, [0]); ("ReaProject" : str, [1; 0])] H)).
Defined.

(** ** What is kept under [ReaProject] *)

Lemma dedupe_loop_kept_all (P : ReaFunc -> Prop) (ns : str) :
  (forall x f, curated ns x = Some f -> P f) ->
  forall (fs : list ref) (h : heap) (seen : list (option str)) (kept : list ref),
    (forall r, In r kept -> P (h r)) ->
    forall r, In r (snd (dedupe_loop ns fs h seen kept)) ->
      P (fst (dedupe_loop ns fs h seen kept) r).
Proof.
  intros HP. induction fs as [|func fs IH]; intros h seen kept Hkept.
  - exact Hkept.
  - rewrite dedupe_loop_cons.
    destruct (docs_mention "deprecated" (h func)); [now apply IH|].
    destruct (docs_mention "discouraged" (h func)); [now apply IH|].
    destruct (curated ns (h func)) as [f|] eqn:Ec; [|now apply IH].
    assert (Hkept' : forall r, In r kept -> P (store h func f r)).
    { intros r Hr. destruct (Nat.eq_dec r func) as [->|Hne].
      - rewrite store_same. now apply (HP (h func)).
      - rewrite store_other by exact Hne. now apply Hkept. }
    destruct (negb (seen_has (reawrap_name f) seen)); apply IH; [|exact Hkept'].
    intros r Hr. apply in_app_or in Hr. destruct Hr as [Hr|[<-|[]]].
    + now apply Hkept'.
    + rewrite store_same. now apply (HP (h func)).
Qed.

Lemma dedupe_ReaProject_kept_all (P : ReaFunc -> Prop) (h : heap)
    (table : Dict.t (list ref)) (l : list ref) :
  (forall x f, curated "ReaProject" x = Some f -> P f) ->
  NoDup (Dict.keys table) -> In ("ReaProject" : str, l) table ->
  exists kept,
    Dict.get "ReaProject" (snd (dedupe_functions h table)) = Some kept
    /\ forall r, In r kept -> P (fst (dedupe_functions h table) r).
Proof.
  intros HP Hkeys Hl. unfold dedupe_functions.
  destruct (dedupe_namespaces_ReaProject table h [] l Hkeys Hl) as (h0 & _ & E & Hh).
  exists (snd (dedupe_loop "ReaProject" l h0 [] [])). split; [exact E|].
  intros r Hr. rewrite Hh.
  apply (dedupe_loop_kept_all P "ReaProject" HP); [intros r' []|exact Hr].
Qed.

Lemma named_ReaProject_false (n m : str) (x : ReaFunc) :
  named n "ReaProject" x = false -> reawrap_name x = Some m -> n <> m.
Proof.
  unfold named. intros H E ->. rewrite E in H. cbn [opt_eqb] in H.
  rewrite str_eqb_refl in H. discriminate H.
Qed.

Lemma curated_current (x f : ReaFunc) :
  curated "ReaProject" x = Some f -> current f.
Proof.
  unfold curated.
  repeat match goal with
         | |- context [named ?n ?k x] => destruct (named n k x) eqn:?
         end;
    intros [= <-] || discriminate;
    intros n E Hin;
    try (injection E as <-; apply mem_In in Hin; vm_compute in Hin; discriminate Hin).
  unfold superseded_names in Hin. cbn [strs map In] in Hin.
  repeat match goal with
         | H : named ?m _ x = false |- _ =>
             apply (fun H' => named_ReaProject_false m n x H' E) in H
         end.
  repeat (destruct Hin as [Hin|Hin]; [congruence|]). destruct Hin.
Qed.

Lemma want_master_name (a : ReaType) : name (want_master a) <> Some ("wantmaster" : str).
Proof.
  unfold want_master. destruct (opt_eqb (name a) "wantmaster") eqn:E.
  - intros H. vm_compute in H. discriminate H.
  - intros H. rewrite H in E. vm_compute in E. discriminate E.
Qed.

Lemma curated_want_master (x f : ReaFunc) :
  curated "ReaProject" x = Some f -> want_master_renamed f.
Proof.
  unfold curated.
  repeat match goal with
         | |- context [named ?n ?k x] => destruct (named n k x) eqn:?
         end;
    intros [= <-] || discriminate;
    intros Hname;
    try (intros a Ha; apply in_map_iff in Ha; destruct Ha as (a0 & <- & _);
         apply want_master_name);
    try (destruct Hname as [Hname|Hname]; vm_compute in Hname; discriminate Hname).
  destruct Hname as [Hname|Hname];
    match goal with
    | H : named ?m _ x = false |- _ =>
        exfalso; apply (named_ReaProject_false m _ x H Hname); reflexivity
    end.
Qed.

(** X20. Under [ReaProject], in a table with distinct namespaces, no record
    that [dedupe_functions] keeps still has one of the names the curated
    chain replaces or drops. *)
Theorem superseded_names_do_not_survive (h : heap) (table : Dict.t (list ref))
    (l : list ref) (Hkeys : NoDup (Dict.keys table))
    (Hl : In ("ReaProject" : str, l) table) :
  exists kept,
    Dict.get "ReaProject" (snd (dedupe_functions h table)) = Some kept
    /\ forall r, In r kept -> current (fst (dedupe_functions h table) r).
Proof. apply (dedupe_ReaProject_kept_all current h table l curated_current Hkeys Hl). Qed.

(** X21. Under [ReaProject], a record that [dedupe_functions] keeps as
    [count_selected_tracks] or [get_selected_track] has no argument named
    [wantmaster] any more. *)
Theorem kept_selection_functions_take_want_master (h : heap)
    (table : Dict.t (list ref)) (l : list ref) (Hkeys : NoDup (Dict.keys table))
    (Hl : In ("ReaProject" : str, l) table) :
  exists kept,
    Dict.get "ReaProject" (snd (dedupe_functions h table)) = Some kept
    /\ forall r, In r kept -> want_master_renamed (fst (dedupe_functions h table) r).
Proof.
  apply (dedupe_ReaProject_kept_all want_master_renamed h table l curated_want_master
           Hkeys Hl).
Qed.

Lemma superseded_names_do_not_survive_witness :
  NoDup (Dict.keys [("ReaProject" : str, [0; 1])])
  /\ In ("ReaProject" : str, [0; 1]) [("ReaProject" : str, [0; 1])]
  /\ target_names
       (fst (dedupe_functions
               (two_records (refined_as "AddProjectMarker2" "add_project_marker2" None)
                            (refined_as "GetPlayPosition2Ex" "get_play_position2_ex" None))
               [("ReaProject" : str, [0; 1])]))
       [0; 1]
     = [Some ("add_project_marker" : str); Some ("get_play_position" : str)]
  /\ exists kept,
       Dict.get "ReaProject"
         (snd (dedupe_functions
                 (two_records (refined_as "AddProjectMarker2" "add_project_marker2" None)
                              (refined_as "GetPlayPosition2Ex" "get_play_position2_ex" None))
                 [("ReaProject" : str, [0; 1])]))
       = Some kept
       /\ forall r, In r kept ->
            current
              (fst (dedupe_functions
                      (two_records
                         (refined_as "AddProjectMarker2" "add_project_marker2" None)
                         (refined_as "GetPlayPosition2Ex" "get_play_position2_ex" None))
                      [("ReaProject" : str, [0; 1])]) r).
Proof.
  assert (H1 : NoDup (Dict.keys [("ReaProject" : str, [0; 1])])).
  { apply distinct_NoDup. reflexivity. }
  assert (H2 : In ("ReaProject" : str, [0; 1]) [("ReaProject" : str, [0; 1])]).
  { now left. }
  split; [exact H1|]. split; [exact H2|]. split; [reflexivity|].
  exact (superseded_names_do_not_survive
           (two_records (refined_as "AddProjectMarker2" "add_project_marker2" None)
                        (refined_as "GetPlayPosition2Ex" "get_play_position2_ex" None))
           [("ReaProject" : str, [0; 1])] [0; 1] H1 H2).
Defined.

Lemma kept_selection_functions_take_want_master_witness :
  NoDup (Dict.keys [("ReaProject" : str, [0])])
  /\ In ("ReaProject" : str, [0]) [("ReaProject" : str, [0])]
  /\ arguments
       (fst (dedupe_functions
               (two_records
                  (with_reawrap_name (Some ("count_selected_tracks2" : str))
                     (with_arguments
                        [new_ReaType "ReaProject" (Some ("proj" : str)) false;
                         new_ReaType "boolean" (Some ("wantmaster" : str)) false]
                        (parsed "CountSelectedTracks2" None "ReaProject")))
                  (refined_as "GetAppVersion" "get_app_version" None))
               [("ReaProject" : str, [0])]) 0)
     = [new_ReaType "ReaProject" (Some ("proj" : str)) false;
        new_ReaType "boolean" (Some ("want_master" : str)) true]
  /\ exists kept,
       Dict.get "ReaProject"
         (snd (dedupe_functions
                 (two_records
                    (with_reawrap_name (Some ("count_selected_tracks2" : str))
                       (with_arguments
                          [new_ReaType "ReaProject" (Some ("proj" : str)) false;
                           new_ReaType "boolean" (Some ("wantmaster" : str)) false]
                          (parsed "CountSelectedTracks2" None "ReaProject")))
                    (refined_as "GetAppVersion" "get_app_version" None))
                 [("ReaProject" : str, [0])]))
       = Some kept
       /\ forall r, In r kept ->
            want_master_renamed
              (fst (dedupe_functions
                      (two_records
                         (with_reawrap_name (Some ("count_selected_tracks2" : str))
                            (with_arguments
                               [new_ReaType "ReaProject" (Some ("proj" : str)) false;
                                new_ReaType "boolean" (Some ("wantmaster" : str)) false]
                               (parsed "CountSelectedTracks2" None "ReaProject")))
                         (refined_as "GetAppVersion" "get_app_version" None))
                      [("ReaProject" : str, [0])]) r).
Proof.
  assert (H1 : NoDup (Dict.keys [("ReaProject" : str, [0])])).
  { apply distinct_NoDup. reflexivity. }
  assert (H2 : In ("ReaProject" : str, [0]) [("ReaProject" : str, [0])]).
  { now left. }
  split; [exact H1|]. split; [exact H2|]. split; [reflexivity|].
  exact (kept_selection_functions_take_want_master
           (two_records
              (with_reawrap_name (Some ("count_selected_tracks2" : str))
                 (with_arguments
                    [new_ReaType "ReaProject" (Some ("proj" : str)) false;
                     new_ReaType "boolean" (Some ("wantmaster" : str)) false]
                    (parsed "CountSelectedTracks2" None "ReaProject")))
              (refined_as "GetAppVersion" "get_app_version" None))
           [("ReaProject" : str, [0])] [0] H1 H2).
Defined.

(** * The stages in a row *)

Lemma refine_loop_renamed_only (LUA_KEYWORDS : list str) (ns : str) (fs : list ref)
    (h : heap) (seen : list str) (kept : list ref) (r : ref) :
  renamed_only (h r) (fst (fst (refine_loop LUA_KEYWORDS ns fs h seen kept)) r).
Proof.
  revert h seen kept. induction fs as [|func fs IH]; intros h seen kept.
  - apply renamed_only_refl.
  - rewrite refine_loop_cons. cbv zeta.
    set (h' := store h func _).
    assert (G : renamed_only (h r) (h' r)).
    { unfold h'. destruct (Nat.eq_dec r func) as [->|Hne].
      - rewrite store_same. repeat split. apply same_arguments_refl.
      - rewrite store_other by exact Hne. apply renamed_only_refl. }
    destruct (negb (mem _ seen)); apply (renamed_only_trans _ _ _ G), IH.
Qed.

Lemma refine_namespaces_renamed_only (LUA_KEYWORDS : list str)
    (items : list (str * list ref)) (h : heap) (refined : Dict.t (list ref))
    (seen_funcs : Dict.t (list str)) (r : ref) :
  renamed_only (h r)
    (fst (refine_namespaces LUA_KEYWORDS items h refined seen_funcs) r).
Proof.
  revert h refined seen_funcs.
  induction items as [|[ns fs] more IH]; intros h refined seen_funcs.
  - apply renamed_only_refl.
  - destruct (refine_namespaces_step LUA_KEYWORDS ns fs more h refined seen_funcs)
      as (seen & kept & refined' & seen' & ->).
    apply (renamed_only_trans _
             (fst (fst (refine_loop LUA_KEYWORDS ns fs h seen kept)) r)).
    + apply refine_loop_renamed_only.
    + apply IH.
Qed.

Lemma refine_namespaces_listed (LUA_KEYWORDS : list str) (Q : str -> ref -> Prop)
    (items : list (str * list ref)) (h : heap) (refined : Dict.t (list ref))
    (seen_funcs : Dict.t (list str)) :
  (forall k l, In (k, l) items -> forall r, In r l -> Q k r) ->
  (forall k l, In (k, l) refined -> forall r, In r l -> Q k r) ->
  forall k l, In (k, l) (snd (refine_namespaces LUA_KEYWORDS items h refined seen_funcs)) ->
  forall r, In r l -> Q k r.
Proof.
  revert h refined seen_funcs.
  induction items as [|[ns fs] more IH]; intros h refined seen_funcs Hitems Hrefined.
  - exact Hrefined.
  - cbn [refine_namespaces].
    set (refined1 := if negb (Dict.has ns refined) then Dict.set ns [] refined
                     else refined).
    set (seen1 := if negb (Dict.has ns seen_funcs) then Dict.set ns [] seen_funcs
                  else seen_funcs).
    assert (H1 : forall k l, In (k, l) refined1 -> forall r, In r l -> Q k r).
    { unfold refined1. destruct (negb (Dict.has ns refined)); [|exact Hrefined].
      intros k l Hin. apply In_set in Hin.
      destruct Hin as [[= -> ->]|Hin]; [intros r []|now apply (Hrefined k l)]. }
    destruct (refine_loop LUA_KEYWORDS ns fs h (Dict.get_or [] ns seen1)
                (Dict.get_or [] ns refined1)) as [[h' seen] kept] eqn:E.
    apply IH.
    + intros k l Hl. apply (Hitems k l). now right.
    + intros k l Hin. apply In_set in Hin. destruct Hin as [[= -> ->]|Hin].
      * intros r Hr.
        replace kept with (snd (refine_loop LUA_KEYWORDS ns fs h (Dict.get_or [] ns seen1)
                                  (Dict.get_or [] ns refined1))) in Hr
          by now rewrite E.
        apply refine_loop_subset in Hr. destruct Hr as [Hr|Hr].
        -- unfold Dict.get_or in Hr.
           destruct (Dict.get ns refined1) as [l0|] eqn:E0; [|destruct Hr].
           apply get_In in E0. now apply (H1 ns l0).
        -- apply (Hitems ns fs); [now left | exact Hr].
      * now apply (H1 k l).
Qed.

Lemma dedupe_namespaces_listed (Q : str -> ref -> Prop)
    (items : list (str * list ref)) (h : heap) (deduped : Dict.t (list ref)) :
  (forall k l, In (k, l) items -> forall r, In r l -> Q k r) ->
  (forall k l, In (k, l) deduped -> forall r, In r l -> Q k r) ->
  forall k l, In (k, l) (snd (dedupe_namespaces items h deduped)) ->
  forall r, In r l -> Q k r.
Proof.
  revert h deduped.
  induction items as [|[ns fs] more IH]; intros h deduped Hitems Hdeduped.
  - exact Hdeduped.
  - rewrite dedupe_namespaces_cons. apply IH.
    + intros k l Hl. apply (Hitems k l). now right.
    + intros k l Hin. apply In_set in Hin. destruct Hin as [[= -> ->]|Hin].
      * intros r Hr. apply dedupe_loop_subset in Hr. destruct Hr as [[]|Hr].
        apply (Hitems ns fs); [now left | exact Hr].
      * now apply (Hdeduped k l).
Qed.

Lemma curated_keeps_a_name (ns : str) (x f : ReaFunc) :
  curated ns x = Some f -> reawrap_name x <> None -> reawrap_name f <> None.
Proof.
  unfold curated.
  repeat match goal with
         | |- context [named ?n ns x] => destruct (named n ns x)
         end;
    intros [= <-] || discriminate; intros H; try exact H; discriminate.
Qed.

Lemma dedupe_loop_keeps_a_name (ns : str) (fs : list ref) (h : heap)
    (seen : list (option str)) (kept : list ref) (r : ref) :
  reawrap_name (h r) <> None ->
  reawrap_name (fst (dedupe_loop ns fs h seen kept) r) <> None.
Proof.
  revert h seen kept. induction fs as [|func fs IH]; intros h seen kept Hr.
  - exact Hr.
  - rewrite dedupe_loop_cons.
    destruct (docs_mention "deprecated" (h func)); [now apply IH|].
    destruct (docs_mention "discouraged" (h func)); [now apply IH|].
    destruct (curated ns (h func)) as [f|] eqn:Ec; [|now apply IH].
    assert (G : reawrap_name (store h func f r) <> None).
    { destruct (Nat.eq_dec r func) as [->|Hne].
      - rewrite store_same. now apply (curated_keeps_a_name ns (h func)).
      - now rewrite store_other. }
    destruct (negb (seen_has (reawrap_name f) seen)); now apply IH.
Qed.

Lemma dedupe_namespaces_keeps_a_name (items : list (str * list ref)) (h : heap)
    (deduped : Dict.t (list ref)) (r : ref) :
  reawrap_name (h r) <> None ->
  reawrap_name (fst (dedupe_namespaces items h deduped) r) <> None.
Proof.
  revert h deduped. induction items as [|[ns fs] more IH]; intros h deduped Hr.
  - exact Hr.
  - rewrite dedupe_namespaces_cons. apply IH. now apply dedupe_loop_keeps_a_name.
Qed.

Section Pipeline.

Variable LUA_KEYWORDS : list str.
Variable REAPER_TYPES : list str.

(** X22. The three stages in a row change nothing of a record but its
    target name and the names and optional flags of its arguments. *)
Theorem stages_change_only_names (h : heap) (functions : list ref) (r : ref) :
  renamed_only (h r)
    (fst (classify_refine_dedupe LUA_KEYWORDS REAPER_TYPES h functions) r).
Proof.
  unfold classify_refine_dedupe. cbv zeta.
  eapply renamed_only_trans; [|apply dedupe_namespaces_renamed_only].
  apply refine_namespaces_renamed_only.
Qed.

(** X23. A record whose documentation mentions [deprecated] or
    [discouraged], in any letter case, is in no list of the table the
    three stages produce. *)
Theorem stages_drop_flagged_functions (h : heap) (functions : list ref) (r : ref)
    (d : str) (Hdocs : docs (h r) = Some d)
    (Hflag : mentions "deprecated" d \/ mentions "discouraged" d) :
  forall ns l,
    In (ns, l) (snd (classify_refine_dedupe LUA_KEYWORDS REAPER_TYPES h functions)) ->
    ~ In r l.
Proof.
  unfold classify_refine_dedupe. cbv zeta.
  set (refined := refine_functions LUA_KEYWORDS h
                    (group_functions_by_name_space REAPER_TYPES h functions)).
  assert (Hd : docs (fst refined r) = Some d).
  { rewrite <- Hdocs.
    apply (refine_namespaces_renamed_only LUA_KEYWORDS _ h [] [] r). }
  apply dedupe_namespaces_drops; [|intros k l []].
  destruct Hflag as [Hflag|Hflag]; [left|right];
    apply (docs_mention_of_mentions _ d); try exact Hd; try exact Hflag; discriminate.
Qed.

(** X24. Every record the final table lists comes from the input list,
    sits under the namespace the classifier computes for it, and has a
    target name. *)
Theorem stages_list_classified_named_records (h : heap) (functions : list ref)
    (ns : str) (l : list ref) (r : ref)
    (Hl : In (ns, l)
            (snd (classify_refine_dedupe LUA_KEYWORDS REAPER_TYPES h functions)))
    (Hr : In r l) :
  In r functions
  /\ name_space_of REAPER_TYPES (h r) = ns
  /\ reawrap_name
       (fst (classify_refine_dedupe LUA_KEYWORDS REAPER_TYPES h functions) r)
     <> None.
Proof.
  set (by_name_space := group_functions_by_name_space REAPER_TYPES h functions).
  set (items := sorted_by (fun item : str * list ref => lower (fst item)) by_name_space).
  assert (Hperm : Permutation items by_name_space) by apply sorted_by_perm.
  assert (K0 : NoDup (Dict.keys by_name_space)).
  { apply group_loop_keys. constructor. }
  assert (H0 : forall k l0, In (k, l0) items -> forall r0, In r0 l0 ->
                 In r0 functions /\ name_space_of REAPER_TYPES (h r0) = k).
  { intros k l0 Hl0 r0 Hr0. apply (Permutation_in _ Hperm) in Hl0.
    apply (In_get _ _ _ K0) in Hl0. unfold by_name_space in Hl0.
    rewrite group_get in Hl0.
    destruct (filter (in_name_space REAPER_TYPES h k) functions) as [|x l1] eqn:E;
      [discriminate|].
    injection Hl0 as <-. rewrite <- E in Hr0. apply filter_In in Hr0.
    destruct Hr0 as [Hin Hk]. split; [exact Hin | now apply str_eqb_eq in Hk]. }
  assert (H1 : In r functions /\ name_space_of REAPER_TYPES (h r) = ns).
  { pose (Q := fun (k : str) (r0 : ref) =>
                 In r0 functions /\ name_space_of REAPER_TYPES (h r0) = k).
    revert Hl r Hr. unfold classify_refine_dedupe. cbv zeta.
    apply (dedupe_namespaces_listed Q); [|intros k l0 []].
    apply (refine_namespaces_listed LUA_KEYWORDS Q); [exact H0 | intros k l0 []]. }
  destruct H1 as (Hin & Hns). split; [exact Hin|]. split; [exact Hns|].
  unfold classify_refine_dedupe. cbv zeta.
  apply dedupe_namespaces_keeps_a_name.
  assert (Hlisted : In (ns, filter (in_name_space REAPER_TYPES h ns) functions) items
                    /\ In r (filter (in_name_space REAPER_TYPES h ns) functions)).
  { assert (Hf : In r (filter (in_name_space REAPER_TYPES h ns) functions)).
    { apply filter_In. split; [exact Hin|]. unfold in_name_space. rewrite Hns.
      apply str_eqb_refl. }
    split; [|exact Hf].
    apply (Permutation_in _ (Permutation_sym Hperm)). apply get_In.
    unfold by_name_space. rewrite group_get.
    destruct (filter (in_name_space REAPER_TYPES h ns) functions); [destruct Hf|].
    reflexivity. }
  destruct Hlisted as (Hitem & Hf).
  assert (Hu : unshared items = true).
  { apply (unshared_perm by_name_space); [now apply Permutation_sym|].
    apply (unshared_of_keyed (fun r => name_space_of REAPER_TYPES (h r)));
      [exact K0 | apply group_keyed]. }
  destruct (refine_namespaces_heap LUA_KEYWORDS items h [] [] Hu) as (_ & H2).
  unfold refine_functions. fold by_name_space. fold items.
  rewrite (H2 ns _ r Hitem Hf). discriminate.
Qed.

End Pipeline.

Lemma stages_drop_flagged_functions_witness :
  docs (two_records
          (with_docs (Some ("DEPRECATED: use the Ex variant" : str)) None
             (parsed "GetTrackMIDINoteName" None "integer"))
          (parsed "GetAppVersion" None "") 0)
  = Some ("DEPRECATED: use the Ex variant" : str)
  /\ mentions "deprecated" "DEPRECATED: use the Ex variant"
  /\ snd (classify_refine_dedupe lua_reserved_words handle_types
            (two_records
               (with_docs (Some ("DEPRECATED: use the Ex variant" : str)) None
                  (parsed "GetTrackMIDINoteName" None "integer"))
               (parsed "GetAppVersion" None ""))
            [0; 1])
     = [("Reaper" : str, [1])]
  /\ forall ns l,
       In (ns, l)
          (snd (classify_refine_dedupe lua_reserved_words handle_types
                  (two_records
                     (with_docs (Some ("DEPRECATED: use the Ex variant" : str)) None
                        (parsed "GetTrackMIDINoteName" None "integer"))
                     (parsed "GetAppVersion" None ""))
                  [0; 1])) ->
       ~ In 0 l.
Proof.
  assert (H : mentions "deprecated" "DEPRECATED: use the Ex variant").
  { exists [], ("DEPRECATED" : str), (": use the Ex variant" : str).
    split; reflexivity. }
  split; [reflexivity|]. split; [exact H|]. split; [reflexivity|].
  exact (stages_drop_flagged_functions lua_reserved_words handle_types
           (two_records
              (with_docs (Some ("DEPRECATED: use the Ex variant" : str)) None
                 (parsed "GetTrackMIDINoteName" None "integer"))
              (parsed "GetAppVersion" None ""))
           [0; 1] 0 "DEPRECATED: use the Ex variant" eq_refl (or_introl H)).
Defined.

Lemma stages_list_classified_named_records_witness :
  In ("MediaTrack" : str, [0])
     (snd (classify_refine_dedupe lua_reserved_words handle_types
             (two_records (parsed "TrackFX_GetCount" (Some ("TrackFX" : str)) "MediaTrack")
                          (parsed "GetAppVersion" None ""))
             [0; 1]))
  /\ In 0 [0]
  /\ In 0 [0; 1]
  /\ name_space_of handle_types
       (parsed "TrackFX_GetCount" (Some ("TrackFX" : str)) "MediaTrack")
     = "MediaTrack"
  /\ reawrap_name
       (fst (classify_refine_dedupe lua_reserved_words handle_types
               (two_records (parsed "TrackFX_GetCount" (Some ("TrackFX" : str)) "MediaTrack")
                            (parsed "GetAppVersion" None ""))
               [0; 1]) 0)
     <> None.
Proof.
  assert (H1 : In ("MediaTrack" : str, [0])
                 (snd (classify_refine_dedupe lua_reserved_words handle_types
                         (two_records
                            (parsed "TrackFX_GetCount" (Some ("TrackFX" : str)) "MediaTrack")
                            (parsed "GetAppVersion" None ""))
                         [0; 1]))).
  { vm_compute. now left. }
  assert (H2 : In 0 [0]) by now left.
  split; [exact H1|]. split; [exact H2|].
  exact (stages_list_classified_named_records lua_reserved_words handle_types
           (two_records (parsed "TrackFX_GetCount" (Some ("TrackFX" : str)) "MediaTrack")
                        (parsed "GetAppVersion" None ""))
           [0; 1] "MediaTrack" [0] 0 H1 H2).
Defined.

(** * Further properties of the iteration over the document *)

Section DocumentOrder.

Variable LUA_KEYWORDS : list str.
Variable Tag : Type.
Variable text_of : Tag -> str.
Variable parse_constants_from_docs : Tag -> str * list ReaType.

Lemma iter_built_in_cons (func : definition Tag) (more : list (definition Tag)) :
  iter_built_in LUA_KEYWORDS text_of (func :: more)
  = match parse_lua_function LUA_KEYWORDS (l_func func) with
    | Ok lua_func =>
        yield
          (with_docs (option_map text_of (paragraph func)) None
             (with_fn_name_space (Some ("built_in" : str)) lua_func))
          (iter_built_in LUA_KEYWORDS text_of more)
    | Raise (ValueError _ _) => iter_built_in LUA_KEYWORDS text_of more
    | Raise e => fail e
    end.
Proof. reflexivity. Qed.

Lemma iter_built_in_marks (entries : list (definition Tag)) :
  Forall (fun f => fn_name_space f = Some ("built_in" : str) /\ constants f = None)
    (yielded (iter_built_in LUA_KEYWORDS text_of entries)).
Proof.
  induction entries as [|func more IH]; [constructor|].
  rewrite iter_built_in_cons.
  destruct (parse_lua_function LUA_KEYWORDS (l_func func)) as [lua_func|[m a|]].
  - constructor; [now split | exact IH].
  - exact IH.
  - constructor.
Qed.

Lemma iter_built_in_stops (entries : list (definition Tag)) :
  stopped (iter_built_in LUA_KEYWORDS text_of entries) = None
  \/ stopped (iter_built_in LUA_KEYWORDS text_of entries) = Some IndexError.
Proof.
  induction entries as [|func more IH]; [now left|].
  rewrite iter_built_in_cons.
  destruct (parse_lua_function LUA_KEYWORDS (l_func func)) as [lua_func|[m a|]].
  - exact IH.
  - exact IH.
  - now right.
Qed.

Lemma iter_built_in_length (entries : list (definition Tag)) :
  length (yielded (iter_built_in LUA_KEYWORDS text_of entries)) <= length entries.
Proof.
  induction entries as [|func more IH]; [apply Nat.le_refl|].
  rewrite iter_built_in_cons.
  destruct (parse_lua_function LUA_KEYWORDS (l_func func)) as [lua_func|[m a|]];
    cbn [yield fail yielded length]; lia.
Qed.

(** X26. The loop over the built-in section never ends in a [ValueError]:
    an entry that fails to parse in that way is passed over.  Every record
    it yields has the namespace token [built_in] and no constants, and it
    yields at most one record per entry. *)
Theorem built_in_section_passes_over_parse_errors (entries : list (definition Tag)) :
  (forall message about,
     stopped (iter_built_in LUA_KEYWORDS text_of entries)
     <> Some (ValueError message about))
  /\ Forall (fun f => fn_name_space f = Some ("built_in" : str) /\ constants f = None)
       (yielded (iter_built_in LUA_KEYWORDS text_of entries))
  /\ length (yielded (iter_built_in LUA_KEYWORDS text_of entries)) <= length entries.
Proof.
  split; [|split].
  - intros message about H.
    destruct (iter_built_in_stops entries) as [E|E]; rewrite E in H; discriminate H.
  - apply iter_built_in_marks.
  - apply iter_built_in_length.
Qed.

(** An entry of the main section and the record made from it *)
Let made_from (entry : definition Tag) (f : ReaFunc) : Prop :=
  exists parsed_fields,
    parse_lua_function LUA_KEYWORDS (l_func entry) = Ok parsed_fields
    /\ same_parse parsed_fields f.

Lemma iter_functions_all_cons (func : definition Tag) (more : list (definition Tag))
    (rest : gen ReaFunc) :
  iter_functions_all LUA_KEYWORDS text_of parse_constants_from_docs (func :: more) rest
  = match parse_lua_function LUA_KEYWORDS (l_func func) with
    | Ok lua_func =>
        let docstr :=
          option_map (fun d => replace [nbsp] [] (text_of d)) (paragraph func) in
        let described :=
          match paragraph func with
          | Some d =>
              if contains "Info" (reascript_name lua_func)
              then let '(text, constants) := parse_constants_from_docs d in
                   with_docs (Some text) (Some constants) lua_func
              else with_docs docstr None lua_func
          | None => with_docs docstr None lua_func
          end in
        yield described
          (iter_functions_all LUA_KEYWORDS text_of parse_constants_from_docs more rest)
    | Raise e => fail e
    end.
Proof. reflexivity. Qed.

Lemma iter_functions_all_yields (entries : list (definition Tag)) (rest : gen ReaFunc) :
  stopped (iter_functions_all LUA_KEYWORDS text_of parse_constants_from_docs
             entries rest) = None ->
  stopped rest = None
  /\ exists l1,
       yielded (iter_functions_all LUA_KEYWORDS text_of parse_constants_from_docs
                  entries rest) = l1 ++ yielded rest
       /\ Forall2 made_from entries l1.
Proof.
  induction entries as [|func more IH]; intros H.
  - split; [exact H|]. exists []. split; [reflexivity | constructor].
  - rewrite iter_functions_all_cons in *.
    destruct (parse_lua_function LUA_KEYWORDS (l_func func)) as [lua_func|e] eqn:E;
      [|discriminate H].
    cbv zeta in *. cbn [yield stopped yielded] in *.
    destruct (IH H) as (Hrest & l1 & E1 & H1). split; [exact Hrest|].
    eexists (_ :: l1). split; [rewrite E1; reflexivity|].
    constructor; [|exact H1].
    exists lua_func. split; [exact E|].
    destruct (paragraph func) as [d|]; [|now repeat split].
    destruct (contains "Info" (reascript_name lua_func)); [|now repeat split].
    destruct (parse_constants_from_docs d). now repeat split.
Qed.

(** X27. When [iter_lua_functions] runs to its end, the records of the main
    section come first, one for every entry and in the order of the
    document, each with the five fields [parse_lua_function] returned for
    its entry; the records of the built-in section follow, and there are
    none unless [built_in] is set. *)
Theorem documented_functions_come_first_in_order
    (functions_all lua : list (definition Tag)) (built_in : bool) (l : list ReaFunc)
    (Hlist : collect (iter_lua_functions LUA_KEYWORDS text_of parse_constants_from_docs
                        functions_all lua built_in) = Ok l) :
  exists l1 l2,
    l = l1 ++ l2
    /\ Forall2
         (fun entry f =>
            exists parsed_fields,
              parse_lua_function LUA_KEYWORDS (l_func entry) = Ok parsed_fields
              /\ same_parse parsed_fields f)
         functions_all l1
    /\ Forall (fun f => fn_name_space f = Some ("built_in" : str)) l2
    /\ (built_in = false -> l2 = []).
Proof.
  unfold collect, iter_lua_functions in Hlist.
  set (rest := if built_in then iter_built_in LUA_KEYWORDS text_of lua else done) in *.
  destruct (stopped (iter_functions_all LUA_KEYWORDS text_of parse_constants_from_docs
                       functions_all rest)) eqn:Es; [discriminate Hlist|].
  destruct (iter_functions_all_yields functions_all rest Es) as (_ & l1 & E1 & H1).
  exists l1, (yielded rest). split; [|split; [exact H1|split]].
  - rewrite <- E1. now injection Hlist.
  - unfold rest. destruct built_in; [|constructor].
    eapply Forall_impl; [|apply iter_built_in_marks]. now intros f (Hf & _).
  - intros ->. reflexivity.
Qed.

End DocumentOrder.

Lemma documented_functions_come_first_in_order_witness :
  collect (iter_lua_functions lua_reserved_words (fun _ : unit => [])
             (fun _ : unit => ([], []))
             [mkDefinition "integer reaper.CountTracks(ReaProject proj)" None;
              mkDefinition "MediaTrack reaper.GetTrack(ReaProject proj, integer trackidx)"
                None]
             [mkDefinition "nothing here" None;
              mkDefinition "reaper.defer(function f)" None] true)
  = Ok (yielded
          (iter_lua_functions lua_reserved_words (fun _ : unit => [])
             (fun _ : unit => ([], []))
             [mkDefinition "integer reaper.CountTracks(ReaProject proj)" None;
              mkDefinition "MediaTrack reaper.GetTrack(ReaProject proj, integer trackidx)"
                None]
             [mkDefinition "nothing here" None;
              mkDefinition "reaper.defer(function f)" None] true))
  /\ map (fun f => (reascript_name f, fn_name_space f))
       (yielded
          (iter_lua_functions lua_reserved_words (fun _ : unit => [])
             (fun _ : unit => ([], []))
             [mkDefinition "integer reaper.CountTracks(ReaProject proj)" None;
              mkDefinition "MediaTrack reaper.GetTrack(ReaProject proj, integer trackidx)"
                None]
             [mkDefinition "nothing here" None;
              mkDefinition "reaper.defer(function f)" None] true))
     = [("CountTracks" : str, None); ("GetTrack" : str, None);
        ("defer" : str, Some ("built_in" : str))]
  /\ exists l1 l2,
       yielded
         (iter_lua_functions lua_reserved_words (fun _ : unit => [])
            (fun _ : unit => ([], []))
            [mkDefinition "integer reaper.CountTracks(ReaProject proj)" None;
             mkDefinition "MediaTrack reaper.GetTrack(ReaProject proj, integer trackidx)"
               None]
            [mkDefinition "nothing here" None;
             mkDefinition "reaper.defer(function f)" None] true)
       = l1 ++ l2
       /\ length l1 = 2
       /\ Forall (fun f => fn_name_space f = Some ("built_in" : str)) l2.
Proof.
  assert (H : collect (iter_lua_functions lua_reserved_words (fun _ : unit => [])
                (fun _ : unit => ([], []))
                [mkDefinition "integer reaper.CountTracks(ReaProject proj)" None;
                 mkDefinition
                   "MediaTrack reaper.GetTrack(ReaProject proj, integer trackidx)" None]
                [mkDefinition "nothing here" None;
                 mkDefinition "reaper.defer(function f)" None] true)
              = Ok (yielded
                      (iter_lua_functions lua_reserved_words (fun _ : unit => [])
                         (fun _ : unit => ([], []))
                         [mkDefinition "integer reaper.CountTracks(ReaProject proj)" None;
                          mkDefinition
                            "MediaTrack reaper.GetTrack(ReaProject proj, integer trackidx)"
                            None]
                         [mkDefinition "nothing here" None;
                          mkDefinition "reaper.defer(function f)" None] true))).
  { reflexivity. }
  split; [exact H|]. split; [reflexivity|].
  destruct (documented_functions_come_first_in_order lua_reserved_words unit
              (fun _ => []) (fun _ => ([], [])) _ _ _ _ H)
    as (l1 & l2 & E & H1 & H2 & _).
  exists l1, l2. split; [exact E|]. split; [|exact H2].
  symmetry. apply (Forall2_length H1).
Defined.

(** * Further properties of the names *)

(** ** [to_snake] adds underscores and nothing else *)

Lemma consumes_Cls (p : ascii -> bool) : consumes (Cls p).
Proof.
  intros prev s gs k out H. cbn [Re.run] in H.
  destruct s as [|c s']; [discriminate H|].
  destruct (p c); [|discriminate H].
  now exists [c], s', (Some c).
Qed.

Lemma consumes_Plus (p : ascii -> bool) : consumes (Plus p).
Proof.
  intros prev s gs k out H. cbn [Re.run] in H.
  destruct s as [|c s']; [discriminate H|].
  destruct (p c); [|discriminate H].
  apply star_sound in H. destruct H as (a & b & -> & _ & H).
  now exists (c :: a), b, (last_of (Some c) a).
Qed.

Lemma consumes_Cat (r1 r2 : regex) : consumes r1 -> consumes r2 -> consumes (Cat r1 r2).
Proof.
  intros H1 H2 prev s gs k out H. cbn [Re.run] in H.
  apply H1 in H. destruct H as (pre1 & s1 & pv1 & -> & H).
  apply H2 in H. destruct H as (pre2 & s2 & pv2 & -> & H).
  exists (pre1 ++ pre2), s2, pv2. split; [now rewrite app_assoc | exact H].
Qed.

Lemma run_Group (r : regex) (prev : option ascii) (s : str) (gs : list str)
    (k : Re.cont) (out : Re.outcome) :
  consumes r -> Re.run (Group r) prev s gs k = Some out ->
  exists pre s' pv, s = pre ++ s' /\ k pv s' (gs ++ [pre]) = Some out.
Proof.
  intros Hr H. cbn [Re.run] in H. apply Hr in H.
  destruct H as (pre & s' & pv & -> & H). rewrite firstn_prefix in H.
  now exists pre, s', pv.
Qed.

Lemma at_start_two_groups (a b : regex) (prev : option ascii) (s : str)
    (m : Re.found) :
  consumes a -> consumes b ->
  Re.at_start (Cat (Group a) (Group b)) prev s = Some m ->
  exists g1 g2 rest,
    m = Re.Found [] (g1 ++ g2) [g1; g2] rest /\ s = (g1 ++ g2) ++ rest.
Proof.
  intros Ha Hb. unfold Re.at_start.
  destruct (Re.run (Cat (Group a) (Group b)) prev s [] Re.accept) as [[rest gs]|] eqn:E;
    [|discriminate].
  intros [= <-].
  change (Re.run (Group a) prev s []
            (fun pv s' gs' => Re.run (Group b) pv s' gs' Re.accept) = Some (rest, gs)) in E.
  apply (run_Group a prev s [] _ _ Ha) in E. destruct E as (g1 & s1 & pv1 & -> & E).
  apply (run_Group b pv1 s1 _ _ _ Hb) in E. destruct E as (g2 & s2 & pv2 & -> & E).
  unfold Re.accept in E. injection E as <- <-.
  exists g1, g2, s2. rewrite app_assoc. split; [|reflexivity].
  now rewrite firstn_prefix.
Qed.

Lemma without_app (c : ascii) (a b : str) :
  without c (a ++ b) = without c a ++ without c b.
Proof. apply filter_app. Qed.

Lemma without_underscore_between (g1 g2 rest : str) :
  without "_" (underscore_between (Re.Found [] (g1 ++ g2) [g1; g2] rest))
  = without "_" (g1 ++ g2).
Proof.
  unfold underscore_between, Re.group. cbn [Re.groups nth Nat.sub].
  now rewrite !without_app.
Qed.

Lemma sub_from_without (r : regex) (prev : option ascii) (skip : nat) (s : str) :
  (forall prev s m, Re.at_start r prev s = Some m ->
     exists g1 g2 rest,
       m = Re.Found [] (g1 ++ g2) [g1; g2] rest /\ s = (g1 ++ g2) ++ rest) ->
  without "_" (Re.sub_from r underscore_between prev skip s)
  = without "_" (skipn skip s).
Proof.
  intros Hr. revert prev skip. induction s as [|c s' IH]; intros prev skip.
  - destruct skip as [|n]; [|reflexivity]. cbn [Re.sub_from skipn].
    destruct (Re.at_start r prev []) as [m|] eqn:E; [|reflexivity].
    destruct (Hr _ _ _ E) as (g1 & g2 & rest & -> & Hs).
    rewrite without_underscore_between.
    symmetry in Hs. apply app_eq_nil in Hs. destruct Hs as (-> & _). reflexivity.
  - destruct skip as [|n]; [|apply IH].
    cbn [Re.sub_from skipn].
    destruct (Re.at_start r prev (c :: s')) as [m|] eqn:E.
    + destruct (Hr _ _ _ E) as (g1 & g2 & rest & -> & Hs).
      cbn [Re.group0].
      pose proof (without_underscore_between g1 g2 rest) as Hw.
      destruct (g1 ++ g2) as [|c0 t].
      * cbn [length]. rewrite without_app.
        refine (eq_trans (f_equal2 (@app ascii) Hw eq_refl) _).
        cbn [without filter app]. change (filter (Chr.other_than "_")) with (without "_").
        now rewrite IH.
      * cbn [length]. rewrite without_app.
        refine (eq_trans (f_equal2 (@app ascii) Hw (IH _ _)) _).
        injection Hs as -> ->.
        rewrite <- without_app. f_equal. f_equal.
        rewrite skipn_app, skipn_all, Nat.sub_diag. reflexivity.
    + cbn [without filter]. change (filter (Chr.other_than "_")) with (without "_").
      now rewrite IH.
Qed.

Lemma other_than_underscore_lower (c : ascii) :
  Chr.other_than "_" (Chr.lower c) = Chr.other_than "_" c.
Proof.
  destruct c as [b0 b1 b2 b3 b4 b5 b6 b7].
  destruct b0, b1, b2, b3, b4, b5, b6, b7; reflexivity.
Qed.

Lemma without_lower (s : str) : without "_" (lower s) = lower (without "_" s).
Proof.
  unfold without, lower. induction s as [|c s IH]; [reflexivity|].
  cbn [map filter]. rewrite other_than_underscore_lower, IH.
  now destruct (Chr.other_than "_" c).
Qed.

(** X28. [to_snake] adds underscores, lowers the letters and does nothing
    else: with the underscores left out, its result is the input in lower
    case with its underscores left out. *)
Theorem to_snake_only_adds_underscores (s : str) :
  without "_" (to_snake s) = lower (without "_" s).
Proof.
  unfold to_snake. cbv zeta. rewrite without_lower. apply (f_equal lower).
  unfold Re.sub.
  rewrite sub_from_without.
  - cbn [skipn]. rewrite sub_from_without; [reflexivity|].
    intros prev s0 m. apply at_start_two_groups.
    + apply consumes_Plus.
    + apply consumes_Cat; apply consumes_Cls.
  - intros prev s0 m. apply at_start_two_groups; apply consumes_Cls.
Qed.

(** ** Argument names *)

Lemma replace_from_all_of (p : ascii -> bool) (old new : str) (skip : nat) (s : str) :
  all_of p s -> all_of p new -> all_of p (replace_from old new skip s).
Proof.
  intros Hs Hnew. revert skip. induction Hs as [|c s' Hc Hs IH]; intros skip.
  - destruct skip; cbn [replace_from]; [|constructor].
    destruct (startswith old []); [exact Hnew | constructor].
  - destruct skip as [|n]; cbn [replace_from]; [|apply IH].
    destruct (startswith old (c :: s')).
    + destruct (length old).
      * apply Forall_app. split; [exact Hnew|]. constructor; [exact Hc | apply IH].
      * apply Forall_app. split; [exact Hnew | apply IH].
    + constructor; [exact Hc | apply IH].
Qed.

Lemma replace_all_of (p : ascii -> bool) (old new s : str) :
  all_of p s -> all_of p new -> all_of p (replace old new s).
Proof. apply replace_from_all_of. Qed.

Lemma replace_char_away (c : ascii) (s : str) :
  all_of (Chr.other_than c) (replace [c] [] s).
Proof.
  unfold replace. induction s as [|a s IH]; [constructor|].
  cbn [replace_from startswith length app].
  destruct (Ascii.eqb c a) eqn:E; cbn [andb].
  - exact IH.
  - constructor; [|exact IH]. unfold Chr.other_than.
    rewrite Ascii.eqb_sym, E. reflexivity.
Qed.

Lemma separate_words_all_of (p : ascii -> bool) (name : str) :
  all_of p (replace "." "" name) ->
  forallb p ("_idx_name_type_val_pos_is_swing_nudge_time_sig_guid" : str) = true ->
  all_of p (separate_words name).
Proof.
  intros Hname Hp.
  assert (Hnew : forall new : str,
            forallb (fun c => existsb (Ascii.eqb c)
                      ("_idx_name_type_val_pos_is_swing_nudge_time_sig_guid" : str)) new
            = true -> all_of p new).
  { intros new Hn. apply Forall_forall. intros c Hc.
    apply (proj1 (forallb_forall _ _) Hn) in Hc. apply existsb_exists in Hc.
    destruct Hc as (c' & Hc' & E). apply Ascii.eqb_eq in E. subst c'.
    now apply (proj1 (forallb_forall _ _) Hp). }
  unfold separate_words. cbv zeta.
  repeat match goal with
         | |- context [if ?b then _ else _] => destruct b
         end;
    repeat first [ exact Hname | apply replace_all_of; [|apply Hnew; reflexivity] ];
    apply Hnew; reflexivity.
Qed.

Lemma no_upper_all_of (s : str) :
  no_upper s <-> all_of (fun c => negb (Chr.is_upper c)) s.
Proof.
  unfold no_upper, all_of. split; apply Forall_impl; intros c H.
  - now rewrite H.
  - now apply negb_true_iff.
Qed.

Lemma free_of_all_of (c : ascii) (s : str) :
  all_of (Chr.other_than c) s -> free_of c s.
Proof.
  intros H Hin. apply (proj1 (Forall_forall _ _) H) in Hin.
  unfold Chr.other_than in Hin. now rewrite Ascii.eqb_refl in Hin.
Qed.

Lemma separate_words_clean (name : str) :
  no_upper name -> free_of "." (separate_words name) /\ no_upper (separate_words name).
Proof.
  intros Hname. split.
  - apply free_of_all_of. apply separate_words_all_of; [|reflexivity].
    apply (replace_char_away ".").
  - apply no_upper_all_of. apply separate_words_all_of; [|reflexivity].
    apply replace_all_of; [now apply no_upper_all_of | constructor].
Qed.

(** X29. [sanitize_name] gives no name exactly when the piece has fewer
    than two tokens; a name it gives has no capital letter and no dot. *)
Theorem argument_names_are_clean (LUA_KEYWORDS : list str) (parts : list str) :
  (sanitize_name LUA_KEYWORDS parts = None <-> length parts <= 1)
  /\ forall n, sanitize_name LUA_KEYWORDS parts = Some n ->
       free_of "." n /\ no_upper n.
Proof.
  unfold sanitize_name. cbv zeta.
  destruct (1 <? length parts) eqn:E.
  - apply Nat.ltb_lt in E.
    destruct (nth_error parts 1) as [x|] eqn:Ex.
    + cbn [option_map].
      assert (Hx : no_upper (escape_keyword LUA_KEYWORDS (to_snake x))).
      { apply escape_keyword_no_upper, to_snake_no_upper. }
      split.
      * split; [|lia]. destruct (nonempty _); discriminate.
      * intros n. destruct (nonempty (escape_keyword LUA_KEYWORDS (to_snake x))) eqn:En;
          intros [= <-].
        -- now apply separate_words_clean.
        -- destruct (escape_keyword LUA_KEYWORDS (to_snake x)); [|discriminate En].
           split; [intros [] | constructor].
    + apply nth_error_None in Ex. lia.
  - apply Nat.ltb_ge in E. cbn [option_map]. split; [tauto | discriminate].
Qed.
